(** * cpppo EtherNet/IP simulator: [server/enip/main.py]

    A shallow embedding of the server's entry points:
    - [main]'s tag-specification loop, response-delay set-up and reading
      of the addresses to bind to,
    - the [delay_range] mutator thread,
    - the web API's [deduce_encoding], [api_request] and [api.GET],
    - the per-connection handler [enip_srv].

    Python objects that are shared and mutated ([cpppo.dotdict] instances
    reachable from the globals [options], [connections] and [tags]) live in
    a heap of attribute maps; the three globals hold references into it, so
    that a write through one path is seen through every other.

    A Python float is an exact rational, an infinity or NaN; IEEE
    rounding, and the overflow of a finite result to an infinity, are
    outside the model.  Text is ASCII, and read as Python 3 reads it. *)

From Stdlib Require Import ZArith QArith Qminmax Lqa List String Ascii Bool Lia.
From Stdlib.Strings Require Import Byte.
From stdpp Require Import gmap strings list pretty sorting.

Close Scope Q_scope.
Local Open Scope Z_scope.
Local Open Scope string_scope.

(** ** Python strings

    Text is ASCII throughout: what Python does with other characters
    (Unicode digits and white space in [int] and [float], the case of
    letters beyond A-Z) is outside the model. *)

Module Str.

(** [s.split(c, 1)] when [c] occurs in [s]: the text before and after the
    first occurrence. *)
Fixpoint partition (c : ascii) (s : string) : option (string * string) :=
  match s with
  | EmptyString => None
  | String a s' =>
      if Ascii.eqb a c then Some (EmptyString, s')
      else match partition c s' with
           | Some (l, r) => Some (String a l, r)
           | None => None
           end
  end.

(** [c in s] for a one-character [c]. *)
Fixpoint contains (c : ascii) (s : string) : bool :=
  match s with
  | EmptyString => false
  | String a s' => Ascii.eqb a c || contains c s'
  end.

(** [s.split(c)]: every piece, empty ones included. *)
Fixpoint split (c : ascii) (s : string) : list string :=
  match s with
  | EmptyString => [EmptyString]
  | String a s' =>
      if Ascii.eqb a c then EmptyString :: split c s'
      else match split c s' with
           | p :: ps => String a p :: ps
           | [] => [String a EmptyString]
           end
  end.

(** [s.replace(a, b)] for one-character [a] and [b]. *)
Fixpoint replace (a b : ascii) (s : string) : string :=
  match s with
  | EmptyString => EmptyString
  | String c s' => String (if Ascii.eqb c a then b else c) (replace a b s')
  end.

Definition is_lower (c : ascii) : bool :=
  (97 <=? nat_of_ascii c)%nat && (nat_of_ascii c <=? 122)%nat.

Definition is_upper (c : ascii) : bool :=
  (65 <=? nat_of_ascii c)%nat && (nat_of_ascii c <=? 90)%nat.

Definition upper_char (c : ascii) : ascii :=
  if is_lower c then ascii_of_nat (nat_of_ascii c - 32) else c.

Definition lower_char (c : ascii) : ascii :=
  if is_upper c then ascii_of_nat (nat_of_ascii c + 32) else c.

(** [s.upper()] and [s.lower()] on ASCII text. *)
Fixpoint upper (s : string) : string :=
  match s with
  | EmptyString => EmptyString
  | String c s' => String (upper_char c) (upper s')
  end.

Fixpoint lower (s : string) : string :=
  match s with
  | EmptyString => EmptyString
  | String c s' => String (lower_char c) (lower s')
  end.

(** [s.startswith(c)] for a one-character [c]. *)
Definition startswith (c : ascii) (s : string) : bool :=
  match s with
  | String a _ => Ascii.eqb a c
  | EmptyString => false
  end.

Definition is_empty (s : string) : bool :=
  match s with EmptyString => true | _ => false end.

Definition is_space (c : ascii) : bool :=
  let n := nat_of_ascii c in
  (n =? 32)%nat || ((9 <=? n)%nat && (n <=? 13)%nat).

Definition is_digit (c : ascii) : bool :=
  (48 <=? nat_of_ascii c)%nat && (nat_of_ascii c <=? 57)%nat.

Fixpoint lstrip (s : string) : string :=
  match s with
  | String c s' => if is_space c then lstrip s' else s
  | EmptyString => EmptyString
  end.

(** [s.rstrip()]: a character is dropped when it is white space and so is
    everything after it. *)
Fixpoint rstrip (s : string) : string :=
  match s with
  | EmptyString => EmptyString
  | String c s' =>
      match rstrip s' with
      | EmptyString => if is_space c then EmptyString else String c EmptyString
      | r => String c r
      end
  end.

Definition strip (s : string) : string := rstrip (lstrip s).

(** The value of a run of decimal digits, most significant first. *)
Fixpoint digits (acc : Z) (s : string) : option Z :=
  match s with
  | EmptyString => Some acc
  | String c s' =>
      if is_digit c then digits (10 * acc + (Z.of_nat (nat_of_ascii c) - 48)) s'
      else None
  end.

(** The value of a run of decimal digits that single underscores may
    separate ([1_000]); [after_digit] tells whether the character before
    was a digit, which an underscore and the end of the text ask for. *)
Fixpoint grouped (acc : Z) (after_digit : bool) (s : string) : option Z :=
  match s with
  | EmptyString => if after_digit then Some acc else None
  | String c s' =>
      if is_digit c then grouped (10 * acc + (Z.of_nat (nat_of_ascii c) - 48)) true s'
      else if Ascii.eqb c "_" && after_digit then grouped acc false s'
      else None
  end.

Definition unsigned (s : string) : option Z := grouped 0 false s.

(** The builtin [int(s)] of Python 3 on ASCII text in base ten: white
    space around, an optional sign, digits that single underscores may
    separate.  [None] stands for [ValueError].  (The limit on the number
    of digits, a setting of the interpreter since Python 3.11 that is
    4300 unless changed, is outside the model, as it is for [%d].) *)
Definition py_int (s : string) : option Z :=
  match strip s with
  | String "-" s' => Z.opp <$> unsigned s'
  | String "+" s' => unsigned s'
  | s' => unsigned s'
  end.

End Str.

(** ** Python values and the shared store *)

(** [parser.SINT], [parser.INT], [parser.DINT]: the values of [main]'s
    [typenames] table. *)
Inductive cip_type := SINT | INT | DINT.

(** The [default] handed to [device.Attribute]: a number, or a list. *)
Inductive tag_default :=
| Scalar (z : Z)
| Array (zs : list Z).

(** Modelled from the spec: [device.Attribute] is not part of this file; an
    instance is represented by the arguments [main] constructs it with
    (name, type, default). *)
Record Attribute := {
  attr_name : string;
  attr_type : cip_type;
  attr_default : tag_default
}.

Definition loc := nat.

(** A Python [float]. *)
Inductive pyfloat :=
| Finite (q : Q)
| PlusInfinity
| MinusInfinity
| NaN.

Coercion Finite : Q >-> pyfloat.
Bind Scope Q_scope with pyfloat.

Definition fopp (x : pyfloat) : pyfloat :=
  match x with
  | Finite q => Finite (- q)%Q
  | PlusInfinity => MinusInfinity
  | MinusInfinity => PlusInfinity
  | NaN => NaN
  end.

(** [x + y]: opposite infinities add up to NaN. *)
Definition fadd (x y : pyfloat) : pyfloat :=
  match x, y with
  | NaN, _ | _, NaN => NaN
  | Finite a, Finite b => Finite (a + b)%Q
  | PlusInfinity, MinusInfinity | MinusInfinity, PlusInfinity => NaN
  | PlusInfinity, _ | _, PlusInfinity => PlusInfinity
  | MinusInfinity, _ | _, MinusInfinity => MinusInfinity
  end.

Definition fsub (x y : pyfloat) : pyfloat := fadd x (fopp y).

(** The sign of a float: [Lt] below zero, [Gt] above, [Eq] for zero (and
    for NaN, which has none). *)
Definition fsign (x : pyfloat) : comparison :=
  match x with
  | Finite q => (q ?= 0)%Q
  | PlusInfinity => Gt
  | MinusInfinity => Lt
  | NaN => Eq
  end.

(** [x * y]: an infinity times zero is NaN. *)
Definition fmul (x y : pyfloat) : pyfloat :=
  match x, y with
  | NaN, _ | _, NaN => NaN
  | Finite a, Finite b => Finite (a * b)%Q
  | _, _ =>
      match fsign x, fsign y with
      | Eq, _ | _, Eq => NaN
      | Lt, Lt | Gt, Gt => PlusInfinity
      | Lt, Gt | Gt, Lt => MinusInfinity
      end
  end.

(** [x <= y] and [x > y]: both are false when one side is NaN. *)
Definition fle (x y : pyfloat) : bool :=
  match x, y with
  | NaN, _ | _, NaN => false
  | Finite a, Finite b => Qle_bool a b
  | MinusInfinity, _ | _, PlusInfinity => true
  | _, _ => false
  end.

Definition fgt (x y : pyfloat) : bool :=
  match x, y with
  | NaN, _ | _, NaN => false
  | _, _ => negb (fle x y)
  end.

Inductive value :=
| VNone
| VBool (b : bool)
| VInt (z : Z)
| VFloat (x : pyfloat)
| VStr (s : string)
| VRef (l : loc)            (* a dotdict, by reference *)
| VAttr (a : Attribute)
| VFunc (n : nat).          (* a function object, e.g. options.enip_process *)

(** Modelled from the spec: [cpppo.dotdict] is a dictionary whose keys are
    also its attributes ([d.key] and [d['key']] agree); it is represented
    by a finite map from attribute names to values. *)
Abbreviation dotdict := (gmap string value).

Record globals := {
  heap : gmap loc dotdict;
  next_loc : loc;
  options : dotdict;
  connections : dotdict;
  tags : dotdict
}.

Definition empty_globals : globals :=
  {| heap := ∅; next_loc := 0%nat; options := ∅; connections := ∅; tags := ∅ |}.

Definition set_heap (h : gmap loc dotdict) (g : globals) : globals :=
  {| heap := h; next_loc := next_loc g; options := options g;
     connections := connections g; tags := tags g |}.

Definition set_options (o : dotdict) (g : globals) : globals :=
  {| heap := heap g; next_loc := next_loc g; options := o;
     connections := connections g; tags := tags g |}.

Definition set_connections (c : dotdict) (g : globals) : globals :=
  {| heap := heap g; next_loc := next_loc g; options := options g;
     connections := c; tags := tags g |}.

Definition set_tags (t : dotdict) (g : globals) : globals :=
  {| heap := heap g; next_loc := next_loc g; options := options g;
     connections := connections g; tags := t |}.

(** [cpppo.dotdict()]: a new, empty object.  In a store built up from
    [empty_globals], [next_loc] lies beyond every object there is. *)
Definition alloc (g : globals) : loc * globals :=
  (next_loc g,
   {| heap := <[next_loc g := ∅]> (heap g); next_loc := S (next_loc g);
      options := options g; connections := connections g; tags := tags g |}).

(** [obj.name]; [None] stands for [AttributeError]. *)
Definition getattr (g : globals) (l : loc) (name : string) : option value :=
  heap g !! l ≫= λ d, d !! name.

(** [obj.name = v]. *)
Definition setattr (l : loc) (name : string) (v : value) (g : globals) : globals :=
  set_heap (alter (λ d, <[name := v]> d) l (heap g)) g.

(** Truth value of an object, as [if x:] and [not x] take it. *)
Definition truthy (g : globals) (v : value) : bool :=
  match v with
  | VNone => false
  | VBool b => b
  | VInt z => negb (Z.eqb z 0)
  | VFloat (Finite q) => negb (Qeq_bool q 0)
  | VFloat _ => true
  | VStr s => negb (Str.is_empty s)
  | VRef l => match heap g !! l with
              | Some d => negb (bool_decide (d = ∅))
              | None => false
              end
  | VAttr _ => true
  | VFunc _ => true
  end.

(** ** [main]: the tag specifications *)

Module TagSpec.

(** Why [main] gives up on a specification: each is an [AssertionError],
    [NoTags] the usage error of [argparse] for [nargs="+"]. *)
Inductive tag_error :=
| NoTags
| MismatchedBrackets
| UnexpectedText
| InvalidType
| InvalidSize.

(** [tag_size] is the integer [1] until a [[...]] part replaces it by text. *)
Inductive size_text :=
| SizeDefault
| SizeText (s : string).

(** [typenames]. *)
Definition typenames (s : string) : option cip_type :=
  if String.eqb s "INT" then Some INT
  else if String.eqb s "DINT" then Some DINT
  else if String.eqb s "SINT" then Some SINT
  else None.

(** The body of [for t in args.tags] up to [int( tag_size )]. *)
Definition parse_tag (t : string) : tag_error + (string * cip_type * Z) :=
  let '(tag_name, rest) :=
    if Str.contains "=" t then
      match Str.partition "=" t with
      | Some (n, r) => (n, r)
      | None => (t, EmptyString)
      end
    else (t, EmptyString) in
  let tag_type := if Str.is_empty rest then "INT" else rest in
  let bracket :=
    if Str.contains "[" tag_type then
      match Str.partition "[" tag_type with
      | Some (ty, rest) =>
          match Str.partition "]" rest with
          | None => inl MismatchedBrackets
          | Some (sz, rest') => inr (ty, SizeText sz, rest')
          end
      | None => inr (tag_type, SizeDefault, EmptyString)
      end
    else inr (tag_type, SizeDefault, EmptyString) in
  match bracket with
  | inl e => inl e
  | inr (tag_type, tag_size, rest) =>
      if negb (Str.is_empty rest) then inl UnexpectedText
      else
        match typenames (Str.upper tag_type) with
        | None => inl InvalidType
        | Some ty =>
            match tag_size with
            | SizeDefault => inr (tag_name, ty, 1)
            | SizeText s =>
                match Str.py_int s with
                | Some n => inr (tag_name, ty, n)
                | None => inl InvalidSize
                end
            end
        end
  end.

(** [0 if tag_size == 1 else [0 for i in range( tag_size )]]. *)
Definition default_for (tag_size : Z) : tag_default :=
  if Z.eqb tag_size 1 then Scalar 0 else Array (repeat 0 (Z.to_nat tag_size)).

(** The three assignments that create the tag. *)
Definition create_tag (tag_name : string) (ty : cip_type) (tag_size : Z)
    (g : globals) : globals :=
  let '(l, g) := alloc g in
  let g := set_tags (<[tag_name := VRef l]> (tags g)) g in
  let attribute := {| attr_name := tag_name; attr_type := ty;
                      attr_default := default_for tag_size |} in
  let g := setattr l "attribute" (VAttr attribute) g in
  setattr l "error" (VInt 0) g.

Fixpoint tag_loop (ts : list string) (g : globals) : tag_error + globals :=
  match ts with
  | [] => inr g
  | t :: ts' =>
      match parse_tag t with
      | inl e => inl e
      | inr (tag_name, ty, tag_size) => tag_loop ts' (create_tag tag_name ty tag_size g)
      end
  end.

(** [main] on its positional arguments: [argparse] refuses an empty list. *)
Definition main_tags (ts : list string) (g : globals) : tag_error + globals :=
  match ts with
  | [] => inl NoTags
  | _ => tag_loop ts g
  end.

(** The specifications [parse_tag] lets through, and what it reads in
    them: a bare name, a name with an empty or a bare type, and a name
    with a type and a bracketed size. *)
Inductive accepted : string → string → cip_type → Z → Prop :=
| accepted_name name :
    Str.contains "=" name = false →
    accepted name name INT 1
| accepted_empty name :
    Str.contains "=" name = false →
    accepted (name +:+ "=") name INT 1
| accepted_type name ty T :
    Str.contains "=" name = false →
    typenames (Str.upper ty) = Some T →
    accepted (name +:+ "=" +:+ ty) name T 1
| accepted_size name ty sz T n :
    Str.contains "=" name = false →
    typenames (Str.upper ty) = Some T →
    Str.py_int sz = Some n →
    accepted (name +:+ "=" +:+ ty +:+ "[" +:+ sz +:+ "]") name T n.

(** The objects [create_tag] leaves behind for a tag. *)
Definition tag_entry (tag_name : string) (ty : cip_type) (tag_size : Z) : dotdict :=
  <["error" := VInt 0]>
    (<["attribute" := VAttr {| attr_name := tag_name; attr_type := ty;
                               attr_default := default_for tag_size |}]> ∅).

(** The specification [t] names the tag [name]. *)
Definition names (name : string) (t : string) : bool :=
  match parse_tag t with
  | inr (nm, _, _) => String.eqb nm name
  | inl _ => false
  end.

End TagSpec.

(** ** [main]: the response delay, and the [delay_range] mutator *)

Module Delay.

(** The builtin [float(s)] on text is a parameter [fl] of the model (its
    literal syntax is Python's, not this file's); blank text is never a
    literal.  [None] stands for [ValueError]. *)
Definition py_float (fl : string → option pyfloat) (s : string) : option pyfloat :=
  if Str.is_empty (Str.strip s) then None else fl s.

(** [float(v)] for an object [v]; [None] stands for [TypeError] or
    [ValueError].  (An [int] beyond the range of the floats, for which
    [float] raises [OverflowError], is outside the model.) *)
Definition to_float (fl : string → option pyfloat) (v : value) : option pyfloat :=
  match v with
  | VFloat x => Some x
  | VInt z => Some (Finite (inject_Z z))
  | VBool b => Some (Finite (if b then 1%Q else 0%Q))
  | VStr s => py_float fl s
  | VNone | VRef _ | VAttr _ | VFunc _ => None
  end.

(** [random.uniform(a, b)], that is [a + (b-a) * random()], for the draw
    [r] of [random()]. *)
Definition uniform (a b : pyfloat) (r : Q) : pyfloat :=
  fadd a (fmul (fsub b a) (Finite r)).

(** [main] from [options.delay = cpppo.dotdict()] to the start of the
    mutator thread: the new store and whether the thread was started;
    [None] stands for the [AssertionError] of an unrecognized [--delay]. *)
Definition configure_delay (fl : string → option pyfloat) (arg : string) (g : globals)
    : option (globals * bool) :=
  let '(l, g) := alloc g in
  let g := set_options (<["delay" := VRef l]> (options g)) g in
  match py_float fl arg with
  | Some q => Some (setattr l "value" (VFloat q) g, false)
  | None =>
      if Str.contains "-" arg then
        let g := setattr l "range" (VStr arg) g in
        let g := setattr l "value" (VFloat 0%Q) g in
        Some (g, true)
      else None
  end.

Inductive mutator_event :=
| Slept (seconds : Q)
| Mutated (v : pyfloat)          (* log.info( "Mutated delay == %g", ... ) *)
| NoRange.                 (* log.warning( "No delay=#[.#]-#[.#] range specified: ..." ) *)

(** [kwds['delay']['range']]; [kwds] holds what [options] held when the
    thread was created, so [kwds['delay']] is the very object
    [options.delay]. *)
Definition current_range (kwds : dotdict) (g : globals) : option string :=
  match kwds !! "delay" with
  | Some (VRef l) =>
      match getattr g l "range" with
      | Some (VStr s) => Some s
      | _ => None
      end
  | _ => None
  end.

(** The [assert] that opens [delay_range]. *)
Definition delay_range_assert (kwds : dotdict) (g : globals) : bool :=
  match kwds !! "delay" with
  | Some (VRef l) =>
      match getattr g l "range" with
      | Some (VStr s) => Str.contains "-" s
      | _ => false
      end
  | _ => false
  end.

(** [lo,hi = map( float, ....split( '-' ))]: exactly two pieces, each a
    float literal. *)
Definition parse_range (fl : string → option pyfloat) (s : string)
    : option (pyfloat * pyfloat) :=
  match Str.split "-" s with
  | [a; b] =>
      match py_float fl a, py_float fl b with
      | Some lo, Some hi => Some (lo, hi)
      | _, _ => None
      end
  | _ => None
  end.

(** One turn of [while True:] in [delay_range], [r] being the draw of
    [random()] should [random.uniform] be reached. *)
Definition delay_range_step (fl : string → option pyfloat) (kwds : dotdict) (r : Q)
    (g : globals) : globals * list mutator_event :=
  match kwds !! "delay" with
  | Some (VRef l) =>
      match current_range kwds g ≫= parse_range fl with
      | Some (lo, hi) =>
          let v := uniform lo hi r in
          (setattr l "value" (VFloat v) g, [Slept 1%Q; Mutated v])
      | None => (g, [Slept 1%Q; NoRange])
      end
  | _ => (g, [Slept 1%Q; NoRange])
  end.

(** As many turns as there are draws in [rs]. *)
Fixpoint delay_range_run (fl : string → option pyfloat) (kwds : dotdict) (rs : list Q)
    (g : globals) : globals * list mutator_event :=
  match rs with
  | [] => (g, [])
  | r :: rs' =>
      let '(g1, ev1) := delay_range_step fl kwds r g in
      let '(g2, ev2) := delay_range_run fl kwds rs' g1 in
      (g2, (ev1 ++ ev2)%list)
  end.

(** [delay_range( **options )] as the thread runs it: [None] when the
    opening [assert] fails. *)
Definition delay_range (fl : string → option pyfloat) (kwds : dotdict) (rs : list Q)
    (g : globals) : option (globals * list mutator_event) :=
  if delay_range_assert kwds g then Some (delay_range_run fl kwds rs g) else None.

(** [options.delay.value] as a number of seconds, when it is one. *)
Definition delay_value (g : globals) : option Q :=
  match options g !! "delay" with
  | Some (VRef l) =>
      match getattr g l "value" with
      | Some (VFloat (Finite q)) => Some q
      | _ => None
      end
  | _ => None
  end.

(** A sample of [float]'s literals, for closed examples: an optional sign
    before digits with an optional fraction ([12], [.5], [-3.25], [7.]) or
    before [nan], [inf] or [infinity] in any case of the letters. *)
Fixpoint fraction (num den : Z) (s : string) : option (Z * Z) :=
  match s with
  | EmptyString => Some (num, den)
  | String c s' =>
      if Str.is_digit c
      then fraction (10 * num + (Z.of_nat (nat_of_ascii c) - 48)) (10 * den) s'
      else None
  end.

Definition special (s : string) : option pyfloat :=
  if String.eqb (Str.lower s) "nan" then Some NaN
  else if String.eqb (Str.lower s) "inf" || String.eqb (Str.lower s) "infinity"
  then Some PlusInfinity
  else None.

Definition unsigned_decimal (s : string) : option pyfloat :=
  match special s with
  | Some x => Some x
  | None =>
      let '(whole, frac) :=
        match Str.partition "." s with
        | Some (w, f) => (w, f)
        | None => (s, EmptyString)
        end in
      if Str.is_empty whole && Str.is_empty frac then None
      else
        match Str.digits 0 whole, fraction 0 1 frac with
        | Some w, Some (n, d) => Some (Finite (Qplus (inject_Z w) (Qmake n (Z.to_pos d))))
        | _, _ => None
        end
  end.

Definition decimal (s : string) : option pyfloat :=
  match s with
  | String "-" s' => fopp <$> unsigned_decimal s'
  | String "+" s' => unsigned_decimal s'
  | _ => unsigned_decimal s
  end.

End Delay.

(** ** The web API: [deduce_encoding] and [api_request] *)

Module Api.

(** What [api_request] takes from Python and the standard library. *)
Record builtins := {
  (** [fnmatch.fnmatch( name, pattern )] *)
  fnmatch : string → string → bool;
  (** [float( text )] *)
  float_text : string → option pyfloat;
  (** [time.ctime( since )] for a finite [since]: whether the call returns
      (it raises for a time that the platform cannot turn into a date) *)
  ctime_ok : Q → bool;
  (** [type( cur )( value )] for a [cur] that is neither [None] nor a
      [bool], [int], [float] or [str]: the converted object, or [None]
      when the call raises (whatever it raises: no such type is [bool]) *)
  construct : value → option string → option value;
  (** [target._events( since=since, purge=True )]: the times of the events
      returned, or [None] when the call raises *)
  call_events : value → option Q → option (list Q)
}.

Definition available : list string :=
  ["application/json"; "text/javascript"; "text/plain"; "text/html"].

Fixpoint drop (n : nat) (s : string) : string :=
  match n, s with
  | S n', String _ s' => drop n' s'
  | _, _ => s
  end.

Definition string_in (s : string) (l : list string) : bool :=
  existsb (String.eqb s) l.

(** [for a, t in zip( avail.split( '/' ), encoding.split( '/' ))]. *)
Fixpoint zip_match (av en : list string) : bool :=
  match av, en with
  | a :: av', t :: en' =>
      (String.eqb a t || String.eqb t "*") && zip_match av' en'
  | _, _ => true
  end.

(** [for encoding in reversed( stanza.split( ';' ))]: the quality left in
    [q], [None] when a [float] raises. *)
Fixpoint stanza_quality (B : builtins) (rev_parts : list string) (q : pyfloat)
    : option pyfloat :=
  match rev_parts with
  | [] => Some q
  | encoding :: rest =>
      if String.prefix "q=" encoding then
        match Delay.py_float (float_text B) (drop 2 encoding) with
        | Some q' => stanza_quality B rest q'
        | None => None
        end
      else stanza_quality B rest q
  end.

(** [for avail in available]. *)
Fixpoint best_available (avs : list string) (encoding : string) (q : pyfloat)
    (acc : option string * pyfloat) : option string * pyfloat :=
  match avs with
  | [] => acc
  | avail :: avs' =>
      let acc :=
        if zip_match (Str.split "/" avail) (Str.split "/" encoding)
        then if fgt q (snd acc) then (Some avail, q) else acc
        else acc in
      best_available avs' encoding q acc
  end.

(** [for stanza in HTTP_ACCEPT.split( ',' )].  After the inner loop over
    the reversed pieces, [encoding] is the stanza's first piece. *)
Fixpoint deduce_stanzas (B : builtins) (stanzas : list string)
    (acc : option string * pyfloat) : option (option string) :=
  match stanzas with
  | [] => Some (fst acc)
  | stanza :: rest =>
      let parts := Str.split ";" stanza in
      match stanza_quality B (rev parts) (Finite 1) with
      | None => None
      | Some q =>
          deduce_stanzas B rest
            (best_available available (hd EmptyString parts) q acc)
      end
  end.

(** [deduce_encoding( available, environ, accept )] for the list
    [api_request] passes; the outer [None] stands for an exception. *)
Definition deduce_encoding (B : builtins) (environ : option (gmap string string))
    (accept : option string) : option (option string) :=
  match accept with
  | Some a =>
      if Str.is_empty a then
        deduce_stanzas B (Str.split "," (Str.lower
          (match environ with
           | Some e => if bool_decide (e = ∅) then "*/*" else default "*/*" (e !! "HTTP_ACCEPT")
           | None => "*/*"
           end))) (None, Finite 0)
      else
        let a := Str.lower a in
        Some (if string_in a available then Some a else None)
  | None =>
      deduce_stanzas B (Str.split "," (Str.lower
        (match environ with
         | Some e => if bool_decide (e = ∅) then "*/*" else default "*/*" (e !! "HTTP_ACCEPT")
         | None => "*/*"
         end))) (None, Finite 0)
  end.

Inductive group := Options | Connections | Tags.

Definition group_name (grp : group) : string :=
  match grp with
  | Options => "options"
  | Connections => "connections"
  | Tags => "tags"
  end.

Definition group_obj (grp : group) (g : globals) : dotdict :=
  match grp with
  | Options => options g
  | Connections => connections g
  | Tags => tags g
  end.

(** [[ m for m in dir( obj ) if not m.startswith( '_' ) ]]: [dir] lists
    the names in order. *)
Definition public_names (obj : dotdict) : list string :=
  List.filter (λ m, negb (Str.startswith "_" m))
    (merge_sort String.le (map fst (map_to_list obj))).

(** The arguments of [api_request]. *)
Record request := {
  r_group : option string;
  r_match : option string;
  r_command : option string;
  r_value : option string;
  r_queries : option (gmap string string);
  r_environ : option (gmap string string);
  r_accept : option string
}.

(** [if key in queries and queries[key]: x = queries[key]]. *)
Definition overridden (key : string) (queries : gmap string string)
    (given : option string) : option string :=
  match queries !! key with
  | Some v => if Str.is_empty v then given else Some v
  | None => given
  end.

(** [if not x: x = "*"]. *)
Definition or_star (x : option string) : string :=
  match x with
  | Some s => if Str.is_empty s then "*" else s
  | None => "*"
  end.

(** The command that is executed: the [command] query option when there
    is a non-empty one, the argument otherwise. *)
Definition effective_command (rq : request) : option string :=
  match r_queries rq with
  | Some queries => overridden "command" queries (r_command rq)
  | None => r_command rq
  end.

(** [command and command.lower() != "get"]. *)
Definition is_assignment (command : option string) : bool :=
  match command with
  | Some c => negb (Str.is_empty c) && negb (String.eqb (Str.lower c) "get")
  | None => false
  end.

Inductive conversion :=
| Converted (v : value)
| RaisesTypeError
| RaisesOther.

(** [typ( value )] with [typ = type( cur )]. *)
Definition typ_call (B : builtins) (cur : value) (v : option string) : conversion :=
  match cur with
  | VBool _ =>
      Converted (VBool (match v with Some s => negb (Str.is_empty s) | None => false end))
  | VInt _ =>
      match v with
      | None => RaisesTypeError
      | Some s => match Str.py_int s with
                  | Some z => Converted (VInt z)
                  | None => RaisesOther
                  end
      end
  | VFloat _ =>
      match v with
      | None => RaisesTypeError
      | Some s => match Delay.py_float (float_text B) s with
                  | Some q => Converted (VFloat q)
                  | None => RaisesOther
                  end
      end
  | VStr _ => Converted (VStr (default "None" v))
  | VNone => RaisesTypeError
  | VRef _ | VAttr _ | VFunc _ =>
      match construct B cur v with
      | Some c => Converted c
      | None => RaisesOther
      end
  end.

(** The inner [try] of the assignment: [cvt], or [None] when an exception
    leaves it. *)
Definition coerce (B : builtins) (cur : value) (v : option string) : option value :=
  match typ_call B cur v with
  | Converted c => Some c
  | RaisesOther => None
  | RaisesTypeError =>
      match cur with
      | VBool _ =>
          match v with
          | None => None        (* value.lower() on None *)
          | Some s =>
              if string_in (Str.lower s) ["true"; "yes"] then Some (VBool true)
              else if string_in (Str.lower s) ["false"; "no"] then Some (VBool false)
              else (λ z, VBool (negb (Z.eqb z 0))) <$> Str.py_int s
          end
      | _ => None
      end
  end.

(** The outer [try]: [setattr( target, command, cvt )] and whether it was
    reached. *)
Definition assign (B : builtins) (l : loc) (command : string) (v : option string)
    (g : globals) : globals * bool :=
  match getattr g l command with
  | None => (g, false)
  | Some cur =>
      match coerce B cur v with
      | Some cvt => (setattr l command cvt g, true)
      | None => (g, false)
      end
  end.

(** [content], without the clock reading [until]. *)
Record content := {
  alarm : list Q;
  command : option (option bool);   (* null, {} or {success: ...} *)
  data : gmap string (gmap string dotdict);
  since : option Q
}.

(** [{ a: getattr( target, a ) for a in dir( target ) if not
    a.startswith('_') }]. *)
Definition public_attrs (d : dotdict) : dotdict :=
  filter (λ kv, Str.startswith "_" kv.1 = false) d.

(** One turn of the inner [for mch in ...] loop; [None] when an exception
    leaves [api_request] (the store as it then is comes with it). *)
Definition visit (B : builtins) (grp : group) (mch : string)
    (group_pat match_pat : string) (cmd v : option string)
    (g : globals) (c : content) : globals * option content :=
  if negb (fnmatch B (group_name grp) group_pat) then (g, Some c)
  else if negb (fnmatch B mch match_pat) then (g, Some c)
  else
    match group_obj grp g !! mch with
    | Some (VRef l) =>
        if negb (truthy g (VRef l)) then (g, Some c)
        else
          let '(g, result) :=
            if is_assignment cmd
            then let '(g', ok) := assign B l (default EmptyString cmd) v g in (g', Some ok)
            else (g, None) in
          let target := default ∅ (heap g !! l) in
          let c := {| alarm := alarm c;
                      command := Some result;
                      data := <[group_name grp :=
                                 <[mch := public_attrs target]>
                                   (default ∅ (data c !! group_name grp))]> (data c);
                      since := since c |} in
          match target !! "_events" with
          | None => (g, Some c)
          | Some ev =>
              match call_events B ev (since c) with
              | Some evs => (g, Some {| alarm := (alarm c ++ evs)%list; command := command c;
                                        data := data c; since := since c |})
              | None => (g, None)
              end
          end
    | _ => (g, Some c)
    end.

Fixpoint visit_names (B : builtins) (grp : group) (names : list string)
    (group_pat match_pat : string) (cmd v : option string)
    (g : globals) (c : content) : globals * option content :=
  match names with
  | [] => (g, Some c)
  | mch :: rest =>
      match visit B grp mch group_pat match_pat cmd v g c with
      | (g, Some c) => visit_names B grp rest group_pat match_pat cmd v g c
      | (g, None) => (g, None)
      end
  end.

Fixpoint visit_groups (B : builtins) (grps : list group)
    (group_pat match_pat : string) (cmd v : option string)
    (g : globals) (c : content) : globals * option content :=
  match grps with
  | [] => (g, Some c)
  | grp :: rest =>
      match visit_names B grp (public_names (group_obj grp g))
              group_pat match_pat cmd v g c with
      | (g, Some c) => visit_groups B rest group_pat match_pat cmd v g c
      | (g, None) => (g, None)
      end
  end.

(** [since = float( queries["since"] )] when the option is there and not
    empty, and the [time.ctime( since )] of the [logging.debug] line that
    precedes the loops; the outer [None] stands for an exception ([float]
    raises for text it cannot read, [time.ctime] for NaN, an infinity and a
    time out of its range). *)
Definition read_since (B : builtins) (queries : gmap string string)
    : option (option Q) :=
  match queries !! "since" with
  | Some s =>
      if Str.is_empty s then Some None
      else match Delay.py_float (float_text B) s with
           | Some (Finite q) => if ctime_ok B q then Some (Some q) else None
           | Some _ => None
           | None => None
           end
  | None => Some None
  end.

(** [api_request] up to the end of its loops: the store it leaves and the
    [content] collected, [None] when an exception left the function.  The
    rest of the function formats [content] and reads nothing else of the
    store. *)
Definition api_request (B : builtins) (rq : request) (g : globals)
    : globals * option content :=
  match deduce_encoding B (r_environ rq) (r_accept rq) with
  | None => (g, None)
  | Some _ =>
      match r_queries rq with
      | None => (g, None)                 (* "group" in None *)
      | Some queries =>
          let group_pat := or_star (overridden "group" queries (r_group rq)) in
          let match_pat := or_star (overridden "match" queries (r_match rq)) in
          let cmd := overridden "command" queries (r_command rq) in
          let v := overridden "value" queries (r_value rq) in
          match read_since B queries with
          | None => (g, None)
          | Some since =>
              visit_groups B [Options; Connections; Tags] group_pat match_pat cmd v g
                {| alarm := []; command := None; data := ∅; since := since |}
          end
      end
  end.

(** A sample of [time.ctime]'s range: a million years either side of 1970. *)
Definition within_a_million_years (q : Q) : bool :=
  Qle_bool (- 31556952000000) q && Qle_bool q 31556952000000.

(** A sample of [fnmatch]: the pattern [*] and literal patterns. *)
Definition star_or_literal (name pattern : string) : bool :=
  String.eqb pattern "*" || String.eqb name pattern.

Definition sample_builtins : builtins :=
  {| fnmatch := star_or_literal;
     float_text := Delay.decimal;
     ctime_ok := within_a_million_years;
     construct := λ _ _, None;
     call_events := λ _ _, None |}.

End Api.

(** ** The connection handler: [enip_srv] *)

Module Session.

(** Modelled from the spec: the byte source [cpppo.rememberable] (section
    4.A) is not part of this file.  It is a window over the received
    bytes: [pending] are the bytes not yet consumed, [memory] the consumed
    ones since the last [forget], [sent] counts every byte consumed. *)
Record source := {
  sent : nat;
  memory : list byte;
  pending : list byte
}.

Definition rememberable : source :=
  {| sent := 0; memory := []; pending := [] |}.

Definition peek (s : source) : option byte := head (pending s).

Definition chain (bs : list byte) (s : source) : source :=
  {| sent := sent s; memory := memory s; pending := (pending s ++ bs)%list |}.

Definition forget (s : source) : source :=
  {| sent := sent s; memory := []; pending := pending s |}.

(** [next( source )]: consume one byte. *)
Definition advance (s : source) : option (byte * source) :=
  match pending s with
  | b :: rest =>
      Some (b, {| sent := S (sent s); memory := (memory s ++ [b])%list; pending := rest |})
  | [] => None
  end.

(** [bytes(bytearray( b for b in source ))]: consume what is left. *)
Definition drain (s : source) : source :=
  {| sent := (sent s + length (pending s))%nat;
     memory := (memory s ++ pending s)%list; pending := [] |}.

(** What [network.recv( conn, timeout )] (not part of this file) returns:
    [None] when nothing arrived in time, the bytes received ([b''] at end
    of file), or a socket error that it lets through. *)
Inductive received :=
| Nothing
| Bytes (msg : list byte)
| SocketError.

(** What happens during one call of [network.recv]: whether the control
    plane sets this connection's [eof] meanwhile, and what the call
    returns. *)
Record arrival := {
  ctl_eof : bool;
  recv_result : received
}.

(** One resumption of the generator [enip_mesg.run( path='request',
    source=source, data=data )]: it yields [(mch, sta)], where only
    whether [sta] is [None] ([waiting]) matters to the handler, it stops,
    or it raises. *)
Inductive gen_step (data pstate : Type) :=
| GenYield (waiting : bool) (gen : pstate) (s : source) (d : data)
| GenStop (s : source) (d : data)
| GenRaise (s : source).
Arguments GenYield {data pstate}.
Arguments GenStop {data pstate}.
Arguments GenRaise {data pstate}.

(** What [enip_process( addr, data=data, **kwds )] does: it returns a true
    value (a response is in [data]), a false one (the session has ended),
    or raises. *)
Inductive processed (data procstate : Type) :=
| Proceed (d : data) (p : procstate)
| Ended (d : data) (p : procstate)
| Fails (p : procstate).
Arguments Proceed {data procstate}.
Arguments Ended {data procstate}.
Arguments Fails {data procstate}.

Definition address := (string * Z)%type.

(** The code [enip_srv] calls and this file does not hold. *)
Record collaborators (data pstate procstate : Type) := {
  (** [cpppo.dotdict()] for [data] *)
  new_data : data;
  (** ['request' in data] *)
  has_request : data → bool;
  (** ['response' in data] *)
  has_response : data → bool;
  (** ['enip.input' in data.response] *)
  has_enip_input : data → bool;
  (** [parser.enip_encode( data.response.enip )], [None] when it raises *)
  enip_encode : data → option (list byte);
  (** the generator [enip_mesg.run(...)] before its first resumption *)
  run_start : pstate;
  run_next : pstate → source → data → gen_step data pstate;
  (** the [enip_process] argument ([None] by default); the [bool] tells
      whether [**kwds] are passed *)
  enip_process : option (procstate → address → data → bool → processed data procstate);
  (** [float( text )] *)
  float_text : string → option pyfloat;
  (** [time.sleep( seconds )] for a finite [seconds] that is not negative:
      whether the call returns (it raises beyond a limit of the platform,
      some 9.2e9 seconds where the C type of a time has 64 bits) *)
  sleep_ok : Q → bool
}.
Arguments new_data {data pstate procstate}.
Arguments has_request {data pstate procstate}.
Arguments has_response {data pstate procstate}.
Arguments has_enip_input {data pstate procstate}.
Arguments enip_encode {data pstate procstate}.
Arguments run_start {data pstate procstate}.
Arguments run_next {data pstate procstate}.
Arguments enip_process {data pstate procstate}.
Arguments float_text {data pstate procstate}.
Arguments sleep_ok {data pstate procstate}.

(** What an observer of the handler sees, in order. *)
Inductive event :=
| EvRecv (timeout : Q) (buffered : option byte) (r : received)
| EvRun                                  (* enip_mesg.run is started *)
| EvProcess (request : bool) (reply : option bool)
| EvSleep (seconds : Q)
| EvDelayInvalid                         (* "Unable to delay; invalid seconds" *)
| EvSend (rpy : list byte) (ok : bool)
| EvClose.

(** A socket read waits a tenth of a second when [source.peek()] was
    [None], and does not wait otherwise. *)
Definition timeout_ok (e : event) : Prop :=
  match e with
  | EvRecv t None _ => t = (1 # 10)%Q
  | EvRecv t (Some _) _ => t = 0%Q
  | _ => True
  end.

(** Neither a socket read nor the start of a parse. *)
Definition quiet (e : event) : Prop :=
  match e with
  | EvRecv _ _ _ | EvRun => False
  | _ => True
  end.

(** The socket is closed. *)
Definition closes (e : event) : bool :=
  match e with
  | EvClose => true
  | _ => false
  end.


(** The state of one call of [enip_srv]: the shared store, the byte
    source, what the peer and the control plane are going to do
    ([inbox], one entry per call of [network.recv], after which nothing
    arrives any more; [send_errors], one entry per call of [conn.send],
    after which every send succeeds), the processor's own state, the
    local variable [eof] ([None] while unbound), and with each event of
    [trace] the store as it was at that event ([observed]: what another
    thread, such as the web API, finds there at that time). *)
Record state (procstate : Type) := {
  glob : globals;
  src : source;
  inbox : list arrival;
  send_errors : list bool;
  proc : procstate;
  eof : option bool;
  closed : bool;
  trace : list event;
  observed : list globals
}.
Arguments glob {procstate}.
Arguments src {procstate}.
Arguments inbox {procstate}.
Arguments send_errors {procstate}.
Arguments proc {procstate}.
Arguments eof {procstate}.
Arguments closed {procstate}.
Arguments trace {procstate}.
Arguments observed {procstate}.

Section Handler.
Context {data pstate procstate : Type}.
Variable E : collaborators data pstate procstate.
Abbreviation st := (state procstate).

Definition with_glob (g : globals) (s : st) : st :=
  {| glob := g; src := src s; inbox := inbox s; send_errors := send_errors s;
     proc := proc s; eof := eof s; closed := closed s; trace := trace s;
     observed := observed s |}.

Definition with_src (x : source) (s : st) : st :=
  {| glob := glob s; src := x; inbox := inbox s; send_errors := send_errors s;
     proc := proc s; eof := eof s; closed := closed s; trace := trace s;
     observed := observed s |}.

Definition with_proc (p : procstate) (s : st) : st :=
  {| glob := glob s; src := src s; inbox := inbox s; send_errors := send_errors s;
     proc := p; eof := eof s; closed := closed s; trace := trace s;
     observed := observed s |}.

Definition with_eof (b : bool) (s : st) : st :=
  {| glob := glob s; src := src s; inbox := inbox s; send_errors := send_errors s;
     proc := proc s; eof := Some b; closed := closed s; trace := trace s;
     observed := observed s |}.

(** An event is seen: it joins the trace, and the store as it then is
    joins [observed]. *)
Definition emit (e : event) (s : st) : st :=
  {| glob := glob s; src := src s; inbox := inbox s; send_errors := send_errors s;
     proc := proc s; eof := eof s; closed := closed s; trace := (trace s ++ [e])%list;
     observed := (observed s ++ [glob s])%list |}.

(** [stats.requests = 0] to [stats.port = addr[1]]. *)
Definition set_up (stats : loc) (addr : address) (g : globals) : globals :=
  let g := setattr stats "requests" (VInt 0) g in
  let g := setattr stats "received" (VInt 0) g in
  let g := setattr stats "eof" (VBool false) g in
  let g := setattr stats "interface" (VStr (fst addr)) g in
  setattr stats "port" (VInt (snd addr)) g.

(** Where a piece of the handler leaves: normally, or by an exception. *)
Inductive outcome (A : Type) :=
| Ok (a : A) (s : st)
| Exc (s : st).
Arguments Ok {A}.
Arguments Exc {A}.

(** The state at the point of leaving. *)
Definition final {A : Type} (r : outcome A) : st :=
  match r with
  | Ok _ s => s
  | Exc s => s
  end.

(** What a piece of the handler may do to the state it is given: the
    [connections] map stays, and the trace grows by events whose socket
    reads have the timeout [timeout_ok] asks for; none of them closes the
    socket, and at each of them [connections] is as it was. *)
Definition grows (s s' : st) : Prop :=
  connections (glob s') = connections (glob s) ∧
  ∃ evs gs, trace s' = (trace s ++ evs)%list ∧ Forall timeout_ok evs ∧
            observed s' = (observed s ++ gs)%list ∧
            Forall2 (λ e g', closes e = false ∧
                             connections g' = connections (glob s)) evs gs.

(** [stats.eof], as a condition. *)
Definition stats_eof (stats : loc) (s : st) : option bool :=
  truthy (glob s) <$> getattr (glob s) stats "eof".

(** [stats.name += n]. *)
Definition add_attr (stats : loc) (name : string) (n : Z) (s : st) : option st :=
  match getattr (glob s) stats name with
  | Some (VInt z) => Some (with_glob (setattr stats name (VInt (z + n)) (glob s)) s)
  | Some (VBool b) =>
      Some (with_glob (setattr stats name (VInt ((if b then 1 else 0) + n)) (glob s)) s)
  | Some (VFloat x) =>
      Some (with_glob (setattr stats name (VFloat (fadd x (Finite (inject_Z n)))) (glob s)) s)
  | _ => None
  end.

(** [.1 if source.peek() is None else 0]. *)
Definition recv_timeout (x : source) : Q :=
  match peek x with
  | None => (1 # 10)%Q
  | Some _ => 0%Q
  end.

(** [network.recv( conn, timeout=... )]. *)
Definition network_recv (stats : loc) (s : st) : received * st :=
  let timeout := recv_timeout (src s) in
  match inbox s with
  | [] => (Nothing, emit (EvRecv timeout (peek (src s)) Nothing) s)
  | a :: rest =>
      let g := if ctl_eof a then setattr stats "eof" (VBool true) (glob s) else glob s in
      (recv_result a,
       emit (EvRecv timeout (peek (src s)) (recv_result a))
         {| glob := g; src := src s; inbox := rest; send_errors := send_errors s;
            proc := proc s; eof := eof s; closed := closed s; trace := trace s;
            observed := observed s |})
  end.

(** [while msg is None and not stats.eof:] *)
Fixpoint refill (stats : loc) (fuel : nat) (s : st) : option (outcome unit) :=
  match fuel with
  | O => None
  | S fuel' =>
      match stats_eof stats s with
      | None => Some (Exc s)
      | Some true => Some (Ok tt s)
      | Some false =>
          match network_recv stats s with
          | (SocketError, s) => Some (Exc s)
          | (Bytes msg, s) =>
              match add_attr stats "received" (Z.of_nat (length msg)) s with
              | None => Some (Exc s)
              | Some s =>
                  match getattr (glob s) stats "eof" with
                  | None => Some (Exc s)
                  | Some e =>
                      let e' := if truthy (glob s) e then e
                                else VBool (Nat.eqb (length msg) 0) in
                      let s := with_glob (setattr stats "eof" e' (glob s)) s in
                      Some (Ok tt (with_src (chain msg (src s)) s))
                  end
              end
          | (Nothing, s) =>
              match peek (src s) with
              | Some _ => Some (Ok tt s)
              | None => refill stats fuel' s
              end
          end
      end
  end.

(** [for mch,sta in enip_mesg.run( path='request', source=source,
    data=data ):] *)
Fixpoint drive (stats : loc) (fuel : nat) (gen : pstate) (d : data) (s : st)
    : option (outcome data) :=
  match fuel with
  | O => None
  | S fuel' =>
      match run_next E gen (src s) d with
      | GenStop x d' => Some (Ok d' (with_src x s))
      | GenRaise x => Some (Exc (with_src x s))
      | GenYield waiting gen' x d' =>
          let s := with_src x s in
          if waiting then
            match refill stats fuel' s with
            | None => None
            | Some (Exc s) => Some (Exc s)
            | Some (Ok _ s) => drive stats fuel' gen' d' s
            end
          else drive stats fuel' gen' d' s
      end
  end.

(** [float( delay.value if hasattr( delay, 'value' ) else delay )]. *)
Definition delay_seconds (g : globals) (delay : value) : option pyfloat :=
  match delay with
  | VRef l =>
      match getattr g l "value" with
      | Some v => Delay.to_float (float_text E) v
      | None => None
      end
  | v => Delay.to_float (float_text E) v
  end.

(** [time.sleep( seconds )]: the seconds slept, or [None] when the call
    raises, as it does for a negative number, for NaN, for an infinity and
    for a number beyond the platform's limit. *)
Definition time_sleep (seconds : pyfloat) : option Q :=
  match seconds with
  | Finite q => if Qle_bool 0 q && sleep_ok E q then Some q else None
  | _ => None
  end.

(** [if delay: try: ...; time.sleep( seconds ) except Exception: ...]. *)
Definition delay_events (g : globals) (delay : option value) : list event :=
  match delay with
  | None => []
  | Some v =>
      if truthy g v then
        match delay_seconds g v ≫= time_sleep with
        | Some seconds => [EvSleep seconds]
        | None => [EvDelayInvalid]
        end
      else []
  end.

Definition emit_all (es : list event) (s : st) : st :=
  fold_left (λ s e, emit e s) es s.

(** [conn.send( rpy )] inside its [try]. *)
Definition conn_send (rpy : list byte) (s : st) : st :=
  match send_errors s with
  | true :: rest =>
      with_eof true
        (emit (EvSend rpy false)
           {| glob := glob s; src := src s; inbox := inbox s; send_errors := rest;
              proc := proc s; eof := eof s; closed := closed s; trace := trace s;
              observed := observed s |})
  | false :: rest =>
      emit (EvSend rpy true)
        {| glob := glob s; src := src s; inbox := inbox s; send_errors := rest;
           proc := proc s; eof := eof s; closed := closed s; trace := trace s;
           observed := observed s |}
  | [] => emit (EvSend rpy true) s
  end.

(** The handler of the inner [except:]: [enip_process( addr,
    data=cpppo.dotdict() )], then [raise]. *)
Definition terminate (process : procstate → address → data → bool → processed data procstate)
    (addr : address) (s : st) : st :=
  match process (proc s) addr (new_data E) false with
  | Proceed _ p => emit (EvProcess false (Some true)) (with_proc p s)
  | Ended _ p => emit (EvProcess false (Some false)) (with_proc p s)
  | Fails p => emit (EvProcess false None) (with_proc p s)
  end.

(** The inner [try:] with its [except:]: one request is processed and
    answered. *)
Definition respond (process : procstate → address → data → bool → processed data procstate)
    (addr : address) (delay : option value) (d : data) (s : st) : outcome unit :=
  match process (proc s) addr d true with
  | Fails p =>
      Exc (terminate process addr (emit (EvProcess (has_request E d) None) (with_proc p s)))
  | Ended d' p =>
      Ok tt (with_eof true (emit (EvProcess (has_request E d) (Some false)) (with_proc p s)))
  | Proceed d' p =>
      let s := emit (EvProcess (has_request E d) (Some true)) (with_proc p s) in
      if negb (has_response E d') then Exc (terminate process addr s)
      else if negb (has_enip_input E d') then Exc (terminate process addr s)
      else
        match enip_encode E d' with
        | None => Exc (terminate process addr s)
        | Some rpy =>
            let s := emit_all (delay_events (glob s) delay) s in
            Ok tt (conn_send rpy s)
        end
  end.

(** What follows the [for] loop in one turn of the handler loop:
    [stats.requests] is counted up and the request answered. *)
Definition answer (process : procstate → address → data → bool → processed data procstate)
    (stats : loc) (addr : address) (delay : option value) (d : data) (s : st)
    : outcome unit :=
  match (if has_request E d then add_attr stats "requests" 1 s else Some s) with
  | None => Exc s
  | Some s => respond process addr delay d s
  end.

(** One turn of the handler loop from a point of its [for] loop on: the
    generator [gen] is resumed until it stops, and the request answered. *)
Definition iteration (process : procstate → address → data → bool → processed data procstate)
    (stats : loc) (addr : address) (delay : option value) (fuel : nat)
    (gen : pstate) (d : data) (s : st) : option (outcome unit) :=
  match drive stats fuel gen d s with
  | None => None
  | Some (Exc s) => Some (Exc s)
  | Some (Ok d s) => Some (answer process stats addr delay d s)
  end.

(** The same from a refill boundary on, that is from the point where the
    generator has yielded [None] and the inner [while] is about to run. *)
Definition from_refill (process : procstate → address → data → bool → processed data procstate)
    (stats : loc) (addr : address) (delay : option value) (fuel : nat)
    (gen : pstate) (d : data) (s : st) : option (outcome unit) :=
  match refill stats fuel s with
  | None => None
  | Some (Exc s) => Some (Exc s)
  | Some (Ok _ s) => iteration process stats addr delay fuel gen d s
  end.

(** [while not stats.eof:] *)
Fixpoint serve (process : procstate → address → data → bool → processed data procstate)
    (stats : loc) (addr : address) (delay : option value) (fuel : nat) (s : st)
    : option (outcome unit) :=
  match fuel with
  | O => None
  | S fuel' =>
      match stats_eof stats s with
      | None => Some (Exc s)
      | Some true => Some (Ok tt s)
      | Some false =>
          let s := emit EvRun (with_src (forget (src s)) s) in
          match iteration process stats addr delay fuel' (run_start E) (new_data E) s with
          | None => None
          | Some (Exc s) => Some (Exc s)
          | Some (Ok _ s) => serve process stats addr delay fuel' s
          end
      end
  end.

(** [( "%s_%d" % addr ).replace( '.', '_' )]. *)
Definition connkey (addr : address) : string :=
  Str.replace "." "_" (fst addr +:+ "_" +:+ pretty (snd addr)).

(** The body of the outer [try:]. *)
Definition session (stats : loc) (addr : address) (delay : option value)
    (fuel : nat) (s : st) : option (outcome unit) :=
  match enip_process E with
  | None => Some (Exc s)        (* the assert *)
  | Some process =>
      match serve process stats addr delay fuel
              (with_glob (set_up stats addr (glob s)) s) with
      | None => None
      | Some (Exc s) => Some (Exc s)
      | Some (Ok _ s) =>
          Some (Ok tt (with_glob
            (setattr stats "processed" (VInt (Z.of_nat (sent (src s)))) (glob s)) s))
      end
  end.

(** The handler's [except:] clause (before it re-raises). *)
Definition on_exception (stats : loc) (s : st) : st :=
  let s := with_glob (setattr stats "processed" (VInt (Z.of_nat (sent (src s)))) (glob s)) s in
  with_src (drain (src s)) s.

(** The [finally:] clause; its log line reads three of the stats, and
    [conn.close()] comes after it. *)
Definition finally (stats : loc) (key : string) (s : st) : bool * st :=
  let s := with_glob (set_connections (delete key (connections (glob s))) (glob s)) s in
  match getattr (glob s) stats "requests", getattr (glob s) stats "processed",
        getattr (glob s) stats "received" with
  | Some _, Some _, Some _ =>
      (true,
       emit EvClose
         {| glob := glob s; src := src s; inbox := inbox s; send_errors := send_errors s;
            proc := proc s; eof := eof s; closed := true; trace := trace s;
            observed := observed s |})
  | _, _, _ => (false, s)
  end.

(** How [enip_srv] leaves. *)
Inductive exit := Returned | Raised.

(** The store once [connections[connkey] = stats] is done. *)
Definition register (addr : address) (g : globals) : loc * globals :=
  let '(stats, g) := alloc g in
  (stats, set_connections (<[connkey addr := VRef stats]> (connections g)) g).

Definition initial (g : globals) (arrivals : list arrival) (errors : list bool)
    (p : procstate) : st :=
  {| glob := g; src := rememberable; inbox := arrivals; send_errors := errors;
     proc := p; eof := None; closed := false; trace := [];
     observed := [] |}.

(** [enip_srv( conn, addr, enip_process, delay, **kwds )]; [None] when
    [fuel] steps are not enough to see it leave. *)
Definition enip_srv (addr : address) (delay : option value) (fuel : nat)
    (g : globals) (arrivals : list arrival) (errors : list bool) (p : procstate)
    : option (exit * st) :=
  let '(stats, g) := register addr g in
  let s := initial g arrivals errors p in
  match session stats addr delay fuel s with
  | None => None
  | Some (Ok _ s) =>
      let '(fine, s) := finally stats (connkey addr) s in
      Some (if fine then Returned else Raised, s)
  | Some (Exc s) =>
      let '(_, s) := finally stats (connkey addr) (on_exception stats s) in
      Some (Raised, s)
  end.

End Handler.

Arguments Ok {procstate A}.
Arguments Exc {procstate A}.
Arguments final {procstate A}.
Arguments grows {procstate}.

End Session.

(** ** Sample collaborators *)

Module Sample.
Import Session.

(** Modelled from the spec: the encapsulation header of section 6 (the
    codec [parser.enip_machine] / [parser.enip_encode] is not part of this
    file): command, length, session handle, status, sender context,
    options, all little-endian, then [length] bytes of payload. *)
Record frame := {
  command : N;
  session_handle : N;
  status : N;
  sender_context : list byte;
  frame_options : N;
  payload : list byte
}.

Fixpoint le_bytes (width : nat) (n : N) : list byte :=
  match width with
  | O => []
  | S w => default x00 (Byte.of_N (n mod 256)%N) :: le_bytes w (n / 256)%N
  end.

Fixpoint le_value (bs : list byte) : N :=
  match bs with
  | [] => 0%N
  | b :: rest => (Byte.to_N b + 256 * le_value rest)%N
  end.

Definition encode (f : frame) : list byte :=
  (le_bytes 2 (command f) ++ le_bytes 2 (N.of_nat (length (payload f)))
   ++ le_bytes 4 (session_handle f) ++ le_bytes 4 (status f)
   ++ take 8 (sender_context f ++ repeat x00 8) ++ le_bytes 4 (frame_options f)
   ++ payload f)%list.

(** The bytes are one whole frame: a header and the payload it announces. *)
Definition complete (bs : list byte) : bool :=
  (24 <=? length bs)%nat
  && (length bs =? 24 + N.to_nat (le_value (take 2 (drop 2 bs))))%nat.

Definition decode (bs : list byte) : option frame :=
  if complete bs then
    Some {| command := le_value (take 2 bs);
            session_handle := le_value (take 4 (drop 4 bs));
            status := le_value (take 4 (drop 8 bs));
            sender_context := take 8 (drop 12 bs);
            frame_options := le_value (take 4 (drop 20 bs));
            payload := drop 24 bs |}
  else None.

(** [data]: [data.request.enip] and [data.response.enip]. *)
Record message := {
  request : option frame;
  response : option frame
}.

(** Modelled from the spec: the incremental parser of section 4.B.  It
    consumes one byte per step; without input it yields "need more bytes"
    once, and resumed with still no input it stops on a clean boundary
    (nothing consumed, [data] left empty) and raises in mid-frame. *)
Record parser_state := {
  taken : list byte;
  stalled : bool
}.

Definition parser_next (gen : parser_state) (x : source) (d : message)
    : gen_step message parser_state :=
  if complete (taken gen) then
    GenStop x {| request := decode (taken gen); response := response d |}
  else
    match advance x with
    | Some (b, x') =>
        GenYield false {| taken := (taken gen ++ [b])%list; stalled := false |} x' d
    | None =>
        if stalled gen then
          match taken gen with
          | [] => GenStop x d
          | _ => GenRaise x
          end
        else GenYield true {| taken := taken gen; stalled := true |} x d
    end.

(** Modelled from the spec: the session commands of section 4.G.
    RegisterSession (0x0065) is answered with a new session handle,
    UnRegisterSession (0x0066) and the absence of a request end the
    session, any other command is answered with status 0x0001 (the CIP
    dispatch of SendRRData is not modelled).  The state is the last handle
    given out. *)
Definition session_process (last : N) (addr : address) (d : message) (kwds : bool)
    : processed message N :=
  match request d with
  | None => Ended d last
  | Some f =>
      if (command f =? 102)%N then Ended d last
      else if (command f =? 101)%N then
        Proceed {| request := request d;
                   response := Some {| command := command f;
                                       session_handle := (last + 1)%N;
                                       status := 0%N;
                                       sender_context := sender_context f;
                                       frame_options := frame_options f;
                                       payload := payload f |} |} (last + 1)%N
      else
        Proceed {| request := request d;
                   response := Some {| command := command f;
                                       session_handle := session_handle f;
                                       status := 1%N;
                                       sender_context := sender_context f;
                                       frame_options := frame_options f;
                                       payload := [] |} |} last
  end.

(** A sample of [time.sleep]'s limit: the seconds whose nanoseconds fit
    63 bits. *)
Definition sleeps (q : Q) : bool := Qle_bool q 9223372035.

Definition collaborators_with
    (process : option (N → address → message → bool → processed message N))
    : collaborators message parser_state N :=
  {| new_data := {| request := None; response := None |};
     has_request := λ d, bool_decide (is_Some (request d));
     has_response := λ d, bool_decide (is_Some (response d));
     has_enip_input := λ d, bool_decide (is_Some (response d));
     enip_encode := λ d, encode <$> response d;
     run_start := {| taken := []; stalled := false |};
     run_next := parser_next;
     enip_process := process;
     float_text := Delay.decimal;
     sleep_ok := sleeps |}.

Definition simulator : collaborators message parser_state N :=
  collaborators_with (Some session_process).

(** Requests of a client: RegisterSession and UnRegisterSession. *)
Definition register_session : list byte :=
  encode {| command := 101%N; session_handle := 0%N; status := 0%N;
            sender_context := repeat x00 8; frame_options := 0%N;
            payload := [x01; x00; x00; x00] |}.

Definition unregister_session (handle : N) : list byte :=
  encode {| command := 102%N; session_handle := handle; status := 0%N;
            sender_context := repeat x00 8; frame_options := 0%N; payload := [] |}.

Definition arrives (msg : list byte) : arrival :=
  {| ctl_eof := false; recv_result := Bytes msg |}.

Definition peer : address := ("10.0.0.7", 51234).

(** A run of [main] over two specifications. *)
Definition two_tags : globals :=
  match TagSpec.main_tags ["SCADA=INT[3]"; "B"] empty_globals with
  | inr g => g
  | inl _ => empty_globals
  end.

(** The store after [main] has read [--delay .1-.9]. *)
Definition ranged_delay : globals :=
  match Delay.configure_delay Delay.decimal ".1-.9" empty_globals with
  | Some (g, _) => g
  | None => empty_globals
  end.

(** The store after [main] has read [--delay 1-nan]. *)
Definition nan_delay : globals :=
  match Delay.configure_delay Delay.decimal "1-nan" empty_globals with
  | Some (g, _) => g
  | None => empty_globals
  end.

(** [GET /api/tags/SCADA/get]: a read. *)
Definition read_tags : Api.request :=
  {| Api.r_group := Some "tags"; Api.r_match := Some "SCADA";
     Api.r_command := Some "get"; Api.r_value := None;
     Api.r_queries := Some ∅; Api.r_environ := None; Api.r_accept := None |}.

(** [GET /api/tags/SCADA/get?command=error&value=30]: the path says [get],
    the query options say otherwise. *)
Definition write_by_query : Api.request :=
  {| Api.r_group := Some "tags"; Api.r_match := Some "SCADA";
     Api.r_command := Some "get"; Api.r_value := None;
     Api.r_queries := Some (<["command" := "error"]> (<["value" := "30"]> ∅));
     Api.r_environ := None; Api.r_accept := None |}.


(** The generator once it has asked for input with nothing consumed. *)
Definition waiting_parser : parser_state := {| taken := []; stalled := true |}.

(** A byte source that holds one unconsumed byte. *)
Definition one_byte : source := chain [x65] rememberable.


(** The reply to the [n]-th RegisterSession. *)
Definition registered (n : N) : list byte :=
  encode {| command := 101%N; session_handle := n; status := 0%N;
            sender_context := repeat x00 8; frame_options := 0%N;
            payload := [x01; x00; x00; x00] |}.

(** A delay object whose [value] is [x], in an otherwise empty store. *)
Definition delayed (x : pyfloat) : globals :=
  let '(l, g) := alloc empty_globals in
  setattr l "value" (VFloat x) (set_options (<["delay" := VRef l]> (options g)) g).

(** A client registers a session and closes the connection. *)
Definition short_run : option (exit * state N) :=
  enip_srv simulator peer None 400 empty_globals
    [arrives register_session; arrives []] [] 0%N.

(** A client registers, unregisters, and goes on to register again before
    it closes the connection. *)
Definition unregister_run : option (exit * state N) :=
  enip_srv simulator peer None 400 empty_globals
    [arrives register_session; arrives (unregister_session 1);
     arrives register_session; arrives []] [] 0%N.

(** The first reply cannot be sent (the socket raises); the client's next
    request arrives all the same. *)
Definition send_error_run : option (exit * state N) :=
  enip_srv simulator peer None 400 empty_globals
    [arrives register_session; arrives register_session; arrives []] [true] 0%N.


Definition end_of (run : option (exit * state N)) : state N :=
  match run with
  | Some (_, s) => s
  | None => initial empty_globals [] [] 0%N
  end.

Definition trace_of (run : option (exit * state N)) : option (list event) :=
  (λ r, trace (snd r)) <$> run.

(** The data once a RegisterSession has been parsed, and once it has
    been processed. *)
Definition register_request : message :=
  {| request := decode register_session; response := None |}.

Definition register_response : message :=
  match session_process 0%N peer register_request true with
  | Proceed d _ => d
  | _ => register_request
  end.

(** A handler about to answer, with a delay object whose [value] is half
    a second. *)
Definition about_to_answer : state N :=
  initial (delayed (1 # 2)%Q) [] [] 0%N.

(** Modelled from the spec: the incremental parser of the design notes
    (section 9), which answers "done" or "need more": it takes a frame
    from the byte source once all of it is buffered and consumes nothing
    before.  Its state is the number of bytes it saw buffered when it last
    asked for more; resumed with no more than that, it stops on a clean
    boundary and raises in mid-frame. *)
Definition framing_next (seen : option nat) (x : source) (d : message)
    : gen_step message (option nat) :=
  let header := take 24 (pending x) in
  let size := (24 + N.to_nat (le_value (take 2 (drop 2 header))))%nat in
  if (24 <=? length (pending x))%nat && (size <=? length (pending x))%nat then
    GenStop {| sent := (sent x + size)%nat;
               memory := (memory x ++ take size (pending x))%list;
               pending := drop size (pending x) |}
            {| request := decode (take size (pending x)); response := response d |}
  else if bool_decide (seen = Some (length (pending x))) then
    match pending x with
    | [] => GenStop x d
    | _ => GenRaise x
    end
  else GenYield true (Some (length (pending x))) x d.

Definition framing : collaborators message (option nat) N :=
  {| new_data := {| request := None; response := None |};
     has_request := λ d, bool_decide (is_Some (request d));
     has_response := λ d, bool_decide (is_Some (response d));
     has_enip_input := λ d, bool_decide (is_Some (response d));
     enip_encode := λ d, encode <$> response d;
     run_start := None;
     run_next := framing_next;
     enip_process := Some session_process;
     float_text := Delay.decimal;
     sleep_ok := sleeps |}.

(** A RegisterSession that arrives in two pieces. *)
Definition two_pieces_run : option (exit * state N) :=
  enip_srv framing peer None 50 empty_globals
    [arrives (take 10 register_session); arrives (drop 10 register_session);
     arrives []] [] 0%N.

(** A client sends ten bytes of a request and closes the connection. *)
Definition torn_run : option (exit * state N) :=
  enip_srv simulator peer None 400 empty_globals
    [arrives (take 10 register_session); arrives []] [] 0%N.

(** The socket fails while the handler waits for a request. *)
Definition reset_run : option (exit * state N) :=
  enip_srv simulator peer None 400 empty_globals
    [{| ctl_eof := false; recv_result := SocketError |}] [] 0%N.

Definition exit_of (run : option (exit * state N)) : option exit :=
  fst <$> run.

End Sample.

(** ** What a request of the web API may do to the store

    An attribute name with a dot in it is, for a [cpppo.dotdict], a path
    into nested objects.  The store of this model does not follow such
    paths: what is proved of a command is proved of one without a dot. *)

Module Effect.
Import Api.

(** The values whose type [api_request] knows how to convert text to. *)
Definition primitive (v : value) : bool :=
  match v with
  | VBool _ | VInt _ | VFloat _ | VStr _ => true
  | _ => false
  end.

(** [type( a ) is type( b )], for two such values. *)
Definition same_kind (a b : value) : bool :=
  match a, b with
  | VBool _, VBool _ | VInt _, VInt _ | VFloat _, VFloat _ | VStr _, VStr _ => true
  | _, _ => false
  end.

(** What stays when a command is executed: the three globals and the set
    of objects, the set of attributes of every object, every attribute
    that the command does not name, and the type of every attribute of a
    primitive type. *)
Definition retains (cmd : option string) (g g' : globals) : Prop :=
  options g' = options g ∧ connections g' = connections g ∧ tags g' = tags g ∧
  next_loc g' = next_loc g ∧
  (∀ l, is_Some (heap g' !! l) ↔ is_Some (heap g !! l)) ∧
  (∀ l k, is_Some (getattr g' l k) ↔ is_Some (getattr g l k)) ∧
  (∀ l k, cmd ≠ Some k → getattr g' l k = getattr g l k) ∧
  (∀ l k cur, getattr g l k = Some cur → primitive cur = true →
     ∃ x, getattr g' l k = Some x ∧ same_kind cur x = true).

(** No object of the store has a method [_events]. *)
Definition no_events (g : globals) : Prop :=
  map_Forall (λ _ (d : dotdict), d !! "_events" = None) (heap g).

End Effect.

(** ** What the handler keeps count of *)

Module Account.
Import Session.

(** The bytes that a run of socket reads delivered. *)
Fixpoint delivered (arrivals : list arrival) : Z :=
  match arrivals with
  | [] => 0
  | a :: rest =>
      match recv_result a with
      | Bytes msg => Z.of_nat (length msg)
      | _ => 0
      end + delivered rest
  end.

Definition is_send (e : event) : bool :=
  match e with EvSend _ _ => true | _ => false end.

Definition is_run (e : event) : bool :=
  match e with EvRun => true | _ => false end.

(** The processor returned a true value. *)
Definition is_go (e : event) : bool :=
  match e with EvProcess _ (Some true) => true | _ => false end.

(** The processor is called with a request that was parsed. *)
Definition is_request (e : event) : bool :=
  match e with EvProcess true _ => true | _ => false end.

Definition count (p : event → bool) (evs : list event) : nat :=
  length (List.filter p evs).

(** Events among which there is no reply, no start of a parse and no
    call of the processor that returned a true value. *)
Definition silent (evs : list event) : Prop :=
  count is_send evs = 0%nat ∧ count is_run evs = 0%nat ∧ count is_go evs = 0%nat.

(** The events of one answer. *)
Definition one_answer (evs : list event) : Prop :=
  count is_run evs = 0%nat ∧ (count is_send evs ≤ 1)%nat ∧
  (count is_send evs ≤ count is_go evs)%nat.

(** No more replies than parses, and no more than calls of the processor
    that returned a true value. *)
Definition paced (evs : list event) : Prop :=
  (count is_send evs ≤ count is_run evs)%nat ∧
  (count is_send evs ≤ count is_go evs)%nat.

(** What a piece of the handler does between the states [s] and [s']:
    no attribute of any object goes away; the arrivals it takes from the
    inbox are counted in [stats.received]; the socket is not closed; and
    the trace grows by events of the kind [P]. *)
Definition accounted {procstate : Type} (stats : loc) (P : list event → Prop)
    (s s' : state procstate) : Prop :=
  (∀ l k, is_Some (getattr (glob s) l k) → is_Some (getattr (glob s') l k)) ∧
  (∃ used, inbox s = (used ++ inbox s')%list ∧
     ∀ z, getattr (glob s) stats "received" = Some (VInt z) →
          getattr (glob s') stats "received" = Some (VInt (z + delivered used))) ∧
  closed s' = closed s ∧
  ∃ evs, trace s' = (trace s ++ evs)%list ∧ P evs.

(** The calls of the processor with a request between [s] and [s'] are
    counted in [stats.requests]. *)
Definition tallied {procstate : Type} (stats : loc) (s s' : state procstate) : Prop :=
  ∃ evs, trace s' = (trace s ++ evs)%list ∧
    ∀ z, getattr (glob s) stats "requests" = Some (VInt z) →
         getattr (glob s') stats "requests"
         = Some (VInt (z + Z.of_nat (count is_request evs))).

End Account.

(** ** [main]: the addresses to bind to *)

Module Main.

(** [address], the default [cpppo.enip.address]. *)
Definition address : Session.address := ("0.0.0.0", 44818).

(** Why [main] gives up on [--address] or [--web]: the [AssertionError]
    of the length test, or the [ValueError] of [int]. *)
Inductive address_error :=
| InvalidAddress
| InvalidPort.

(** [x = text.split(':')], the [assert 1 <= len( x ) <= 2] and the pair
    [( str( x[0] ) if x[0] else default[0], int( x[1] ) if len( x ) > 1
    and x[1] else default[1] )]. *)
Definition parse_address (default : Session.address) (text : string)
    : address_error + Session.address :=
  match Str.split ":" text with
  | [iface] =>
      inr (if Str.is_empty iface then fst default else iface, snd default)
  | [iface; port] =>
      if Str.is_empty port
      then inr (if Str.is_empty iface then fst default else iface, snd default)
      else
        match Str.py_int port with
        | Some p => inr (if Str.is_empty iface then fst default else iface, p)
        | None => inl InvalidPort
        end
  | _ => inl InvalidAddress
  end.

(** ["%s:%d" % address], the default of [--address]. *)
Definition format_address (a : Session.address) : string :=
  fst a +:+ ":" +:+ pretty (snd a).

(** [bind], from [args.address]. *)
Definition bind (text : string) : address_error + Session.address :=
  parse_address address text.

(** [http], from [args.web]: the interface defaults to the one of [bind],
    the port to 80. *)
Definition http (bound : Session.address) (web : string)
    : address_error + Session.address :=
  parse_address (fst bound, 80) web.

End Main.

(** ** The web API: [api.GET] and the end of [api_request] *)

Module Web.
Import Api.

(** [a[:-5]] when [a.endswith( ".json" )]. *)
Fixpoint strip_json (a : string) : option string :=
  match a with
  | EmptyString => None
  | String c a' =>
      if String.eqb a ".json" then Some EmptyString else String c <$> strip_json a'
  end.

(** [clean( a )] in [api.GET]: the cleaned argument, and whether
    [clean.accept] was set. *)
Definition clean (a : option string) : option string * bool :=
  match a with
  | Some s =>
      if Str.is_empty s then (None, false)
      else
        let s := if Str.startswith "/" s then drop 1 s else s in
        match strip_json s with
        | Some s' => (Some s', true)
        | None => (Some s, false)
        end
  | None => (None, false)
  end.

(** The arguments that [api.GET] calls [api_request] with; [None] when
    [args] are not four. *)
Definition GET_request (args : list (option string)) (queries environ : gmap string string)
    : option request :=
  match args with
  | [a1; a2; a3; a4] =>
      let '(group, j1) := clean a1 in
      let '(mtch, j2) := clean a2 in
      let '(cmd, j3) := clean a3 in
      let '(value, j4) := clean a4 in
      Some {| r_group := group; r_match := mtch;
              r_command := match cmd with
                           | Some c => if Str.is_empty c then Some "get" else Some c
                           | None => Some "get"
                           end;
              r_value := value;
              r_queries := Some queries; r_environ := Some environ;
              r_accept := if j1 || j2 || j3 || j4 then Some "application/json" else None |}
  | _ => None
  end.

(** [api.GET( *args )] up to the end of the loops of [api_request]. *)
Definition GET (B : builtins) (args : list (option string))
    (queries environ : gmap string string) (g : globals) : globals * option content :=
  match GET_request args queries environ with
  | Some rq => api_request B rq g
  | None => (g, None)
  end.

(** [a in s] for texts. *)
Fixpoint is_infix (a s : string) : bool :=
  String.prefix a s ||
  match s with
  | String _ s' => is_infix a s'
  | EmptyString => false
  end.

(** How [api_request] ends once [json.dumps] has returned: it returns the
    JSON text with its content type, goes on to wrap it in an HTML page,
    raises the [406] of [http_exception], or raises a [TypeError]. *)
Inductive ending :=
| Returns (content_type : string)
| HtmlPage
| NotAcceptable
| RaisesTypeError.

(** [if accept in ("text/html"): ... elif accept and accept not in (...):
    raise ...; return accept, response].  The parentheses around
    ["text/html"] make no tuple: the test is [in] on a text, which raises
    for [None]. *)
Definition ending_for (accept : option string) : ending :=
  match accept with
  | None => RaisesTypeError
  | Some a =>
      if is_infix a "text/html" then HtmlPage
      else if negb (Str.is_empty a)
              && negb (string_in a ["application/json"; "text/javascript"; "text/plain"])
      then NotAcceptable
      else Returns a
  end.

(** [del queries[key]], done when [key in queries and queries[key]]. *)
Definition consume (key : string) (queries : gmap string string) : gmap string string :=
  match queries !! key with
  | Some v => if Str.is_empty v then queries else delete key queries
  | None => queries
  end.

(** The query options that are left when the loops begin. *)
Definition leftover (queries : gmap string string) : gmap string string :=
  consume "since" (consume "value" (consume "command" (consume "match"
    (consume "group" queries)))).

(** How the [text/html] branch ends: with the page, with the
    [ValueError] of [for query, value in iterable], or with the
    [TypeError] of ['/'.join( ["api", group, match, command] )]. *)
Inductive page :=
| Page
| RaisesValueError
| RaisesTypeErrorInTitle.

(** The [text/html] branch.  Its first [iterable] is [queries] itself:
    iterating a dictionary gives its keys, and a key is unpacked into
    [query] and [value] when it has exactly two characters.  [command] is
    the command that is executed. *)
Definition html_page (queries : gmap string string) (command : option string) : page :=
  if forallb (λ key, Nat.eqb (String.length key) 2)
       (map fst (map_to_list (leftover queries)))
  then match command with
       | Some _ => Page
       | None => RaisesTypeErrorInTitle
       end
  else RaisesValueError.

End Web.

(** ** Further sample inputs *)

Module Cases.
Import Api Session.


(** [GET /api/tags/SCADA/get?command=error&value=30&since=1.5]. *)
Definition write_since : request :=
  {| r_group := Some "tags"; r_match := Some "SCADA";
     r_command := Some "get"; r_value := None;
     r_queries :=
       Some (<["command" := "error"]> (<["value" := "30"]> (<["since" := "1.5"]> ∅)));
     r_environ := None; r_accept := None |}.


(** [GET /api/options/delay/value/2.5?since=0]. *)
Definition slow_down : request :=
  {| r_group := Some "options"; r_match := Some "delay";
     r_command := Some "value"; r_value := Some "2.5";
     r_queries := Some (<["since" := "0"]> ∅); r_environ := None; r_accept := None |}.

(** A run of [main] in which the name [A] is specified twice. *)
Definition redefined : globals :=
  match TagSpec.main_tags ["A=SINT"; "A=DINT[4]"; "B"] empty_globals with
  | inr g => g
  | inl _ => empty_globals
  end.

(** The same session when the peer has closed the connection. *)
Definition hung_up : state N :=
  let '(stats, g) := register Sample.peer empty_globals in
  initial (set_up stats Sample.peer g) [Sample.arrives []] [] 0%N.

(** What [api.GET] asks for [/api/tags.json/SCADA]. *)
Definition tags_as_json : request :=
  {| r_group := Some "tags"; r_match := Some "SCADA";
     r_command := Some "get"; r_value := None;
     r_queries := Some ∅; r_environ := Some (<["HTTP_ACCEPT" := "text/html"]> ∅);
     r_accept := Some "application/json" |}.

(** Another peer on the same host. *)
Definition neighbour : address := ("10.0.0.7", 51235).

(** A session of [neighbour] while [Sample.peer] has its entry in
    [connections]: it registers a session and closes the connection. *)
Definition neighbour_run : option (exit * state N) :=
  enip_srv Sample.simulator neighbour None 400
    (snd (register Sample.peer empty_globals))
    [Sample.arrives Sample.register_session; Sample.arrives []] [] 0%N.

(** [GET /api/options/delay/range/2-4?since=0]. *)
Definition new_range : request :=
  {| r_group := Some "options"; r_match := Some "delay";
     r_command := Some "range"; r_value := Some "2-4";
     r_queries := Some (<["since" := "0"]> ∅); r_environ := None; r_accept := None |}.

End Cases.

(** * Properties *)

(** ** Strings *)

Module StrFacts.
Import Str.

Lemma contains_append c a b :
  contains c (a +:+ b) = contains c a || contains c b.
Proof.
  induction a as [|x a IH]; simpl; [done|].
  rewrite IH. by rewrite orb_assoc.
Qed.

Lemma partition_None c s : partition c s = None ↔ contains c s = false.
Proof.
  induction s as [|a s IH]; simpl; [done|].
  destruct (Ascii.eqb a c); simpl; [done|].
  destruct (partition c s) as [[l r]|]; [|tauto].
  split; [done|]. intros H. by apply IH in H.
Qed.

Lemma partition_Some c s l r :
  partition c s = Some (l, r) → s = l +:+ String c r ∧ contains c l = false.
Proof.
  revert l. induction s as [|a s IH]; intros l; simpl; [done|].
  destruct (Ascii.eqb a c) eqn:Hac.
  - intros [= <- <-]. apply Ascii.eqb_eq in Hac as ->. done.
  - destruct (partition c s) as [[l' r']|]; [|done].
    intros [= <- <-]. destruct (IH l' eq_refl) as [-> Hl].
    simpl. by rewrite Hac.
Qed.

Lemma partition_append c l r :
  contains c l = false → partition c (l +:+ String c r) = Some (l, r).
Proof.
  induction l as [|a l IH]; simpl.
  - by rewrite Ascii.eqb_refl.
  - intros [Hac Hl]%orb_false_iff. rewrite Hac, (IH Hl). done.
Qed.

Lemma is_empty_true s : is_empty s = true ↔ s = EmptyString.
Proof. by destruct s. Qed.

Lemma upper_char_bracket a : Ascii.eqb (upper_char a) "[" = Ascii.eqb a "[".
Proof. destruct a as [[] [] [] [] [] [] [] []]; reflexivity. Qed.

Lemma contains_upper_bracket s : contains "[" (upper s) = contains "[" s.
Proof.
  induction s as [|a s IH]; simpl; [done|].
  by rewrite upper_char_bracket, IH.
Qed.

Lemma space_differs a c : is_space a = true → is_space c = false → Ascii.eqb a c = false.
Proof.
  intros Ha Hc. destruct (Ascii.eqb a c) eqn:E; [|done].
  apply Ascii.eqb_eq in E. congruence.
Qed.

Lemma contains_lstrip c s : is_space c = false → contains c (lstrip s) = contains c s.
Proof.
  intros Hc. induction s as [|a s IH]; simpl; [done|].
  destruct (is_space a) eqn:Ha; [|done].
  by rewrite IH, (space_differs a c Ha Hc).
Qed.

Lemma contains_rstrip c s : is_space c = false → contains c (rstrip s) = contains c s.
Proof.
  intros Hc. induction s as [|a s IH]; simpl; [done|].
  destruct (rstrip s) as [|b r] eqn:Hr.
  - simpl in IH. rewrite <- IH. destruct (is_space a) eqn:Ha; simpl.
    + by rewrite (space_differs a c Ha Hc).
    + done.
  - simpl. simpl in IH. by rewrite IH.
Qed.

Lemma contains_strip c s : is_space c = false → contains c (strip s) = contains c s.
Proof.
  intros Hc. unfold strip. by rewrite contains_rstrip, contains_lstrip.
Qed.

Lemma grouped_contains c acc after s n :
  is_digit c = false → Ascii.eqb c "_" = false →
  grouped acc after s = Some n → contains c s = false.
Proof.
  intros Hc Hu. revert acc after.
  induction s as [|a s IH]; intros acc after; simpl; [done|].
  destruct (is_digit a) eqn:Ha.
  - intros H. rewrite (IH _ _ H).
    destruct (Ascii.eqb a c) eqn:E; [|done].
    apply Ascii.eqb_eq in E. congruence.
  - destruct (Ascii.eqb a "_") eqn:Hau; [|done].
    destruct after; [|done]. cbn [andb].
    intros H. rewrite (IH _ _ H).
    apply Ascii.eqb_eq in Hau as ->.
    by rewrite Ascii.eqb_sym, Hu.
Qed.

(** A run of digits reads the same with and without the underscores
    being looked for. *)
Lemma digits_grouped s : ∀ acc after n,
  digits acc s = Some n → after = true ∨ s ≠ EmptyString →
  grouped acc after s = Some n.
Proof.
  induction s as [|a s IH]; intros acc after n; simpl.
  - intros [= <-] [-> | ?]; done.
  - destruct (is_digit a); [|done]. intros H _. apply IH; [done | by left].
Qed.

Lemma unsigned_contains c s n :
  is_digit c = false → Ascii.eqb c "_" = false →
  unsigned s = Some n → contains c s = false.
Proof. apply grouped_contains. Qed.

(** Text [int] accepts holds no closing bracket. *)
Lemma py_int_no_bracket s n : py_int s = Some n → contains "]" s = false.
Proof.
  unfold py_int. intros H.
  rewrite <- (contains_strip "]" s) by reflexivity.
  destruct (strip s) as [|a r]; [done|].
  assert (∀ m, unsigned r = Some m → contains "]" r = false) as Hr
    by (intros m; by apply unsigned_contains).
  assert (∀ m, unsigned (String a r) = Some m → contains "]" (String a r) = false) as Har
    by (intros m; by apply unsigned_contains).
  destruct a as [[] [] [] [] [] [] [] []];
    try (by eapply Har);
    simpl; (destruct (unsigned r) eqn:Hu; [by eapply Hr | done]).
Qed.

End StrFacts.

(** ** Tag specifications *)

Module TagFacts.
Import Str StrFacts TagSpec.

Lemma typenames_Some s T :
  typenames s = Some T → s = "INT" ∨ s = "DINT" ∨ s = "SINT".
Proof.
  unfold typenames.
  destruct (String.eqb s "INT") eqn:E1; [apply String.eqb_eq in E1; auto|].
  destruct (String.eqb s "DINT") eqn:E2; [apply String.eqb_eq in E2; auto|].
  destruct (String.eqb s "SINT") eqn:E3; [apply String.eqb_eq in E3; auto|].
  done.
Qed.

Lemma typenames_no_bracket ty T :
  typenames (upper ty) = Some T → contains "[" ty = false.
Proof.
  intros H. rewrite <- contains_upper_bracket.
  destruct (typenames_Some _ _ H) as [-> | [-> | ->]]; reflexivity.
Qed.

Lemma typenames_nonempty ty T :
  typenames (upper ty) = Some T → is_empty ty = false.
Proof. by destruct ty. Qed.

Lemma parse_tag_accepted t name T n :
  parse_tag t = inr (name, T, n) → accepted t name T n.
Proof.
  unfold parse_tag.
  destruct (contains "=" t) eqn:Heq.
  - destruct (partition "=" t) as [[nm r]|] eqn:Hp;
      [|apply partition_None in Hp; congruence].
    apply partition_Some in Hp as [-> Hnm].
    destruct r as [|a r].
    + simpl. intros [= <- <- <-]. by apply accepted_empty.
    + cbn [is_empty].
      destruct (contains "[" (String a r)) eqn:Hb.
      * destruct (partition "[" (String a r)) as [[ty rest]|] eqn:Hq;
          [|apply partition_None in Hq; congruence].
        apply partition_Some in Hq as [Hr Hty]. rewrite Hr.
        destruct (partition "]" rest) as [[sz rest']|] eqn:Hs; [|done].
        apply partition_Some in Hs as [-> Hsz].
        destruct rest' as [|? ?]; [|done]. cbn [is_empty negb].
        destruct (typenames (upper ty)) as [T'|] eqn:HT; [|done].
        destruct (py_int sz) as [m|] eqn:Hm; [|done].
        intros [= <- <- <-]. by apply accepted_size.
      * cbn [is_empty negb].
        destruct (typenames (upper (String a r))) as [T'|] eqn:HT; [|done].
        intros [= <- <- <-]. by apply accepted_type.
  - simpl. intros [= <- <- <-]. by apply accepted_name.
Qed.

Ltac join_chars :=
  repeat match goal with
  | |- context [String.append (String ?a EmptyString) ?r] =>
      change (String.append (String a EmptyString) r) with (String a r)
  end.

Lemma accepted_parse_tag t name T n :
  accepted t name T n → parse_tag t = inr (name, T, n).
Proof.
  intros H. unfold parse_tag. destruct H as
    [name Hn | name Hn | name ty T Hn HT | name ty sz T n Hn HT Hsz];
    join_chars.
  - by rewrite Hn.
  - rewrite contains_append, Hn, (partition_append "=" name "" Hn). done.
  - rewrite contains_append, Hn, (partition_append "=" name ty Hn).
    cbn [contains Ascii.eqb Bool.eqb orb].
    rewrite (typenames_nonempty _ _ HT), (typenames_no_bracket _ _ HT).
    cbn [is_empty negb]. by rewrite HT.
  - rewrite contains_append, Hn, (partition_append "=" name _ Hn).
    cbn [contains Ascii.eqb Bool.eqb orb].
    assert (is_empty (ty +:+ String "[" (sz +:+ "]")) = false) as -> by (by destruct ty).
    rewrite contains_append. cbn [contains Ascii.eqb Bool.eqb orb].
    rewrite orb_true_r.
    rewrite (partition_append "[" ty _ (typenames_no_bracket _ _ HT)).
    rewrite (partition_append "]" sz "" (py_int_no_bracket _ _ Hsz)).
    cbn [is_empty negb]. by rewrite HT, Hsz.
Qed.

(** Sizes as [int] reads them: white space around, underscores between
    digits. *)
Lemma size_as_int_reads_it :
  parse_tag "A=INT[1_0]" = inr ("A", INT, 10) ∧
  parse_tag "A=INT[ +7 ]" = inr ("A", INT, 7) ∧
  parse_tag "A=INT[1__0]" = inl InvalidSize ∧
  parse_tag "A=INT[_1]" = inl InvalidSize ∧
  parse_tag "A=INT[1.0]" = inl InvalidSize ∧
  parse_tag "A=INT[]" = inl InvalidSize.
Proof. split_and!; reflexivity. Qed.

Lemma tag_loop_accepts ts g :
  (∃ g', tag_loop ts g = inr g') ↔
  Forall (λ t, ∃ name T n, parse_tag t = inr (name, T, n)) ts.
Proof.
  revert g. induction ts as [|t ts IH]; intros g; simpl.
  - split; [constructor | eauto].
  - destruct (parse_tag t) as [e | [[name T] n]] eqn:Hp.
    + split; [by intros [? ?] | ].
      intros H. inversion H as [|? ? (? & ? & ? & ?) ?]; congruence.
    + rewrite IH. split.
      * intros H. constructor; eauto.
      * intros H. by inversion H.
Qed.

End TagFacts.

(** C7, as the code has it.  [main] accepts a specification exactly when it
    is a name, a name followed by [=], a name with a type, or a name with a
    type and a bracketed size, where the type is one of SINT, INT and DINT
    in any letter case and the size is any text [int] accepts; the type
    defaults to INT and the size to 1.  No bound is put on the size.  Every
    other specification, and an empty list of them, is refused. *)
Theorem tag_specifications_accepted :
  (∀ t name T n,
     TagSpec.parse_tag t = inr (name, T, n) ↔ TagSpec.accepted t name T n) ∧
  (∀ ts g,
     (∃ g', TagSpec.main_tags ts g = inr g') ↔
     ts ≠ [] ∧ Forall (λ t, ∃ name T n, TagSpec.accepted t name T n) ts).
Proof.
  split.
  - intros t name T n. split.
    + apply TagFacts.parse_tag_accepted.
    + apply TagFacts.accepted_parse_tag.
  - intros ts g.
    assert (Forall (λ t, ∃ name T n, TagSpec.parse_tag t = inr (name, T, n)) ts ↔
            Forall (λ t, ∃ name T n, TagSpec.accepted t name T n) ts) as Hall.
    { apply Forall_iff. intros t. split; intros (name & T & n & H);
        exists name, T, n.
      - by apply TagFacts.parse_tag_accepted.
      - by apply TagFacts.accepted_parse_tag. }
    destruct ts as [|t ts].
    + simpl. split; [by intros [? ?] | by intros [? _]].
    + change (TagSpec.main_tags (t :: ts) g) with (TagSpec.tag_loop (t :: ts) g).
      rewrite TagFacts.tag_loop_accepts, Hall. split; [by split | by intros [_ ?]].
Qed.

(** C7, the claim as stated, fails: a size below one lies outside the
    grammar SIZE >= 1, yet such specifications are accepted, and so is a
    type in lower case. *)
Lemma size_below_one_is_accepted :
  TagSpec.parse_tag "A=INT[0]" = inr ("A", INT, 0) ∧
  TagSpec.parse_tag "A=INT[-3]" = inr ("A", INT, -3) ∧
  TagSpec.parse_tag "a=dint[2]" = inr ("a", DINT, 2) ∧
  (∃ g', TagSpec.main_tags ["A=INT[0]"] empty_globals = inr g') ∧
  0 < 1 ∧ -3 < 1.
Proof.
  repeat split; try reflexivity; try lia.
  eexists. reflexivity.
Qed.

(** ** Created tags *)

Module CreateFacts.
Import TagSpec.

Lemma create_tag_next name T n g :
  next_loc (create_tag name T n g) = S (next_loc g).
Proof. reflexivity. Qed.

Lemma create_tag_tags name T n g :
  tags (create_tag name T n g) = <[name := VRef (next_loc g)]> (tags g).
Proof. reflexivity. Qed.

Lemma create_tag_heap name T n g :
  heap (create_tag name T n g) = <[next_loc g := tag_entry name T n]> (heap g).
Proof.
  unfold create_tag, alloc, setattr, set_tags, set_heap. cbn [heap next_loc].
  by rewrite !alter_insert_eq.
Qed.

Lemma default_for_zero n :
  (n = 1 → default_for n = Scalar 0) ∧
  (n ≠ 1 → default_for n = Array (repeat 0 (Z.to_nat n)) ∧
           length (repeat 0 (Z.to_nat n)) = Z.to_nat n ∧
           Forall (λ z, z = 0) (repeat 0 (Z.to_nat n))).
Proof.
  unfold default_for. split.
  - by intros ->.
  - intros Hn. destruct (Z.eqb_spec n 1) as [|_]; [done|].
    split; [done|]. split; [apply repeat_length|].
    apply Forall_forall. intros z Hz%list_elem_of_In. by apply repeat_spec in Hz.
Qed.

Lemma tag_loop_created ts : ∀ g g',
  tag_loop ts g = inr g' →
  (next_loc g ≤ next_loc g')%nat ∧
  (∀ l, (l < next_loc g)%nat → heap g' !! l = heap g !! l) ∧
  (∀ name, existsb (names name) ts = false → tags g' !! name = tags g !! name) ∧
  (∀ name, existsb (names name) ts = true →
     ∃ T n l t, t ∈ ts ∧ parse_tag t = inr (name, T, n) ∧
       tags g' !! name = Some (VRef l) ∧
       heap g' !! l = Some (tag_entry name T n)).
Proof.
  induction ts as [|t ts IH]; intros g g'; simpl.
  - intros [= <-]. split_and!; [lia | done | done | done].
  - destruct (parse_tag t) as [e | [[name0 T0] n0]] eqn:Hp; [done|].
    intros Hloop. destruct (IH _ _ Hloop) as (Hnext & Hheap & Hother & Hmade).
    rewrite create_tag_next in Hnext.
    assert (∀ l, (l < next_loc g)%nat → heap g' !! l = heap g !! l) as Hold.
    { intros l Hl. rewrite Hheap by (rewrite create_tag_next; lia).
      rewrite create_tag_heap, lookup_insert_ne by lia. done. }
    split_and!; [lia | done | |].
    + intros name [Hn0 Hrest]%orb_false_iff.
      rewrite (Hother name Hrest), create_tag_tags.
      unfold names in Hn0. rewrite Hp in Hn0.
      apply String.eqb_neq in Hn0. by rewrite lookup_insert_ne.
    + intros name Hex. destruct (existsb (names name) ts) eqn:Hrest.
      * destruct (Hmade name Hrest) as (T & n & l & t' & Hin & Ht' & Htag & Hobj).
        exists T, n, l, t'. split; [by right | done].
      * rewrite orb_false_r in Hex. unfold names in Hex. rewrite Hp in Hex.
        apply String.eqb_eq in Hex as ->.
        exists T0, n0, (next_loc g), t. split; [by left|]. split; [done|]. split.
        -- by rewrite (Hother name Hrest), create_tag_tags, lookup_insert_eq.
        -- rewrite Hheap by (rewrite create_tag_next; lia).
           by rewrite create_tag_heap, lookup_insert_eq.
Qed.

Lemma names_elem name T n t ts :
  t ∈ ts → parse_tag t = inr (name, T, n) → existsb (names name) ts = true.
Proof.
  intros Hin Hp. apply existsb_exists. exists t. split.
  - by apply list_elem_of_In.
  - unfold names. rewrite Hp. apply String.eqb_refl.
Qed.

End CreateFacts.

(** C10.  Once [main] has gone through its specifications, every tag that
    one of them names is in [tags], with the error code 0 and an attribute
    whose default is zero: the number 0 when the size (that of a
    specification of that name) is 1, and otherwise a list of zeros as long
    as the size. *)
Theorem created_tags_start_at_zero ts g g' t name T n :
  TagSpec.main_tags ts g = inr g' →
  t ∈ ts →
  TagSpec.parse_tag t = inr (name, T, n) →
  ∃ T' n' l default,
    (∃ t', t' ∈ ts ∧ TagSpec.parse_tag t' = inr (name, T', n')) ∧
    tags g' !! name = Some (VRef l) ∧
    getattr g' l "error" = Some (VInt 0) ∧
    getattr g' l "attribute" =
      Some (VAttr {| attr_name := name; attr_type := T'; attr_default := default |}) ∧
    (n' = 1 → default = Scalar 0) ∧
    (n' ≠ 1 → ∃ zs, default = Array zs ∧ length zs = Z.to_nat n' ∧
                     Forall (λ z, z = 0) zs).
Proof.
  intros Hmain Hin Hp.
  assert (TagSpec.tag_loop ts g = inr g') as Hloop by (by destruct ts).
  destruct (CreateFacts.tag_loop_created ts g g' Hloop) as (_ & _ & _ & Hmade).
  destruct (Hmade name (CreateFacts.names_elem _ _ _ _ _ Hin Hp))
    as (T' & n' & l & t' & Hin' & Hp' & Htag & Hobj).
  exists T', n', l, (TagSpec.default_for n').
  split; [by exists t'|]. split; [done|].
  unfold getattr. rewrite Hobj. cbn [mbind option_bind].
  split; [reflexivity|]. split; [reflexivity|].
  destruct (CreateFacts.default_for_zero n') as [H1 Hn]. split; [done|].
  intros Hne. destruct (Hn Hne) as (Hd & Hlen & Hz). by exists (repeat 0 (Z.to_nat n')).
Qed.

Lemma created_tags_start_at_zero_witness :
  ∃ T' n' l default,
    (∃ t', t' ∈ ["SCADA=INT[3]"; "B"] ∧ TagSpec.parse_tag t' = inr ("SCADA", T', n')) ∧
    tags Sample.two_tags !! "SCADA" = Some (VRef l) ∧
    getattr Sample.two_tags l "error" = Some (VInt 0) ∧
    getattr Sample.two_tags l "attribute" =
      Some (VAttr {| attr_name := "SCADA"; attr_type := T'; attr_default := default |}) ∧
    (n' = 1 → default = Scalar 0) ∧
    (n' ≠ 1 → ∃ zs, default = Array zs ∧ length zs = Z.to_nat n' ∧
                     Forall (λ z, z = 0) zs).
Proof.
  apply (created_tags_start_at_zero ["SCADA=INT[3]"; "B"] empty_globals
           Sample.two_tags "SCADA=INT[3]" "SCADA" INT 3).
  - vm_compute. reflexivity.
  - left.
  - reflexivity.
Defined.

(** ** The shared store *)

Module StoreFacts.

Lemma getattr_setattr_eq l k v g :
  is_Some (heap g !! l) → getattr (setattr l k v g) l k = Some v.
Proof.
  intros [d Hd]. unfold getattr, setattr, set_heap. cbn [heap].
  rewrite lookup_alter_eq, Hd. cbn. by rewrite lookup_insert_eq.
Qed.

Lemma getattr_setattr_ne l k v g l' k' :
  l ≠ l' ∨ k ≠ k' → getattr (setattr l k v g) l' k' = getattr g l' k'.
Proof.
  intros Hne. unfold getattr, setattr, set_heap. cbn [heap].
  destruct (decide (l = l')) as [<- | Hl].
  - rewrite lookup_alter_eq. destruct (heap g !! l) as [d|]; cbn; [|done].
    destruct Hne as [? | Hk]; [done|]. by rewrite lookup_insert_ne.
  - by rewrite lookup_alter_ne.
Qed.

Lemma getattr_is_Some g l k v : getattr g l k = Some v → is_Some (heap g !! l).
Proof. unfold getattr. destruct (heap g !! l); [eauto | done]. Qed.

End StoreFacts.

(** ** The delay mutator *)

Module DelayFacts.
Import Delay StoreFacts.

Lemma uniform_finite (lo hi r : Q) :
  uniform lo hi r = Finite (lo + (hi - lo) * r)%Q.
Proof. reflexivity. Qed.

Lemma uniform_nan lo hi r : lo = NaN ∨ hi = NaN → uniform lo hi r = NaN.
Proof. intros [-> | ->]; [by destruct hi | by destruct lo]. Qed.

(** The draw is a finite number only between finite bounds. *)
Lemma uniform_finite_inv lo hi r (v : Q) :
  uniform lo hi r = Finite v → ∃ a b : Q, lo = Finite a ∧ hi = Finite b.
Proof.
  unfold uniform, fsub, fmul, fadd, fopp, fsign.
  destruct lo as [a| | |], hi as [b| | |]; try done; [by eauto|..];
    cbn; destruct (r ?= 0)%Q; try done; destruct (- a ?= 0)%Q; done.
Qed.

Lemma between (lo hi r : Q) :
  (0 <= r < 1)%Q →
  (Qmin lo hi <= lo + (hi - lo) * r <= Qmax lo hi)%Q.
Proof.
  intros [H0 H1].
  destruct (Qlt_le_dec hi lo) as [Hlt | Hle].
  - rewrite (Q.min_r lo hi), (Q.max_l lo hi) by lra. split; nra.
  - rewrite (Q.min_l lo hi), (Q.max_r lo hi) by lra. split; nra.
Qed.

Lemma within (lo hi r : Q) :
  (0 <= r < 1)%Q → (lo <= hi)%Q → (lo <= lo + (hi - lo) * r <= hi)%Q.
Proof. intros [H0 H1] Hle. split; nra. Qed.

(** One turn when the range reads as two numbers. *)
Lemma step_mutates fl kwds l s lo hi r g :
  kwds !! "delay" = Some (VRef l) →
  getattr g l "range" = Some (VStr s) →
  parse_range fl s = Some (lo, hi) →
  delay_range_step fl kwds r g =
    (setattr l "value" (VFloat (uniform lo hi r)) g,
     [Slept 1%Q; Mutated (uniform lo hi r)]).
Proof.
  intros Hk Hr Hp. unfold delay_range_step, current_range.
  rewrite Hk, Hr. cbn. by rewrite Hp.
Qed.

(** One turn when it does not: nothing is assigned. *)
Lemma step_keeps fl kwds r g :
  current_range kwds g ≫= parse_range fl = None →
  delay_range_step fl kwds r g = (g, [Slept 1%Q; NoRange]).
Proof.
  intros H. unfold delay_range_step. rewrite H.
  by destruct (kwds !! "delay") as [[]|].
Qed.

(** The turns of a whole run with a range that stays as it is. *)
Lemma run_mutates fl kwds l s lo hi rs : ∀ g,
  kwds !! "delay" = Some (VRef l) →
  getattr g l "range" = Some (VStr s) →
  parse_range fl s = Some (lo, hi) →
  snd (delay_range_run fl kwds rs g) =
    flat_map (λ r, [Slept 1%Q; Mutated (uniform lo hi r)]) rs.
Proof.
  induction rs as [|r rs IH]; intros g Hk Hr Hp; [done|].
  cbn [delay_range_run flat_map].
  rewrite (step_mutates fl kwds l s lo hi r g Hk Hr Hp).
  specialize (IH (setattr l "value" (VFloat (uniform lo hi r)) g) Hk).
  rewrite getattr_setattr_ne in IH by (by right).
  specialize (IH Hr Hp).
  destruct (delay_range_run fl kwds rs _) as [g2 ev2]. cbn in *. by rewrite IH.
Qed.

End DelayFacts.

(** C8, as the code has it.  Each turn of the mutator sleeps one second,
    reads [options.delay.range] as it then is and, when that splits at
    [-] into two pieces [lo] and [hi] that [float] reads, sets
    [options.delay.value] to [uniform(lo, hi)], that is to
    [lo + (hi-lo) * random()].  When both are finite numbers the value
    lies between the smaller and the larger of them, so in [[lo, hi]]
    when [lo <= hi]; it is a finite number in that case only: when one
    of them is an infinity or NaN, which [float] reads, the value is an
    infinity or NaN, and NaN when one of them is.  When the range does
    not read so, nothing is assigned. *)
Theorem mutator_assigns_between_bounds fl kwds l s lo hi r g :
  kwds !! "delay" = Some (VRef l) →
  getattr g l "range" = Some (VStr s) →
  Delay.parse_range fl s = Some (lo, hi) →
  (0 <= r < 1)%Q →
  Delay.delay_range_step fl kwds r g =
    (setattr l "value" (VFloat (Delay.uniform lo hi r)) g,
     [Delay.Slept 1%Q; Delay.Mutated (Delay.uniform lo hi r)]) ∧
  getattr (fst (Delay.delay_range_step fl kwds r g)) l "value" =
    Some (VFloat (Delay.uniform lo hi r)) ∧
  getattr (fst (Delay.delay_range_step fl kwds r g)) l "range" = Some (VStr s) ∧
  (∀ a b : Q, lo = Finite a → hi = Finite b →
     ∃ v : Q, Delay.uniform lo hi r = Finite v ∧
              (Qmin a b <= v <= Qmax a b)%Q ∧
              ((a <= b)%Q → (a <= v <= b)%Q)) ∧
  (∀ v : Q, Delay.uniform lo hi r = Finite v →
     ∃ a b : Q, lo = Finite a ∧ hi = Finite b) ∧
  (lo = NaN ∨ hi = NaN → Delay.uniform lo hi r = NaN) ∧
  (∀ rs, snd (Delay.delay_range_run fl kwds rs g) =
         flat_map (λ r, [Delay.Slept 1%Q; Delay.Mutated (Delay.uniform lo hi r)]) rs) ∧
  (∀ g', Delay.current_range kwds g' ≫= Delay.parse_range fl = None →
         Delay.delay_range_step fl kwds r g' = (g', [Delay.Slept 1%Q; Delay.NoRange])).
Proof.
  intros Hk Hr Hp Hrange.
  rewrite (DelayFacts.step_mutates fl kwds l s lo hi r g Hk Hr Hp). cbn [fst].
  split_and!.
  - done.
  - apply StoreFacts.getattr_setattr_eq. by eapply StoreFacts.getattr_is_Some.
  - rewrite StoreFacts.getattr_setattr_ne by (by right). done.
  - intros a b -> ->. exists (a + (b - a) * r)%Q. split_and!.
    + apply DelayFacts.uniform_finite.
    + by apply DelayFacts.between.
    + by apply DelayFacts.between.
    + intros Hle. by apply DelayFacts.within.
  - intros v. apply DelayFacts.uniform_finite_inv.
  - apply DelayFacts.uniform_nan.
  - intros rs. by apply (DelayFacts.run_mutates fl kwds l s).
  - intros g'. apply DelayFacts.step_keeps.
Qed.

Lemma mutator_assigns_between_bounds_witness :
  Delay.delay_range_step Delay.decimal (options Sample.ranged_delay) (1 # 2)%Q
      Sample.ranged_delay =
    (setattr 0%nat "value" (VFloat (Delay.uniform (1 # 10)%Q (9 # 10)%Q (1 # 2)))
       Sample.ranged_delay,
     [Delay.Slept 1%Q; Delay.Mutated (Delay.uniform (1 # 10)%Q (9 # 10)%Q (1 # 2))]) ∧
  ∃ v : Q, Delay.uniform (1 # 10)%Q (9 # 10)%Q (1 # 2) = Finite v ∧
           ((1 # 10) <= v <= (9 # 10))%Q.
Proof.
  destruct (mutator_assigns_between_bounds Delay.decimal (options Sample.ranged_delay)
              0%nat ".1-.9" (1 # 10)%Q (9 # 10)%Q (1 # 2)%Q Sample.ranged_delay)
    as (Hstep & _ & _ & Hin & _).
  - vm_compute. reflexivity.
  - vm_compute. reflexivity.
  - vm_compute. reflexivity.
  - split; [discriminate | reflexivity].
  - split; [exact Hstep|].
    destruct (Hin (1 # 10)%Q (9 # 10)%Q eq_refl eq_refl) as (v & Hv & _ & Hle).
    exists v. split; [exact Hv | apply Hle; discriminate].
Defined.

(** C8, the claim as stated, fails: [main] accepts [--delay 1-nan] and
    starts the mutator; [float] reads both pieces of the range, the second
    as NaN, and the value assigned for any draw is NaN, which is neither
    at least [lo] nor at most [hi]. *)
Lemma nan_bound_leaves_the_interval :
  Delay.configure_delay Delay.decimal "1-nan" empty_globals =
    Some (Sample.nan_delay, true) ∧
  Delay.current_range (options Sample.nan_delay) Sample.nan_delay
    ≫= Delay.parse_range Delay.decimal = Some (Finite 1, NaN) ∧
  Delay.delay_range Delay.decimal (options Sample.nan_delay) [(1 # 2)%Q]
      Sample.nan_delay =
    Some (setattr 0%nat "value" (VFloat NaN) Sample.nan_delay,
          [Delay.Slept 1%Q; Delay.Mutated NaN]) ∧
  getattr (fst (Delay.delay_range_step Delay.decimal (options Sample.nan_delay)
                  (1 # 2)%Q Sample.nan_delay)) 0%nat "value" = Some (VFloat NaN) ∧
  fle (Finite 1) NaN = false ∧ fle NaN NaN = false.
Proof.
  split_and!.
  - vm_compute. reflexivity.
  - vm_compute. reflexivity.
  - vm_compute. reflexivity.
  - vm_compute. reflexivity.
  - reflexivity.
  - reflexivity.
Qed.

(** ** The web API *)

Module ApiFacts.
Import Api.

Lemma visit_reads B grp mch group_pat match_pat cmd v g c :
  is_assignment cmd = false →
  fst (visit B grp mch group_pat match_pat cmd v g c) = g.
Proof.
  intros Hcmd. unfold visit. rewrite Hcmd.
  repeat (match goal with
          | |- context [if ?b then _ else _] => destruct b
          | |- context [match ?x with _ => _ end] => destruct x
          end; try done).
Qed.

Lemma visit_names_reads B grp names group_pat match_pat cmd v : ∀ g c,
  is_assignment cmd = false →
  fst (visit_names B grp names group_pat match_pat cmd v g c) = g.
Proof.
  induction names as [|mch names IH]; intros g c Hcmd; [done|].
  cbn [visit_names].
  pose proof (visit_reads B grp mch group_pat match_pat cmd v g c Hcmd) as Hv.
  destruct (visit B grp mch group_pat match_pat cmd v g c) as [g1 [c1|]];
    cbn in Hv; subst g1; [by apply IH | done].
Qed.

Lemma visit_groups_reads B grps group_pat match_pat cmd v : ∀ g c,
  is_assignment cmd = false →
  fst (visit_groups B grps group_pat match_pat cmd v g c) = g.
Proof.
  induction grps as [|grp grps IH]; intros g c Hcmd; [done|].
  cbn [visit_groups].
  pose proof (visit_names_reads B grp (public_names (group_obj grp g))
                group_pat match_pat cmd v g c Hcmd) as Hv.
  destruct (visit_names B grp _ group_pat match_pat cmd v g c) as [g1 [c1|]];
    cbn in Hv; subst g1; [by apply IH | done].
Qed.

End ApiFacts.

(** C9, as the code has it.  When the command that is executed (the
    [command] query option if there is a non-empty one, the [command]
    argument otherwise) is absent, empty or [get] in any letter case,
    [api_request] leaves the store as it found it: the heap of objects and
    the maps [options], [connections] and [tags]; and this whether it
    returns or raises. *)
Theorem read_leaves_store_unchanged B rq g :
  Api.is_assignment (Api.effective_command rq) = false →
  fst (Api.api_request B rq g) = g.
Proof.
  intros Hcmd. unfold Api.api_request, Api.effective_command in *.
  destruct (Api.deduce_encoding B (Api.r_environ rq) (Api.r_accept rq)); [|done].
  destruct (Api.r_queries rq) as [queries|]; [|done].
  destruct (Api.read_since B queries); [|done].
  by apply ApiFacts.visit_groups_reads.
Qed.

Lemma read_leaves_store_unchanged_witness :
  fst (Api.api_request Api.sample_builtins Sample.read_tags Sample.two_tags)
    = Sample.two_tags.
Proof.
  apply (read_leaves_store_unchanged Api.sample_builtins Sample.read_tags
           Sample.two_tags).
  vm_compute. reflexivity.
Defined.

(** C9, the claim as stated, fails: a call whose [command] argument is
    [get] assigns when the query options carry another command. *)
Lemma query_option_overrides_get :
  Api.r_command Sample.write_by_query = Some "get" ∧
  tags Sample.two_tags !! "SCADA" = Some (VRef 0%nat) ∧
  getattr Sample.two_tags 0%nat "error" = Some (VInt 0) ∧
  getattr (fst (Api.api_request Api.sample_builtins Sample.write_by_query
                  Sample.two_tags)) 0%nat "error" = Some (VInt 30) ∧
  fst (Api.api_request Api.sample_builtins Sample.write_by_query Sample.two_tags)
    ≠ Sample.two_tags.
Proof.
  assert (getattr (fst (Api.api_request Api.sample_builtins Sample.write_by_query
                          Sample.two_tags)) 0%nat "error" = Some (VInt 30)) as Hw
    by (vm_compute; reflexivity).
  assert (getattr Sample.two_tags 0%nat "error" = Some (VInt 0)) as Hr
    by (vm_compute; reflexivity).
  split_and!.
  - reflexivity.
  - vm_compute. reflexivity.
  - exact Hr.
  - exact Hw.
  - intros Heq. rewrite Heq, Hr in Hw. clear Heq Hr. discriminate Hw.
Qed.

(** ** The connection handler *)

Module SessionFacts.
Import Session StoreFacts.

Section Facts.
Context {data pstate procstate : Type}.
Variable E : collaborators data pstate procstate.
Abbreviation st := (state procstate).
Implicit Types s : st.

Lemma grows_same s s' :
  connections (glob s') = connections (glob s) → trace s' = trace s →
  observed s' = observed s → grows s s'.
Proof.
  intros Hc Ht Ho. split; [done|]. exists [], [].
  rewrite Ht, Ho, !app_nil_r. by split_and!.
Qed.

Lemma grows_refl s : grows s s.
Proof. by apply grows_same. Qed.

Lemma grows_trans s1 s2 s3 : grows s1 s2 → grows s2 s3 → grows s1 s3.
Proof.
  intros [Hc1 (e1 & g1 & Ht1 & Hf1 & Ho1 & Hp1)] [Hc2 (e2 & g2 & Ht2 & Hf2 & Ho2 & Hp2)].
  split; [congruence|].
  exists (e1 ++ e2)%list, (g1 ++ g2)%list.
  rewrite Ht2, Ht1, Ho2, Ho1, !app_assoc. split_and!; [done | by apply Forall_app | done |].
  apply Forall2_app; [done|].
  eapply Forall2_impl; [exact Hp2|]. intros e g' [? ?]. split; congruence.
Qed.

Lemma grows_emit e s : timeout_ok e → closes e = false → grows s (emit e s).
Proof.
  intros He Hc. split; [done|]. exists [e], [glob s].
  split_and!; [done | by constructor | done | by repeat constructor].
Qed.

Lemma grows_setattr l k v s : grows s (with_glob (setattr l k v (glob s)) s).
Proof. by apply grows_same. Qed.

Lemma grows_with_src x s : grows s (with_src x s).
Proof. by apply grows_same. Qed.

Lemma grows_with_proc p s : grows s (with_proc p s).
Proof. by apply grows_same. Qed.

Lemma grows_with_eof b s : grows s (with_eof b s).
Proof. by apply grows_same. Qed.

Lemma recv_timeout_ok x r : timeout_ok (EvRecv (recv_timeout x) (peek x) r).
Proof. unfold recv_timeout. by destruct (peek x). Qed.

Lemma grows_recv stats s : grows s (snd (network_recv stats s)).
Proof.
  unfold network_recv. destruct (inbox s) as [|a rest]; cbn [snd].
  - apply grows_emit; [apply recv_timeout_ok | done].
  - eapply grows_trans; [|apply grows_emit; [apply recv_timeout_ok | done]].
    apply grows_same; [|done|done]. cbn. by destruct (ctl_eof a).
Qed.

Lemma grows_add_attr stats k n s s' : add_attr stats k n s = Some s' → grows s s'.
Proof.
  unfold add_attr. destruct (getattr (glob s) stats k) as [[]|]; try done;
    intros [= <-]; apply grows_setattr.
Qed.

Lemma refill_grows stats fuel : ∀ s r,
  refill stats fuel s = Some r → grows s (final r).
Proof.
  induction fuel as [|fuel IH]; intros s r; [done|]. cbn [refill].
  destruct (stats_eof stats s) as [[]|]; [| |].
  - intros [= <-]. apply grows_refl.
  - pose proof (grows_recv stats s) as Hrecv.
    destruct (network_recv stats s) as [[| msg |] s1]; cbn [snd] in Hrecv.
    + destruct (peek (src s1)).
      * intros [= <-]. done.
      * intros Hr. eapply grows_trans; [exact Hrecv | by apply IH].
    + destruct (add_attr stats "received" (Z.of_nat (length msg)) s1) as [s2|] eqn:Hadd.
      * apply grows_add_attr in Hadd.
        destruct (getattr (glob s2) stats "eof") as [e|].
        -- intros [= <-]. cbn [final].
           eapply grows_trans; [exact Hrecv|]. eapply grows_trans; [exact Hadd|].
           eapply grows_trans; [apply grows_setattr | apply grows_with_src].
        -- intros [= <-]. cbn [final]. by eapply grows_trans.
      * intros [= <-]. done.
    + intros [= <-]. done.
  - intros [= <-]. apply grows_refl.
Qed.

Lemma drive_grows stats fuel : ∀ gen d s r,
  drive E stats fuel gen d s = Some r → grows s (final r).
Proof.
  induction fuel as [|fuel IH]; intros gen d s r; [done|]. cbn [drive].
  destruct (run_next E gen (src s) d) as [waiting gen' x d' | x d' | x].
  - pose proof (grows_with_src x s) as Hx. destruct waiting.
    + destruct (refill stats fuel (with_src x s)) as [[[] s1 | s1]|] eqn:Hre; [| |done].
      * apply refill_grows in Hre. intros Hd. apply IH in Hd.
        eapply grows_trans; [exact Hx|]. eapply grows_trans; [exact Hre | exact Hd].
      * apply refill_grows in Hre. intros [= <-]. exact (grows_trans _ _ _ Hx Hre).
    + intros Hd. apply IH in Hd. exact (grows_trans _ _ _ Hx Hd).
  - intros [= <-]. apply grows_with_src.
  - intros [= <-]. apply grows_with_src.
Qed.

Lemma trace_emit_all es : ∀ s, trace (emit_all es s) = (trace s ++ es)%list.
Proof.
  induction es as [|e es IH]; intros s; cbn.
  - by rewrite app_nil_r.
  - unfold emit_all in IH. rewrite IH. cbn. by rewrite <- app_assoc.
Qed.

Lemma glob_emit_all es : ∀ s, glob (emit_all es s) = glob s.
Proof. induction es as [|e es IH]; intros s; cbn; [done|]. unfold emit_all in IH. by rewrite IH. Qed.

Lemma inbox_emit_all es : ∀ s, inbox (emit_all es s) = inbox s.
Proof. induction es as [|e es IH]; intros s; cbn; [done|]. unfold emit_all in IH. by rewrite IH. Qed.

Lemma send_errors_emit_all es : ∀ s, send_errors (emit_all es s) = send_errors s.
Proof. induction es as [|e es IH]; intros s; cbn; [done|]. unfold emit_all in IH. by rewrite IH. Qed.

Lemma delay_events_ok g delay : Forall timeout_ok (delay_events E g delay).
Proof.
  unfold delay_events. destruct delay as [v|]; [|constructor].
  destruct (truthy g v); [|constructor].
  destruct (delay_seconds E g v ≫= time_sleep E) as [q|]; by repeat constructor.
Qed.

Lemma delay_events_quiet g delay : Forall quiet (delay_events E g delay).
Proof.
  unfold delay_events. destruct delay as [v|]; [|constructor].
  destruct (truthy g v); [|constructor].
  destruct (delay_seconds E g v ≫= time_sleep E) as [q|]; by repeat constructor.
Qed.

(** What [conn.send] does to the state. *)
Lemma conn_send_spec rpy s :
  ∃ ok, trace (conn_send rpy s) = (trace s ++ [EvSend rpy ok])%list ∧
        glob (conn_send rpy s) = glob s ∧ inbox (conn_send rpy s) = inbox s.
Proof.
  unfold conn_send. destruct (send_errors s) as [|[] rest]; eauto.
Qed.

(** What [terminate] does to the state. *)
Lemma terminate_spec process addr s :
  ∃ r, trace (terminate E process addr s) = (trace s ++ [EvProcess false r])%list ∧
       glob (terminate E process addr s) = glob s ∧
       inbox (terminate E process addr s) = inbox s.
Proof.
  unfold terminate. destruct (process (proc s) addr (new_data E) false); eauto.
Qed.

(** The events of one answer: the call of the processor and then, as the
    case may be, the call that ends a failed request, or the delay and
    the reply. *)
Lemma respond_spec process addr delay d s :
  glob (final (respond E process addr delay d s)) = glob s ∧
  inbox (final (respond E process addr delay d s)) = inbox s ∧
  ∃ evs, trace (final (respond E process addr delay d s)) = (trace s ++ evs)%list ∧
         Forall timeout_ok evs ∧ Forall quiet evs.
Proof.
  unfold respond.
  destruct (process (proc s) addr d true) as [d' p | d' p | p].
  - set (s1 := emit (EvProcess (has_request E d) (Some true)) (with_proc p s)).
    assert (∀ s2, s2 = terminate E process addr s1 →
              glob s2 = glob s ∧ inbox s2 = inbox s ∧
              ∃ evs, trace s2 = (trace s ++ evs)%list ∧
                     Forall timeout_ok evs ∧ Forall quiet evs) as Hterm.
    { intros s2 ->. destruct (terminate_spec process addr s1) as (r & Ht & Hg & Hi).
      rewrite Hg, Hi, Ht. split_and!; [done | done |].
      exists [EvProcess (has_request E d) (Some true); EvProcess false r].
      split; [subst s1; cbn; by rewrite <- app_assoc | by repeat constructor]. }
    destruct (has_response E d'); cbn [negb]; [|by apply Hterm].
    destruct (has_enip_input E d'); cbn [negb]; [|by apply Hterm].
    destruct (enip_encode E d') as [rpy|]; [|by apply Hterm].
    cbn [final].
    destruct (conn_send_spec rpy (emit_all (delay_events E (glob s1) delay) s1))
      as (ok & Ht & Hg & Hi).
    rewrite Hg, Hi, Ht, glob_emit_all, inbox_emit_all, trace_emit_all.
    split_and!; [done | done |].
    exists ([EvProcess (has_request E d) (Some true)]
              ++ delay_events E (glob s1) delay ++ [EvSend rpy ok])%list.
    split; [subst s1; cbn; by rewrite <- !app_assoc|].
    split; (apply Forall_app; split; [by repeat constructor|];
            apply Forall_app; split; [|by repeat constructor]).
    + apply delay_events_ok.
    + apply delay_events_quiet.
  - cbn [final]. split_and!; [done | done |].
    exists [EvProcess (has_request E d) (Some false)].
    split; [done | by repeat constructor].
  - destruct (terminate_spec process addr
                (emit (EvProcess (has_request E d) None) (with_proc p s)))
      as (r & Ht & Hg & Hi).
    cbn [final]. rewrite Hg, Hi, Ht. split_and!; [done | done |].
    exists [EvProcess (has_request E d) None; EvProcess false r].
    split; [cbn; by rewrite <- app_assoc | by repeat constructor].
Qed.

Lemma delay_events_open g delay : Forall (λ e, closes e = false) (delay_events E g delay).
Proof.
  unfold delay_events. destruct delay as [v|]; [|constructor].
  destruct (truthy g v); [|constructor].
  destruct (delay_seconds E g v ≫= time_sleep E) as [q|]; by repeat constructor.
Qed.

Lemma grows_emit_all es : ∀ s,
  Forall timeout_ok es → Forall (λ e, closes e = false) es → grows s (emit_all es s).
Proof.
  induction es as [|e es IH]; intros s Hok Hop; [apply grows_refl|].
  inversion Hok; inversion Hop; subst. cbn.
  eapply grows_trans; [by apply (grows_emit e s) | by apply IH].
Qed.

Lemma grows_conn_send rpy s : grows s (conn_send rpy s).
Proof.
  unfold conn_send. destruct (send_errors s) as [|[] rest].
  - by apply grows_emit.
  - eapply grows_trans; [|apply grows_with_eof].
    eapply grows_trans; [|by apply grows_emit]. by apply grows_same.
  - eapply grows_trans; [|by apply grows_emit]. by apply grows_same.
Qed.

Lemma grows_terminate process addr s : grows s (terminate E process addr s).
Proof.
  unfold terminate. destruct (process (proc s) addr (new_data E) false);
    (eapply grows_trans; [apply grows_with_proc | by apply grows_emit]).
Qed.

Lemma respond_grows process addr delay d s :
  grows s (final (respond E process addr delay d s)).
Proof.
  unfold respond.
  destruct (process (proc s) addr d true) as [d' p | d' p | p].
  - set (s1 := emit (EvProcess (has_request E d) (Some true)) (with_proc p s)).
    assert (grows s s1) as H1
      by (eapply grows_trans; [apply grows_with_proc | by apply grows_emit]).
    assert (grows s (terminate E process addr s1)) as Hterm
      by (eapply grows_trans; [exact H1 | apply grows_terminate]).
    destruct (has_response E d'); cbn [negb]; [|exact Hterm].
    destruct (has_enip_input E d'); cbn [negb]; [|exact Hterm].
    destruct (enip_encode E d') as [rpy|]; [|exact Hterm].
    cbn [final]. eapply grows_trans; [exact H1|].
    eapply grows_trans; [|apply grows_conn_send].
    apply grows_emit_all; [apply delay_events_ok | apply delay_events_open].
  - cbn [final]. eapply grows_trans; [|apply grows_with_eof].
    eapply grows_trans; [apply grows_with_proc | by apply grows_emit].
  - cbn [final]. eapply grows_trans; [|apply grows_terminate].
    eapply grows_trans; [apply grows_with_proc | by apply grows_emit].
Qed.

Lemma answer_grows process stats addr delay d s :
  grows s (final (answer E process stats addr delay d s)).
Proof.
  unfold answer. destruct (has_request E d).
  - destruct (add_attr stats "requests" 1 s) as [s1|] eqn:Hadd.
    + eapply grows_trans; [by eapply grows_add_attr | apply respond_grows].
    + apply grows_refl.
  - apply respond_grows.
Qed.

Lemma iteration_grows process stats addr delay fuel gen d s r :
  iteration E process stats addr delay fuel gen d s = Some r → grows s (final r).
Proof.
  unfold iteration.
  destruct (drive E stats fuel gen d s) as [[d' s1 | s1]|] eqn:Hd; [| |done].
  - apply drive_grows in Hd. intros [= <-].
    eapply grows_trans; [exact Hd | apply answer_grows].
  - apply drive_grows in Hd. by intros [= <-].
Qed.

Lemma serve_grows process stats addr delay fuel : ∀ s r,
  serve E process stats addr delay fuel s = Some r → grows s (final r).
Proof.
  induction fuel as [|fuel IH]; intros s r; [done|]. cbn [serve].
  destruct (stats_eof stats s) as [[]|].
  - intros [= <-]. apply grows_refl.
  - destruct (iteration E process stats addr delay fuel (run_start E) (new_data E)
                (emit EvRun (with_src (forget (src s)) s))) as [[[] s1 | s1]|] eqn:Hit;
      [| |done].
    + apply iteration_grows in Hit. intros Hs. apply IH in Hs.
      eapply grows_trans; [|exact Hs].
      eapply grows_trans; [|exact Hit].
      eapply grows_trans; [apply grows_with_src | by apply grows_emit].
    + apply iteration_grows in Hit. intros [= <-].
      eapply grows_trans; [|exact Hit].
      eapply grows_trans; [apply grows_with_src | by apply grows_emit].
  - intros [= <-]. apply grows_refl.
Qed.

Lemma session_grows stats addr delay fuel s r :
  session E stats addr delay fuel s = Some r → grows s (final r).
Proof.
  unfold session. destruct (enip_process E) as [process|].
  - match goal with
    | |- context [serve E process stats addr delay fuel ?s0] =>
        destruct (serve E process stats addr delay fuel s0) as [[[] s1 | s1]|] eqn:Hs;
          [| |done]; apply serve_grows in Hs;
          assert (grows s s0) as H0 by (by apply grows_same)
    end.
    + intros [= <-]. cbn [final] in *.
      eapply grows_trans; [exact H0|]. eapply grows_trans; [exact Hs|].
      apply grows_setattr.
    + intros [= <-]. by eapply grows_trans.
  - intros [= <-]. apply grows_refl.
Qed.

Lemma truthy_setattr l k v k0 g e :
  is_Some (getattr g l k0) → truthy (setattr l k v g) e = truthy g e.
Proof.
  intros [v0 Hv0]. destruct e as [| | | | |l'| |]; try done.
  unfold truthy, setattr, set_heap. cbn [heap].
  destruct (decide (l = l')) as [<- | Hl].
  - rewrite lookup_alter_eq. unfold getattr in Hv0.
    destruct (heap g !! l) as [d|]; [|done]. cbn in *.
    rewrite !bool_decide_eq_false_2; [done | | ].
    + intros ->. by rewrite lookup_empty in Hv0.
    + apply insert_non_empty.
  - by rewrite lookup_alter_ne.
Qed.

Lemma stats_eof_glob stats s s' :
  glob s' = glob s → stats_eof stats s' = stats_eof stats s.
Proof. unfold stats_eof. by intros ->. Qed.

Lemma stats_eof_setattr stats k v s b :
  k ≠ "eof" → stats_eof stats s = Some b →
  stats_eof stats (with_glob (setattr stats k v (glob s)) s) = Some b.
Proof.
  intros Hk. unfold stats_eof. cbn [glob with_glob].
  rewrite getattr_setattr_ne by (by right).
  destruct (getattr (glob s) stats "eof") as [e|] eqn:He; [|done].
  cbn. by rewrite (truthy_setattr stats k v "eof" (glob s) e) by (by rewrite He).
Qed.

Lemma add_attr_eof stats n s s' b :
  add_attr stats "requests" n s = Some s' →
  stats_eof stats s = Some b →
  stats_eof stats s' = Some b ∧ inbox s' = inbox s ∧ trace s' = trace s.
Proof.
  unfold add_attr. intros Hadd Heof.
  destruct (getattr (glob s) stats "requests") as [[]|]; try done;
    injection Hadd as <-; (split; [by apply stats_eof_setattr | done]).
Qed.

(** Once [stats.eof] is true the refill ends at once, the socket unread. *)
Lemma refill_eof stats fuel s :
  stats_eof stats s = Some true → refill stats (S fuel) s = Some (Ok tt s).
Proof. intros H. cbn [refill]. by rewrite H. Qed.

(** ... and the generator is resumed without anything else happening. *)
Lemma drive_eof stats fuel : ∀ gen d s r,
  stats_eof stats s = Some true →
  drive E stats fuel gen d s = Some r →
  final r = with_src (src (final r)) s.
Proof.
  induction fuel as [|fuel IH]; intros gen d s r Heof; [done|]. cbn [drive].
  destruct (run_next E gen (src s) d) as [waiting gen' x d' | x d' | x].
  - assert (stats_eof stats (with_src x s) = Some true) as Hx by done.
    destruct waiting.
    + destruct fuel as [|fuel']; [done|].
      rewrite (refill_eof stats fuel' _ Hx).
      intros Hd. by rewrite (IH _ _ _ _ Hx Hd).
    + intros Hd. by rewrite (IH _ _ _ _ Hx Hd).
  - by intros [= <-].
  - by intros [= <-].
Qed.

Lemma answer_eof process stats addr delay d s :
  stats_eof stats s = Some true →
  stats_eof stats (final (answer E process stats addr delay d s)) = Some true ∧
  inbox (final (answer E process stats addr delay d s)) = inbox s ∧
  ∃ evs, trace (final (answer E process stats addr delay d s)) = (trace s ++ evs)%list ∧
         Forall quiet evs.
Proof.
  intros Heof. unfold answer.
  assert (∀ s1, stats_eof stats s1 = Some true → inbox s1 = inbox s → trace s1 = trace s →
            stats_eof stats (final (respond E process addr delay d s1)) = Some true ∧
            inbox (final (respond E process addr delay d s1)) = inbox s ∧
            ∃ evs, trace (final (respond E process addr delay d s1)) = (trace s ++ evs)%list ∧
                   Forall quiet evs) as Hresp.
  { intros s1 He Hi Ht.
    destruct (respond_spec process addr delay d s1) as (Hg & Hi' & evs & Ht' & _ & Hq).
    rewrite (stats_eof_glob stats _ _ Hg), Hi', Ht', Hi, Ht. eauto. }
  destruct (has_request E d); [|by apply Hresp].
  destruct (add_attr stats "requests" 1 s) as [s1|] eqn:Hadd.
  - destruct (add_attr_eof _ _ _ _ _ Hadd Heof) as (He & Hi & Ht). by apply Hresp.
  - cbn [final]. split_and!; [done | done |]. exists []. by rewrite app_nil_r.
Qed.

Lemma serve_eof process stats addr delay fuel s :
  stats_eof stats s = Some true →
  serve E process stats addr delay (S fuel) s = Some (Ok tt s).
Proof. intros H. cbn [serve]. by rewrite H. Qed.

Lemma replace_removes a b (t : string) :
  a ≠ b → Str.contains a (Str.replace a b t) = false.
Proof.
  intros Hab. induction t as [|c t IH]; [done|]. cbn. rewrite IH, orb_false_r.
  destruct (Ascii.eqb c a) eqn:Hc.
  - apply Ascii.eqb_neq. congruence.
  - done.
Qed.

Lemma finally_connections stats key s :
  connections (glob (snd (finally stats key s))) = delete key (connections (glob s)).
Proof.
  unfold finally. cbn.
  by repeat (match goal with |- context [match ?x with _ => _ end] => destruct x end).
Qed.

Lemma finally_trace stats key s :
  ∃ evs, trace (snd (finally stats key s)) = (trace s ++ evs)%list ∧ Forall timeout_ok evs.
Proof.
  unfold finally. cbn.
  repeat (match goal with |- context [match ?x with _ => _ end] => destruct x end);
    cbn; first [ by exists [EvClose]; repeat constructor
               | exists []; by rewrite app_nil_r ].
Qed.

(** A delay that reads as a positive number of seconds is a true value. *)
Lemma positive_delay_truthy g v (q : Q) :
  delay_seconds E g v = Some (Finite q) → (0 < q)%Q → truthy g v = true.
Proof.
  unfold delay_seconds. destruct v as [|b|z|x|t|l|a|n]; cbn; try done.
  - destruct b; [done|]. by intros [= <-] ?.
  - intros [= <-] Hq. destruct (Z.eqb_spec z 0) as [->|]; [|done].
    by apply Qlt_irrefl in Hq.
  - intros [= ->] Hq. destruct (Qeq_bool q 0) eqn:Hz; [|done].
    apply Qeq_bool_eq in Hz. rewrite Hz in Hq. by apply Qlt_irrefl in Hq.
  - unfold Delay.py_float. destruct t; [done|]. done.
  - unfold getattr. destruct (heap g !! l) as [d|]; [|done]. cbn.
    destruct (d !! "value") as [v|] eqn:Hv; [|done]. intros _ _.
    rewrite bool_decide_eq_false_2; [done|].
    intros ->. by rewrite lookup_empty in Hv.
Qed.


End Facts.

End SessionFacts.

(** ** The lifetime of a connection's entry *)

Module LifetimeFacts.
Import Session StoreFacts SessionFacts.

Lemma Forall2_right {A B} (P : A → B → Prop) (Q : B → Prop) l k :
  (∀ x y, P x y → Q y) → Forall2 P l k → Forall Q k.
Proof. intros H. induction 1; constructor; eauto. Qed.

Section Facts.
Context {data pstate procstate : Type}.
Variable E : collaborators data pstate procstate.
Abbreviation st := (state procstate).
Implicit Types s : st.

(** What [finally] adds to the trace: the close of the socket, with the
    entry gone from the store. *)
Lemma finally_observed stats key s :
  ∃ evs gs, trace (snd (finally stats key s)) = (trace s ++ evs)%list ∧
            observed (snd (finally stats key s)) = (observed s ++ gs)%list ∧
            Forall2 (λ e g', closes e = true ∧
                             connections g' = delete key (connections (glob s))) evs gs.
Proof.
  unfold finally. cbn [glob with_glob].
  repeat (match goal with |- context [match ?x with _ => _ end] => destruct x end);
    cbn [snd trace observed emit with_glob glob];
    first [ by exists [EvClose], [set_connections (delete key (connections (glob s))) (glob s)];
               repeat constructor
          | exists [], []; rewrite !app_nil_r; by repeat constructor ].
Qed.

Lemma finally_heap stats key s :
  heap (glob (snd (finally stats key s))) = heap (glob s).
Proof.
  unfold finally. cbn [glob with_glob].
  by repeat (match goal with |- context [match ?x with _ => _ end] => destruct x end).
Qed.

(** The handler loop is left, other than by an exception, when
    [stats.eof] is true. *)
Lemma serve_returns process stats addr delay fuel : ∀ s s',
  serve E process stats addr delay fuel s = Some (Ok tt s') →
  stats_eof stats s' = Some true.
Proof.
  induction fuel as [|fuel IH]; intros s s'; [done|]. cbn [serve].
  destruct (stats_eof stats s) as [[]|] eqn:Heof; [| |done].
  - by intros [= <-].
  - destruct (iteration E process stats addr delay fuel (run_start E) (new_data E) _)
      as [[[] s1 | s1]|]; [| done | done].
    apply IH.
Qed.

(** The stores seen in a whole run. *)
Lemma enip_srv_observed addr delay fuel g arrivals errors p x s :
  enip_srv E addr delay fuel g arrivals errors p = Some (x, s) →
  connections (glob s) = delete (connkey addr) (connections g) ∧
  Forall2 (λ e g', connections g' =
             if closes e then delete (connkey addr) (connections g)
             else <[connkey addr := VRef (next_loc g)]> (connections g))
    (trace s) (observed s).
Proof.
  unfold enip_srv.
  change (register addr g) with (fst (register addr g), snd (register addr g)).
  cbn beta iota.
  assert (connections (snd (register addr g))
          = <[connkey addr := VRef (next_loc g)]> (connections g)) as Hreg by reflexivity.
  change (fst (register addr g)) with (next_loc g).
  set (stats := next_loc g). set (g1 := snd (register addr g)) in *.
  assert (∀ r s2,
    grows (initial g1 arrivals errors p) r →
    connections (glob s2) = connections (glob r) → trace s2 = trace r →
    observed s2 = observed r →
    connections (glob (snd (finally stats (connkey addr) s2)))
      = delete (connkey addr) (connections g) ∧
    Forall2 (λ e g', connections g' =
               if closes e then delete (connkey addr) (connections g)
               else <[connkey addr := VRef (next_loc g)]> (connections g))
      (trace (snd (finally stats (connkey addr) s2)))
      (observed (snd (finally stats (connkey addr) s2)))) as Hend.
  { intros r s2 [Hc (evs & gs & Ht & _ & Ho & Hp)] Hc2 Ht2 Ho2.
    cbn [initial glob trace observed app] in *.
    destruct (finally_observed stats (connkey addr) s2) as (evs' & gs' & Ht' & Ho' & Hp').
    rewrite finally_connections, Ht', Ho', Hc2, Ht2, Ho2, Hc, Ht, Ho, Hreg.
    split; [apply delete_insert_eq|].
    apply Forall2_app.
    - eapply Forall2_impl; [exact Hp|]. intros e g' [-> ->]. by rewrite Hreg.
    - eapply Forall2_impl; [exact Hp'|]. intros e g' [-> ->].
      rewrite Hc2, Hc, Hreg. apply delete_insert_eq. }
  destruct (session E stats addr delay fuel _) as [[[] s1 | s1]|] eqn:Hs; [| |done].
  - apply session_grows in Hs. cbn [final] in Hs.
    destruct (Hend s1 s1 Hs eq_refl eq_refl eq_refl) as [H1 H2].
    destruct (finally stats (connkey addr) s1) as [fine s2]. by intros [= _ <-].
  - apply session_grows in Hs. cbn [final] in Hs.
    destruct (Hend s1 (on_exception stats s1) Hs eq_refl eq_refl eq_refl) as [H1 H2].
    destruct (finally stats (connkey addr) _) as [fine s2]. by intros [= _ <-].
Qed.

Lemma truthy_heap g g' v : heap g' = heap g → truthy g' v = truthy g v.
Proof. intros H. destruct v; try done. cbn. by rewrite H. Qed.

Lemma stats_eof_heap stats s s' :
  heap (glob s') = heap (glob s) → stats_eof stats s' = stats_eof stats s.
Proof.
  intros H. unfold stats_eof, getattr. rewrite H.
  destruct (heap (glob s) !! stats ≫= λ d, d !! "eof"); [|done].
  cbn. by rewrite (truthy_heap _ _ _ H).
Qed.

(** A normal return follows a loop test that found [stats.eof] true. *)
Lemma enip_srv_returned addr delay fuel g arrivals errors p s :
  enip_srv E addr delay fuel g arrivals errors p = Some (Returned, s) →
  stats_eof (next_loc g) s = Some true.
Proof.
  unfold enip_srv.
  change (register addr g) with (fst (register addr g), snd (register addr g)).
  cbn beta iota. change (fst (register addr g)) with (next_loc g).
  set (stats := next_loc g).
  unfold session. destruct (enip_process E) as [process|].
  - destruct (serve E process stats addr delay fuel _) as [[[] s1 | s1]|] eqn:Hs; [| |done].
    + apply serve_returns in Hs.
      pose proof (stats_eof_setattr stats "processed" (VInt (Z.of_nat (sent (src s1))))
                    s1 true) as Hp.
      match goal with
      | |- context [finally stats ?key ?s2] =>
          pose proof (finally_heap stats key s2) as Hh;
          destruct (finally stats key s2) as [fine s3] eqn:Hf
      end.
      intros [= _ <-]. cbn [snd] in Hh.
      rewrite (stats_eof_heap stats _ _ Hh). by apply Hp.
    + by destruct (finally stats _ _) as [fine s3].
  - by destruct (finally stats _ _) as [fine s3].
Qed.

Lemma set_up_eof stats addr g :
  is_Some (heap g !! stats) →
  getattr (set_up stats addr g) stats "eof" = Some (VBool false).
Proof.
  intros Hh. unfold set_up.
  rewrite !getattr_setattr_ne by (by right). apply getattr_setattr_eq.
  destruct Hh as [d Hd]. unfold setattr, set_heap. cbn [heap].
  rewrite !lookup_alter_eq, Hd. cbn. eauto.
Qed.

(** With a processor the run begins with the start of a parse, at which
    the store is the one that registration and set-up have left. *)
Lemma enip_srv_starts addr delay fuel g arrivals errors p x s :
  is_Some (enip_process E) →
  enip_srv E addr delay fuel g arrivals errors p = Some (x, s) →
  ∃ evs gs, trace s = EvRun :: evs ∧
            observed s = set_up (next_loc g) addr (snd (register addr g)) :: gs.
Proof.
  intros [process Hproc]. unfold enip_srv.
  change (register addr g) with (fst (register addr g), snd (register addr g)).
  cbn beta iota. change (fst (register addr g)) with (next_loc g).
  set (stats := next_loc g). set (g1 := snd (register addr g)).
  assert (is_Some (heap g1 !! stats)) as Hh.
  { subst g1 stats. cbn. rewrite lookup_insert_eq. eauto. }
  set (s0 := with_glob (set_up stats addr (glob (initial g1 arrivals errors p)))
               (initial g1 arrivals errors p)).
  set (s1 := emit EvRun (with_src (forget (src s0)) s0)).
  assert (∀ r s2, grows s1 r → trace s2 = trace r → observed s2 = observed r →
            ∃ evs gs, trace (snd (finally stats (connkey addr) s2)) = EvRun :: evs ∧
                      observed (snd (finally stats (connkey addr) s2))
                      = set_up stats addr g1 :: gs) as Hend.
  { intros r s2 [_ (evs & gs & Ht & _ & Ho & _)] Ht2 Ho2.
    destruct (finally_observed stats (connkey addr) s2) as (evs' & gs' & Ht' & Ho' & _).
    exists (evs ++ evs')%list, (gs ++ gs')%list.
    by rewrite Ht', Ho', Ht2, Ho2, Ht, Ho. }
  unfold session. rewrite Hproc. fold s0.
  destruct fuel as [|fuel]; [done|]. cbn [serve].
  assert (stats_eof stats s0 = Some false) as ->.
  { unfold stats_eof. subst s0. cbn [glob with_glob initial].
    by rewrite (set_up_eof stats addr g1 Hh). }
  fold s1.
  destruct (iteration E process stats addr delay fuel (run_start E) (new_data E) s1)
    as [[[] s2 | s2]|] eqn:Hit; [| |done].
  - apply iteration_grows in Hit. cbn [final] in Hit.
    destruct (serve E process stats addr delay fuel s2) as [[[] s3 | s3]|] eqn:Hs; [| |done].
    + apply serve_grows in Hs. cbn [final] in Hs.
      match goal with
      | |- context [finally stats ?key ?s4] =>
          destruct (Hend s3 s4 (grows_trans _ _ _ Hit Hs) eq_refl eq_refl)
            as (evs & gs & Ht & Ho);
          destruct (finally stats key s4) as [fine s5]
      end.
      intros [= _ <-]. by exists evs, gs.
    + apply serve_grows in Hs. cbn [final] in Hs.
      match goal with
      | |- context [finally stats ?key ?s4] =>
          destruct (Hend s3 s4 (grows_trans _ _ _ Hit Hs) eq_refl eq_refl)
            as (evs & gs & Ht & Ho);
          destruct (finally stats key s4) as [fine s5]
      end.
      intros [= _ <-]. by exists evs, gs.
  - apply iteration_grows in Hit. cbn [final] in Hit.
    match goal with
    | |- context [finally stats ?key ?s4] =>
        destruct (Hend s2 s4 Hit eq_refl eq_refl) as (evs & gs & Ht & Ho);
        destruct (finally stats key s4) as [fine s5]
    end.
    intros [= _ <-]. by exists evs, gs.
Qed.

End Facts.
End LifetimeFacts.

(** C3.  [enip_srv] registers a new stats object in [connections] under
    the peer's address with [_] between address and port and for every
    dot.  At every event of the run (every socket read, start of a parse,
    call of the processor, delay and reply) the store holds that object
    under that key, from the first on, at which the object has the five
    fields of the set-up and nothing else; when the socket is closed the
    entry is gone.  However the body of the handler's [try] ends, by
    return or by an exception, the handler leaves, and the key is gone
    from [connections] then; the other keys are then, as they were at
    every event, what they were before.  A return follows a loop test
    that found [stats.eof] true: a clean end of file and an [eof] set
    from outside lead there, a failed parse and a socket error leave by
    the exception. *)
Theorem connection_entry_lifetime {data pstate procstate : Type}
    (E : Session.collaborators data pstate procstate)
    addr delay fuel g arrivals errors (p : procstate) :
  Session.connkey addr
    = Str.replace "." "_" (fst addr +:+ "_" +:+ pretty (snd addr)) ∧
  Str.contains "." (Session.connkey addr) = false ∧
  (∀ r, Session.session E (next_loc g) addr delay fuel
          (Session.initial (snd (Session.register addr g)) arrivals errors p) = Some r →
        ∃ x s, Session.enip_srv E addr delay fuel g arrivals errors p = Some (x, s) ∧
               (∀ s1, r = Session.Exc s1 → x = Session.Raised)) ∧
  (∀ x s, Session.enip_srv E addr delay fuel g arrivals errors p = Some (x, s) →
     Forall2 (λ e g', connections g' !! Session.connkey addr
                      = if Session.closes e then None else Some (VRef (next_loc g)))
       (Session.trace s) (Session.observed s) ∧
     (is_Some (Session.enip_process E) →
      ∃ evs gs,
        Session.trace s = Session.EvRun :: evs ∧
        Session.observed s
        = Session.set_up (next_loc g) addr (snd (Session.register addr g)) :: gs) ∧
     heap (Session.set_up (next_loc g) addr (snd (Session.register addr g))) !! next_loc g
       = Some (<["port" := VInt (snd addr)]> (<["interface" := VStr (fst addr)]>
                (<["eof" := VBool false]> (<["received" := VInt 0]>
                   (<["requests" := VInt 0]> ∅))))) ∧
     connections (Session.glob s) !! Session.connkey addr = None ∧
     (∀ k, k ≠ Session.connkey addr →
           connections (Session.glob s) !! k = connections g !! k ∧
           Forall (λ g', connections g' !! k = connections g !! k) (Session.observed s)) ∧
     (x = Session.Returned → Session.stats_eof (next_loc g) s = Some true)).
Proof.
  split; [reflexivity|].
  split; [by apply SessionFacts.replace_removes|].
  split.
  { intros r Hr. unfold Session.enip_srv.
    change (Session.register addr g)
      with (next_loc g, snd (Session.register addr g)).
    cbn beta iota. rewrite Hr. destruct r as [[] s1 | s1].
    - destruct (Session.finally _ _ s1) as [fine s2]. by eexists _, _.
    - destruct (Session.finally _ _ _) as [fine s2].
      exists Session.Raised, s2. by split. }
  intros x s Hrun.
  destruct (LifetimeFacts.enip_srv_observed E _ _ _ _ _ _ _ _ _ Hrun) as [Hend Hall].
  split_and!.
  - eapply Forall2_impl; [exact Hall|]. intros e g' ->.
    destruct (Session.closes e); [apply lookup_delete_eq | apply lookup_insert_eq].
  - intros Hproc. by eapply LifetimeFacts.enip_srv_starts.
  - assert (heap (snd (Session.register addr g)) !! next_loc g = Some ∅) as Hnew
      by (cbn; by rewrite lookup_insert_eq).
    unfold Session.set_up, setattr, set_heap. cbn [heap].
    rewrite !lookup_alter_eq, Hnew. reflexivity.
  - by rewrite Hend, lookup_delete_eq.
  - intros k Hk. split.
    + by rewrite Hend, lookup_delete_ne.
    + eapply LifetimeFacts.Forall2_right; [|exact Hall]. intros e g' ->.
      destruct (Session.closes e); [by rewrite lookup_delete_ne | by rewrite lookup_insert_ne].
  - intros ->. by eapply LifetimeFacts.enip_srv_returned.
Qed.

Lemma connection_entry_lifetime_witness :
  Session.connkey Sample.peer = "10_0_0_7_51234" ∧
  (Sample.exit_of Sample.short_run = Some Session.Returned ∧
   Forall2 (λ e g', connections g' !! Session.connkey Sample.peer
                    = if Session.closes e then None else Some (VRef 0%nat))
     (Session.trace (Sample.end_of Sample.short_run))
     (Session.observed (Sample.end_of Sample.short_run)) ∧
   connections (Session.glob (Sample.end_of Sample.short_run))
     !! Session.connkey Sample.peer = None) ∧
  (Sample.exit_of Sample.torn_run = Some Session.Raised ∧
   connections (Session.glob (Sample.end_of Sample.torn_run))
     !! Session.connkey Sample.peer = None) ∧
  (Sample.exit_of Sample.reset_run = Some Session.Raised ∧
   connections (Session.glob (Sample.end_of Sample.reset_run))
     !! Session.connkey Sample.peer = None).
Proof.
  split_and!.
  - vm_compute. reflexivity.
  - vm_compute. reflexivity.
  - destruct (connection_entry_lifetime Sample.simulator Sample.peer None 400
                empty_globals [Sample.arrives Sample.register_session; Sample.arrives []]
                [] 0%N) as (_ & _ & _ & Hrun).
    destruct (Hrun Session.Returned (Sample.end_of Sample.short_run))
      as (Hall & _); [vm_compute; reflexivity | exact Hall].
  - destruct (connection_entry_lifetime Sample.simulator Sample.peer None 400
                empty_globals [Sample.arrives Sample.register_session; Sample.arrives []]
                [] 0%N) as (_ & _ & _ & Hrun).
    destruct (Hrun Session.Returned (Sample.end_of Sample.short_run))
      as (_ & _ & _ & Hgone & _); [vm_compute; reflexivity | exact Hgone].
  - vm_compute. reflexivity.
  - destruct (connection_entry_lifetime Sample.simulator Sample.peer None 400
                empty_globals
                [Sample.arrives (take 10 Sample.register_session); Sample.arrives []]
                [] 0%N) as (_ & _ & _ & Hrun).
    destruct (Hrun Session.Raised (Sample.end_of Sample.torn_run))
      as (_ & _ & _ & Hgone & _); [vm_compute; reflexivity | exact Hgone].
  - vm_compute. reflexivity.
  - destruct (connection_entry_lifetime Sample.simulator Sample.peer None 400
                empty_globals
                [{| Session.ctl_eof := false; Session.recv_result := Session.SocketError |}]
                [] 0%N) as (_ & _ & _ & Hrun).
    destruct (Hrun Session.Raised (Sample.end_of Sample.reset_run))
      as (_ & _ & _ & Hgone & _); [vm_compute; reflexivity | exact Hgone].
Defined.

(** C1, on the code: whatever [enip_process] returns, answering a request
    leaves [stats.eof] as it was (the [else] branch sets the local [eof]);
    so after it has returned false for an UnRegisterSession, the handler
    loop runs again, parses the client's next request and answers it. *)
Theorem unregister_does_not_end_the_loop :
  (∀ (data pstate procstate : Type) (E : Session.collaborators data pstate procstate)
     process stats addr delay d (s : Session.state procstate),
     Session.stats_eof stats (Session.final (Session.respond E process addr delay d s))
       = Session.stats_eof stats s) ∧
  Sample.trace_of Sample.unregister_run
  = Some [Session.EvRun;
          Session.EvRecv (1 # 10)%Q None (Session.Bytes Sample.register_session);
          Session.EvProcess true (Some true);
          Session.EvSend (Sample.registered 1) true;
          Session.EvRun;
          Session.EvRecv (1 # 10)%Q None (Session.Bytes (Sample.unregister_session 1));
          Session.EvProcess true (Some false);
          Session.EvRun;
          Session.EvRecv (1 # 10)%Q None (Session.Bytes Sample.register_session);
          Session.EvProcess true (Some true);
          Session.EvSend (Sample.registered 2) true;
          Session.EvRun;
          Session.EvRecv (1 # 10)%Q None (Session.Bytes []);
          Session.EvProcess false (Some false);
          Session.EvClose].
Proof.
  split.
  - intros data pstate procstate E process stats addr delay d s.
    apply SessionFacts.stats_eof_glob.
    by destruct (SessionFacts.respond_spec E process addr delay d s) as [-> _].
  - vm_compute. reflexivity.
Qed.

(** C2, on the code: whether [conn.send] raises or not, it leaves the
    store, and with it [stats.eof], as it was (the handler of the socket
    error sets the local [eof]); so after a socket error the handler loop
    runs again, reads and parses the next request and answers it. *)
Theorem send_error_does_not_end_the_loop :
  (∀ (procstate : Type) rpy (s : Session.state procstate),
     Session.glob (Session.conn_send rpy s) = Session.glob s ∧
     Session.eof (Session.conn_send rpy (Session.with_eof false s))
       = Some (match Session.send_errors s with true :: _ => true | _ => false end)) ∧
  Sample.trace_of Sample.send_error_run
  = Some [Session.EvRun;
          Session.EvRecv (1 # 10)%Q None (Session.Bytes Sample.register_session);
          Session.EvProcess true (Some true);
          Session.EvSend (Sample.registered 1) false;
          Session.EvRun;
          Session.EvRecv (1 # 10)%Q None (Session.Bytes Sample.register_session);
          Session.EvProcess true (Some true);
          Session.EvSend (Sample.registered 2) true;
          Session.EvRun;
          Session.EvRecv (1 # 10)%Q None (Session.Bytes []);
          Session.EvProcess false (Some false);
          Session.EvClose].
Proof.
  split.
  - intros procstate rpy s. unfold Session.conn_send.
    cbn [Session.send_errors Session.with_eof].
    by destruct (Session.send_errors s) as [|[] rest].
  - vm_compute. reflexivity.
Qed.

(** C5, as the code has it.  When the processor has produced a response,
    the handler reads the delay as it is in the store at that moment
    ([delay.value] when the delay object has that attribute, the delay
    itself otherwise).  A delay that is a false value is skipped without
    a word; a delay object that has a [value] never is one, nor is a
    delay that reads as a positive number.  Otherwise the handler sleeps
    that long when it reads as a number that [time.sleep] accepts, and
    logs and ignores it when it does not read as a number or
    [time.sleep] raises: for a negative number, for NaN, for an infinity
    and for a number beyond the platform's limit.  In every case it goes
    on to send the reply. *)
Theorem reply_waits_for_the_current_delay {data pstate procstate : Type}
    (E : Session.collaborators data pstate procstate)
    process addr delay d (s : Session.state procstate) d' p rpy :
  process (Session.proc s) addr d true = Session.Proceed d' p →
  Session.has_response E d' = true →
  Session.has_enip_input E d' = true →
  Session.enip_encode E d' = Some rpy →
  (∃ ok s',
     Session.respond E process addr delay d s = Session.Ok tt s' ∧
     Session.trace s' =
       (Session.trace s ++ [Session.EvProcess (Session.has_request E d) (Some true)]
          ++ Session.delay_events E (Session.glob s) delay
          ++ [Session.EvSend rpy ok])%list) ∧
  (∀ l v, getattr (Session.glob s) l "value" = Some v →
     Session.delay_seconds E (Session.glob s) (VRef l)
       = Delay.to_float (Session.float_text E) v) ∧
  (∀ l v, getattr (Session.glob s) l "value" = Some v →
     truthy (Session.glob s) (VRef l) = true) ∧
  (∀ v, (∀ l, v ≠ VRef l) →
     Session.delay_seconds E (Session.glob s) v
       = Delay.to_float (Session.float_text E) v) ∧
  (∀ v (q : Q), Session.delay_seconds E (Session.glob s) v = Some (Finite q) →
     (0 < q)%Q → truthy (Session.glob s) v = true) ∧
  (∀ v (q : Q), delay = Some v → truthy (Session.glob s) v = true →
     Session.delay_seconds E (Session.glob s) v = Some (Finite q) →
     (0 <= q)%Q → Session.sleep_ok E q = true →
     Session.delay_events E (Session.glob s) delay = [Session.EvSleep q]) ∧
  (∀ v, delay = Some v → truthy (Session.glob s) v = true →
     Session.delay_seconds E (Session.glob s) v ≫= Session.time_sleep E = None →
     Session.delay_events E (Session.glob s) delay = [Session.EvDelayInvalid]) ∧
  (∀ x, Session.time_sleep E x = None ↔
        match x with
        | Finite q => (q < 0)%Q ∨ Session.sleep_ok E q = false
        | _ => True
        end) ∧
  (∀ v, delay = Some v → truthy (Session.glob s) v = false →
     Session.delay_events E (Session.glob s) delay = []) ∧
  (delay = None → Session.delay_events E (Session.glob s) delay = []).
Proof.
  intros Hproc Hresp Hin Henc. split_and!.
  - unfold Session.respond. rewrite Hproc, Hresp, Hin, Henc. cbn [negb].
    match goal with
    | |- context [Session.conn_send rpy ?s1] =>
        destruct (SessionFacts.conn_send_spec rpy s1) as (ok & Ht & _)
    end.
    eexists ok, _. split; [reflexivity|].
    rewrite Ht, SessionFacts.trace_emit_all. cbn. by rewrite <- !app_assoc.
  - intros l v Hv. cbn. by rewrite Hv.
  - intros l v Hv. cbn. unfold getattr in Hv.
    destruct (heap (Session.glob s) !! l) as [obj|]; [|done]. cbn in Hv.
    rewrite bool_decide_eq_false_2; [done|]. intros ->. by rewrite lookup_empty in Hv.
  - intros v Hv. destruct v; try done. by destruct (Hv l).
  - intros v q. apply SessionFacts.positive_delay_truthy.
  - intros v q -> Ht Hq Hpos Hok. unfold Session.delay_events.
    rewrite Ht, Hq. cbn. rewrite Hok.
    assert (Qle_bool 0 q = true) as -> by (by apply Qle_bool_iff). done.
  - intros v -> Ht Hq. unfold Session.delay_events. by rewrite Ht, Hq.
  - intros [q| | |]; cbn; [|done..].
    destruct (Qle_bool 0 q) eqn:Hle; cbn.
    + apply Qle_bool_iff in Hle. destruct (Session.sleep_ok E q).
      * split; [done|]. intros [Hneg | ?]; [lra | done].
      * split; [by right | done].
    + split; [|done]. intros _. left.
      destruct (Qlt_le_dec q 0) as [? | Hle']; [done|].
      apply Qle_bool_iff in Hle'. congruence.
  - intros v -> Ht. unfold Session.delay_events. by rewrite Ht.
  - by intros ->.
Qed.

Lemma reply_waits_for_the_current_delay_witness :
  ∃ ok s',
    Session.respond Sample.simulator Sample.session_process Sample.peer
      (Some (VRef 0%nat)) Sample.register_request Sample.about_to_answer
      = Session.Ok tt s' ∧
    Session.trace s' =
      [Session.EvProcess true (Some true); Session.EvSleep (1 # 2)%Q;
       Session.EvSend (Sample.registered 1) ok].
Proof.
  destruct (reply_waits_for_the_current_delay Sample.simulator Sample.session_process
              Sample.peer (Some (VRef 0%nat)) Sample.register_request
              Sample.about_to_answer Sample.register_response 1%N
              (Sample.registered 1))
    as ((ok & s' & Hrun & Htrace) & _ & _ & _ & _ & Hsleep & _).
  - vm_compute. reflexivity.
  - vm_compute. reflexivity.
  - vm_compute. reflexivity.
  - vm_compute. reflexivity.
  - exists ok, s'. split; [exact Hrun|]. rewrite Htrace.
    rewrite (Hsleep (VRef 0%nat) (1 # 2)%Q eq_refl).
    + reflexivity.
    + vm_compute. reflexivity.
    + vm_compute. reflexivity.
    + discriminate.
    + vm_compute. reflexivity.
Defined.

(** C5, the claim as stated, fails.  A [delay.value] of [inf], which is
    above zero, is not slept: [time.sleep] raises, the handler logs that
    and sends the reply at once; so it is with ten thousand million
    seconds where [time.sleep] has the limit of [Sample.sleeps].  And an
    empty text as the delay, which is no number of seconds, is not
    logged: it is a false value and skipped. *)
Lemma positive_delay_is_not_slept :
  fgt PlusInfinity (Finite 0) = true ∧
  Session.trace (Session.final
    (Session.respond Sample.simulator Sample.session_process Sample.peer
       (Some (VRef 0%nat)) Sample.register_request
       (Session.initial (Sample.delayed PlusInfinity) [] [] 0%N)))
  = [Session.EvProcess true (Some true); Session.EvDelayInvalid;
     Session.EvSend (Sample.registered 1) true] ∧
  fgt (Finite 10000000000) (Finite 0) = true ∧
  Session.trace (Session.final
    (Session.respond Sample.simulator Sample.session_process Sample.peer
       (Some (VRef 0%nat)) Sample.register_request
       (Session.initial (Sample.delayed (Finite 10000000000)) [] [] 0%N)))
  = [Session.EvProcess true (Some true); Session.EvDelayInvalid;
     Session.EvSend (Sample.registered 1) true] ∧
  Delay.to_float Delay.decimal (VStr EmptyString) = None ∧
  Session.trace (Session.final
    (Session.respond Sample.simulator Sample.session_process Sample.peer
       (Some (VStr EmptyString)) Sample.register_request
       (Session.initial empty_globals [] [] 0%N)))
  = [Session.EvProcess true (Some true);
     Session.EvSend (Sample.registered 1) true].
Proof.
  split_and!; vm_compute; reflexivity.
Qed.

(** C6, as the code has it.  Every socket read of the handler waits a
    tenth of a second exactly when the byte source has no unconsumed byte
    ([source.peek()] is [None]), and does not wait when it has one. *)
Theorem refill_timeout_follows_peek {data pstate procstate : Type}
    (E : Session.collaborators data pstate procstate)
    addr delay fuel g arrivals errors (p : procstate) x s :
  Session.enip_srv E addr delay fuel g arrivals errors p = Some (x, s) →
  Forall Session.timeout_ok (Session.trace s) ∧
  (∀ stats (s0 : Session.state procstate),
     ∃ r, Session.trace (snd (Session.network_recv stats s0))
          = (Session.trace s0
               ++ [Session.EvRecv (Session.recv_timeout (Session.src s0))
                     (Session.peek (Session.src s0)) r])%list) ∧
  (∀ src0, Session.recv_timeout src0 = (1 # 10)%Q ↔ Session.peek src0 = None) ∧
  (∀ src0, Session.recv_timeout src0 = 0%Q ↔ is_Some (Session.peek src0)).
Proof.
  intros Hrun. split_and!.
  - unfold Session.enip_srv in Hrun.
    change (Session.register addr g)
      with (fst (Session.register addr g), snd (Session.register addr g)) in Hrun.
    cbn beta iota in Hrun.
    destruct (Session.session E _ addr delay fuel _) as [[[] s1 | s1]|] eqn:Hs; [| |done].
    + apply SessionFacts.session_grows in Hs as [_ (evs & gs & Ht & Hok & _ & _)].
      cbn [Session.final Session.trace Session.initial app] in Ht.
      destruct (SessionFacts.finally_trace
                  (fst (Session.register addr g)) (Session.connkey addr) s1)
        as (evs' & Ht' & Hok').
      destruct (Session.finally _ _ s1) as [fine s2]. injection Hrun as _ <-.
      cbn [snd] in Ht'. rewrite Ht', Ht. by apply Forall_app.
    + apply SessionFacts.session_grows in Hs as [_ (evs & gs & Ht & Hok & _ & _)].
      cbn [Session.final Session.trace Session.initial app] in Ht.
      destruct (SessionFacts.finally_trace
                  (fst (Session.register addr g)) (Session.connkey addr)
                  (Session.on_exception (fst (Session.register addr g)) s1))
        as (evs' & Ht' & Hok').
      destruct (Session.finally _ _ _) as [fine s2]. injection Hrun as _ <-.
      cbn [snd] in Ht'. rewrite Ht'. cbn. rewrite Ht. by apply Forall_app.
  - intros stats s0. unfold Session.network_recv.
    destruct (Session.inbox s0); cbn; eauto.
  - intros src0. unfold Session.recv_timeout.
    destruct (Session.peek src0); split; done.
  - intros src0. unfold Session.recv_timeout.
    destruct (Session.peek src0); split; done.
Qed.

Lemma refill_timeout_follows_peek_witness :
  Forall Session.timeout_ok (Session.trace (Sample.end_of Sample.short_run)).
Proof.
  destruct (refill_timeout_follows_peek Sample.simulator Sample.peer None 400
              empty_globals [Sample.arrives Sample.register_session; Sample.arrives []]
              [] 0%N Session.Returned (Sample.end_of Sample.short_run))
    as (Hall & _).
  - vm_compute. reflexivity.
  - exact Hall.
Defined.

(** C6, the claim as stated, fails: with one unconsumed byte in the byte
    source no whole frame is buffered, and yet the socket read does not
    wait.  So it is in a run with a parser that consumes nothing before a
    whole frame is buffered: the second read finds ten bytes of a frame
    and has the timeout 0. *)
Lemma partial_input_is_not_waited_for :
  Session.pending Sample.one_byte = [x65] ∧
  Sample.complete (Session.pending Sample.one_byte) = false ∧
  Session.peek Sample.one_byte = Some x65 ∧
  Session.recv_timeout Sample.one_byte = 0%Q ∧
  Session.recv_timeout Sample.one_byte ≠ (1 # 10)%Q ∧
  Sample.complete (take 10 Sample.register_session) = false ∧
  Sample.trace_of Sample.two_pieces_run
  = Some [Session.EvRun;
          Session.EvRecv (1 # 10)%Q None
            (Session.Bytes (take 10 Sample.register_session));
          Session.EvRecv 0%Q (Some x65)
            (Session.Bytes (drop 10 Sample.register_session));
          Session.EvProcess true (Some true);
          Session.EvSend (Sample.registered 1) true;
          Session.EvRun;
          Session.EvRecv (1 # 10)%Q None (Session.Bytes []);
          Session.EvProcess false (Some false);
          Session.EvClose].
Proof.
  split_and!;
    [reflexivity | reflexivity | reflexivity | reflexivity
    | intros H; discriminate H | reflexivity | vm_compute; reflexivity].
Qed.

(** ** The web API: what a request may change *)

Module EffectFacts.
Import Api Effect StoreFacts.

Lemma coerce_kind B cur v cvt :
  primitive cur = true → coerce B cur v = Some cvt → same_kind cur cvt = true.
Proof.
  unfold coerce, typ_call.
  destruct cur; try done; intros _.
  - by intros [= <-].
  - destruct v as [s|]; [|done]. destruct (Str.py_int s); [|done]. by intros [= <-].
  - destruct v as [s|]; [|done]. destruct (Delay.py_float _ s); [|done]. by intros [= <-].
  - by intros [= <-].
Qed.

Lemma coerce_same_kind B cur cur' v :
  same_kind cur cur' = true → coerce B cur v = coerce B cur' v.
Proof. by destruct cur, cur'. Qed.

Lemma same_kind_primitive a b : same_kind a b = true → primitive a = true.
Proof. by destruct a, b. Qed.

Lemma same_kind_refl a : primitive a = true → same_kind a a = true.
Proof. by destruct a. Qed.

Lemma same_kind_trans a b c :
  same_kind a b = true → same_kind b c = true → same_kind a c = true.
Proof. by destruct a, b, c. Qed.

Lemma retains_refl cmd g : retains cmd g g.
Proof.
  unfold retains. split_and!; try done.
  intros l k cur Hc Hp. exists cur. split; [done | by apply same_kind_refl].
Qed.

Lemma retains_trans cmd g1 g2 g3 :
  retains cmd g1 g2 → retains cmd g2 g3 → retains cmd g1 g3.
Proof.
  intros (Ho1 & Hc1 & Ht1 & Hn1 & Hh1 & Ha1 & Hf1 & Hk1)
         (Ho2 & Hc2 & Ht2 & Hn2 & Hh2 & Ha2 & Hf2 & Hk2).
  unfold retains. split_and!; try congruence.
  - intros l. by rewrite Hh2.
  - intros l k. by rewrite Ha2.
  - intros l k Hne. by rewrite Hf2, Hf1.
  - intros l k cur Hc Hp. destruct (Hk1 l k cur Hc Hp) as (x & Hx & Hs).
    destruct (Hk2 l k x Hx) as (y & Hy & Hs').
    { destruct cur, x; done. }
    exists y. split; [done | by eapply same_kind_trans].
Qed.

(** An assignment that replaces a value by one of its type. *)
Lemma setattr_retains l c cur cvt g :
  getattr g l c = Some cur →
  (primitive cur = true → same_kind cur cvt = true) →
  retains (Some c) g (setattr l c cvt g).
Proof.
  intros Hcur Hkind. pose proof (getattr_is_Some _ _ _ _ Hcur) as Hl.
  unfold retains. split_and!; try done.
  - intros l'. unfold setattr, set_heap. cbn [heap].
    destruct (decide (l = l')) as [<- | Hne].
    + rewrite lookup_alter_eq. destruct (heap g !! l); cbn; split; intros [? ?]; eauto; done.
    + by rewrite lookup_alter_ne.
  - intros l' k.
    destruct (decide (l = l' ∧ c = k)) as [[<- <-] | Hne].
    + rewrite getattr_setattr_eq, Hcur by done. split; eauto.
    + rewrite getattr_setattr_ne; [done|].
      destruct (decide (l = l')); [right | left]; naive_solver.
  - intros l' k Hne. apply getattr_setattr_ne. right. congruence.
  - intros l' k cur' Hc' Hp.
    destruct (decide (l = l' ∧ c = k)) as [[<- <-] | Hne].
    + rewrite getattr_setattr_eq by done. exists cvt. split; [done|].
      rewrite Hcur in Hc'. injection Hc' as <-. by apply Hkind.
    + rewrite getattr_setattr_ne.
      * exists cur'. split; [done | by apply same_kind_refl].
      * destruct (decide (l = l')); [right | left]; naive_solver.
Qed.

Lemma assign_retains B l c v g :
  retains (Some c) g (fst (assign B l c v g)).
Proof.
  unfold assign. destruct (getattr g l c) as [cur|] eqn:Hcur; [|apply retains_refl].
  destruct (coerce B cur v) as [cvt|] eqn:Hco; [|apply retains_refl].
  cbn [fst]. eapply setattr_retains; [done|]. intros Hp. by eapply coerce_kind.
Qed.

Lemma visit_retains B grp mch group_pat match_pat cmd v g c :
  retains cmd g (fst (visit B grp mch group_pat match_pat cmd v g c)).
Proof.
  unfold visit.
  destruct (negb (fnmatch B (group_name grp) group_pat)); [apply retains_refl|].
  destruct (negb (fnmatch B mch match_pat)); [apply retains_refl|].
  destruct (group_obj grp g !! mch) as [[| | | | |l| |]|]; try apply retains_refl.
  destruct (negb (truthy g (VRef l))); [apply retains_refl|].
  destruct (is_assignment cmd) eqn:Hcmd.
  - destruct cmd as [c0|]; [|done].
    change (default EmptyString (Some c0)) with c0.
    pose proof (assign_retains B l c0 v g) as Hr.
    destruct (assign B l c0 v g) as [g' ok]. cbn [fst] in Hr.
    cbv zeta. by repeat case_match.
  - cbv zeta. repeat case_match; apply retains_refl.
Qed.

Lemma visit_names_retains B grp names group_pat match_pat cmd v : ∀ g c,
  retains cmd g (fst (visit_names B grp names group_pat match_pat cmd v g c)).
Proof.
  induction names as [|mch names IH]; intros g c; [apply retains_refl|].
  cbn [visit_names].
  pose proof (visit_retains B grp mch group_pat match_pat cmd v g c) as Hv.
  destruct (visit B grp mch group_pat match_pat cmd v g c) as [g1 [c1|]];
    cbn [fst] in *; [|done].
  eapply retains_trans; [exact Hv | apply IH].
Qed.

Lemma visit_groups_retains B grps group_pat match_pat cmd v : ∀ g c,
  retains cmd g (fst (visit_groups B grps group_pat match_pat cmd v g c)).
Proof.
  induction grps as [|grp grps IH]; intros g c; [apply retains_refl|].
  cbn [visit_groups].
  pose proof (visit_names_retains B grp (public_names (group_obj grp g))
                group_pat match_pat cmd v g c) as Hv.
  destruct (visit_names B grp _ group_pat match_pat cmd v g c) as [g1 [c1|]];
    cbn [fst] in *; [|done].
  eapply retains_trans; [exact Hv | apply IH].
Qed.

Lemma api_request_retains B rq g :
  retains (effective_command rq) g (fst (api_request B rq g)).
Proof.
  unfold api_request, effective_command.
  destruct (deduce_encoding B (r_environ rq) (r_accept rq)); [|apply retains_refl].
  destruct (r_queries rq) as [queries|]; [|apply retains_refl].
  destruct (read_since B queries); [|apply retains_refl].
  apply visit_groups_retains.
Qed.

End EffectFacts.

(** ** The web API: what a write does *)

Module AssignFacts.
Import Api Effect StoreFacts EffectFacts.

Lemma group_obj_retains cmd grp g g' :
  retains cmd g g' → group_obj grp g' = group_obj grp g.
Proof. intros (Ho & Hc & Ht & _). by destruct grp. Qed.

Lemma truthy_has_attr g l k x : getattr g l k = Some x → truthy g (VRef l) = true.
Proof.
  unfold getattr, truthy. destruct (heap g !! l) as [d|]; [|done]. cbn.
  intros Hd. rewrite bool_decide_eq_false_2; [done|].
  intros ->. by rewrite lookup_empty in Hd.
Qed.

Lemma no_events_setattr l c cur cvt g :
  no_events g → getattr g l c = Some cur → no_events (setattr l c cvt g).
Proof.
  intros Hno Hcur l' d'. unfold setattr, set_heap. cbn [heap].
  destruct (decide (l = l')) as [<- | Hne].
  - rewrite lookup_alter_eq. unfold getattr in Hcur.
    destruct (heap g !! l) as [d|] eqn:Hd; [|done]. cbn in *.
    intros [= <-]. specialize (Hno l d Hd).
    rewrite lookup_insert_ne; [done|]. intros ->. congruence.
  - rewrite lookup_alter_ne by done. apply Hno.
Qed.

Lemma public_names_elem obj mch x :
  obj !! mch = Some x → Str.startswith "_" mch = false → In mch (public_names obj).
Proof.
  intros Hx Hpub. unfold public_names. apply filter_In. split.
  - apply list_elem_of_In. rewrite merge_sort_Permutation.
    apply list_elem_of_fmap. exists (mch, x). split; [done|].
    by apply elem_of_map_to_list.
  - by rewrite Hpub.
Qed.

(** A write of [v] to the attribute [c]: the object [l0] has the
    attribute, of a primitive type that [v] converts to. *)
Section Write.
Variables (B : builtins) (group_pat match_pat c : string) (v : option string).
Variables (g0 : globals) (l0 : loc) (cur new : value).
Hypothesis Hcmd : is_assignment (Some c) = true.
Hypothesis Hcur : getattr g0 l0 c = Some cur.
Hypothesis Hprim : primitive cur = true.
Hypothesis Hnew : coerce B cur v = Some new.

Lemma coerce_again x :
  same_kind cur x = true → coerce B x v = Some new.
Proof. intros Hk. by rewrite <- (coerce_same_kind B cur x v Hk). Qed.

Lemma new_same_kind : same_kind cur new = true.
Proof. by eapply coerce_kind. Qed.

Lemma visit_assigns grp mch g ct :
  retains (Some c) g0 g → no_events g →
  no_events (fst (visit B grp mch group_pat match_pat (Some c) v g ct)) ∧
  is_Some (snd (visit B grp mch group_pat match_pat (Some c) v g ct)) ∧
  (getattr g l0 c = Some new →
   getattr (fst (visit B grp mch group_pat match_pat (Some c) v g ct)) l0 c = Some new) ∧
  (fnmatch B (group_name grp) group_pat = true → fnmatch B mch match_pat = true →
   group_obj grp g0 !! mch = Some (VRef l0) →
   getattr (fst (visit B grp mch group_pat match_pat (Some c) v g ct)) l0 c = Some new).
Proof.
  intros Hret Hno.
  destruct Hret as (Ho & Hc & Ht & Hn & Hh & Ha & Hf & Hk).
  destruct (Hk l0 c cur Hcur Hprim) as (x & Hx & Hkx).
  assert (group_obj grp g = group_obj grp g0) as Hobj by (by destruct grp).
  unfold visit. rewrite Hobj, Hcmd.
  change (default EmptyString (Some c)) with c.
  destruct (fnmatch B (group_name grp) group_pat); cbn [negb];
    [|by split_and!].
  destruct (fnmatch B mch match_pat); cbn [negb]; [|by split_and!].
  destruct (group_obj grp g0 !! mch) as [[| | | | |l| |]|] eqn:Hm;
    try by split_and!.
  destruct (truthy g (VRef l)) eqn:Htr; cbn [negb].
  2:{ split_and!; try done. intros _ _ [= ->].
      by rewrite (truthy_has_attr _ _ _ _ Hx) in Htr. }
  unfold assign.
  destruct (getattr g l c) as [cur1|] eqn:Hcur1.
  2:{ cbv zeta.
      assert (default ∅ (heap g !! l) !! "_events" = None) as ->.
      { destruct (heap g !! l) as [d|] eqn:Hd; cbn; [by eapply Hno | done]. }
      split_and!; try done. intros _ _ [= ->]. congruence. }
  destruct (coerce B cur1 v) as [cvt|] eqn:Hcvt.
  2:{ cbv zeta.
      assert (default ∅ (heap g !! l) !! "_events" = None) as ->.
      { destruct (heap g !! l) as [d|] eqn:Hd; cbn; [by eapply Hno | done]. }
      split_and!; try done. intros _ _ [= ->].
      rewrite Hx in Hcur1. injection Hcur1 as <-.
      rewrite (coerce_again x Hkx) in Hcvt. done. }
  cbv zeta.
  pose proof (no_events_setattr l c cur1 cvt g Hno Hcur1) as Hno'.
  assert (default ∅ (heap (setattr l c cvt g) !! l) !! "_events" = None) as ->.
  { destruct (heap (setattr l c cvt g) !! l) as [d|] eqn:Hd; cbn; [by eapply Hno' | done]. }
  cbn [fst snd].
  assert (l = l0 → getattr (setattr l c cvt g) l0 c = Some new) as Hhit.
  { intros ->. rewrite getattr_setattr_eq by (by eapply getattr_is_Some).
    rewrite Hx in Hcur1. injection Hcur1 as <-.
    rewrite (coerce_again x Hkx) in Hcvt. done. }
  split_and!; try done.
  - intros Hdone. destruct (decide (l = l0)) as [-> | Hne]; [by apply Hhit|].
    rewrite getattr_setattr_ne by (by left). done.
  - intros _ _ [= ->]. by apply Hhit.
Qed.

Lemma visit_names_assigns grp names : ∀ g ct,
  retains (Some c) g0 g → no_events g →
  no_events (fst (visit_names B grp names group_pat match_pat (Some c) v g ct)) ∧
  is_Some (snd (visit_names B grp names group_pat match_pat (Some c) v g ct)) ∧
  (getattr g l0 c = Some new →
   getattr (fst (visit_names B grp names group_pat match_pat (Some c) v g ct)) l0 c
     = Some new) ∧
  (∀ mch, In mch names →
   fnmatch B (group_name grp) group_pat = true → fnmatch B mch match_pat = true →
   group_obj grp g0 !! mch = Some (VRef l0) →
   getattr (fst (visit_names B grp names group_pat match_pat (Some c) v g ct)) l0 c
     = Some new).
Proof.
  induction names as [|m names IH]; intros g ct Hret Hno.
  { cbn. split_and!; try done. }
  cbn [visit_names].
  destruct (visit_assigns grp m g ct Hret Hno) as (Hno1 & Hsome & Hkeep & Hhit).
  pose proof (visit_retains B grp m group_pat match_pat (Some c) v g ct) as Hr1.
  destruct (visit B grp m group_pat match_pat (Some c) v g ct) as [g1 [c1|]];
    cbn [fst snd] in *; [|by destruct Hsome].
  assert (retains (Some c) g0 g1) as Hret1 by (by eapply retains_trans).
  destruct (IH g1 c1 Hret1 Hno1) as (Hno2 & Hsome2 & Hkeep2 & Hhit2).
  split_and!; try done.
  - intros Hd. by apply Hkeep2, Hkeep.
  - intros mch [<- | Hin] Hg Hm Hobj.
    + by apply Hkeep2, Hhit.
    + by eapply Hhit2.
Qed.

Lemma visit_groups_assigns grps : ∀ g ct,
  retains (Some c) g0 g → no_events g →
  no_events (fst (visit_groups B grps group_pat match_pat (Some c) v g ct)) ∧
  is_Some (snd (visit_groups B grps group_pat match_pat (Some c) v g ct)) ∧
  (getattr g l0 c = Some new →
   getattr (fst (visit_groups B grps group_pat match_pat (Some c) v g ct)) l0 c
     = Some new) ∧
  (∀ grp mch, In grp grps → In mch (public_names (group_obj grp g0)) →
   fnmatch B (group_name grp) group_pat = true → fnmatch B mch match_pat = true →
   group_obj grp g0 !! mch = Some (VRef l0) →
   getattr (fst (visit_groups B grps group_pat match_pat (Some c) v g ct)) l0 c
     = Some new).
Proof.
  induction grps as [|gr grps IH]; intros g ct Hret Hno.
  { cbn. split_and!; try done. }
  cbn [visit_groups].
  rewrite (group_obj_retains _ gr _ _ Hret).
  destruct (visit_names_assigns gr (public_names (group_obj gr g0)) g ct Hret Hno)
    as (Hno1 & Hsome & Hkeep & Hhit).
  pose proof (visit_names_retains B gr (public_names (group_obj gr g0))
                group_pat match_pat (Some c) v g ct) as Hr1.
  destruct (visit_names B gr _ group_pat match_pat (Some c) v g ct) as [g1 [c1|]];
    cbn [fst snd] in *; [|by destruct Hsome].
  assert (retains (Some c) g0 g1) as Hret1 by (by eapply retains_trans).
  destruct (IH g1 c1 Hret1 Hno1) as (Hno2 & Hsome2 & Hkeep2 & Hhit2).
  split_and!; try done.
  - intros Hd. by apply Hkeep2, Hkeep.
  - intros grp mch [<- | Hin] Hmch Hg Hm Hobj.
    + apply Hkeep2. by eapply Hhit.
    + by eapply Hhit2.
Qed.

End Write.

(** The requests that are carried out: the query options are there, the
    encoding is deduced and [since] read without an exception. *)
Lemma api_assigns B rq queries g grp mch l c cur new :
  is_Some (deduce_encoding B (r_environ rq) (r_accept rq)) →
  r_queries rq = Some queries →
  is_Some (read_since B queries) →
  effective_command rq = Some c →
  is_assignment (Some c) = true →
  no_events g →
  group_obj grp g !! mch = Some (VRef l) →
  Str.startswith "_" mch = false →
  fnmatch B (group_name grp) (or_star (overridden "group" queries (r_group rq))) = true →
  fnmatch B mch (or_star (overridden "match" queries (r_match rq))) = true →
  getattr g l c = Some cur →
  primitive cur = true →
  coerce B cur (overridden "value" queries (r_value rq)) = Some new →
  getattr (fst (api_request B rq g)) l c = Some new ∧
  is_Some (snd (api_request B rq g)).
Proof.
  intros [a Ha] Hq Hsince Hc Hcmd Hno Hobj Hpub Hfg Hfm Hcur Hprim Hnew.
  unfold api_request, effective_command in *. rewrite Ha, Hq in *.
  rewrite Hc. destruct Hsince as [since ->].
  destruct (visit_groups_assigns B
              (or_star (overridden "group" queries (r_group rq)))
              (or_star (overridden "match" queries (r_match rq)))
              c (overridden "value" queries (r_value rq)) g l cur new
              Hcmd Hcur Hprim Hnew
              [Options; Connections; Tags] g
              {| alarm := []; command := None; data := ∅; since := since |}
              (retains_refl _ _) Hno) as (_ & Hsome & _ & Hhit).
  split; [|exact Hsome].
  eapply (Hhit grp mch); try done.
  - destruct grp; cbn; tauto.
  - by eapply public_names_elem.
Qed.

End AssignFacts.

(** X1.  The store after [api_request] differs from the store before it at
    most in attributes that the executed command names: [options],
    [connections] and [tags] refer to the objects they did, no object and no
    attribute is added or removed, and every attribute with another name has
    the value it had. (A command with a dot in it is a path into nested
    objects, which this model of the store does not follow; the command is
    taken to have none.) *)
Theorem api_request_touches_only_the_named_attribute B rq g :
  (∀ c, Api.effective_command rq = Some c → Str.contains "." c = false) →
  options (fst (Api.api_request B rq g)) = options g ∧
  connections (fst (Api.api_request B rq g)) = connections g ∧
  tags (fst (Api.api_request B rq g)) = tags g ∧
  (∀ l, is_Some (heap (fst (Api.api_request B rq g)) !! l) ↔ is_Some (heap g !! l)) ∧
  (∀ l k, is_Some (getattr (fst (Api.api_request B rq g)) l k) ↔ is_Some (getattr g l k)) ∧
  (∀ l k, Api.effective_command rq ≠ Some k →
     getattr (fst (Api.api_request B rq g)) l k = getattr g l k).
Proof.
  intros _.
  destruct (EffectFacts.api_request_retains B rq g)
    as (Ho & Hc & Ht & _ & Hh & Ha & Hf & _).
  by split_and!.
Qed.

Lemma api_request_touches_only_the_named_attribute_witness :
  Api.effective_command Sample.write_by_query = Some "error" ∧
  options (fst (Api.api_request Api.sample_builtins Sample.write_by_query Sample.two_tags))
    = options Sample.two_tags ∧
  connections (fst (Api.api_request Api.sample_builtins Sample.write_by_query
                      Sample.two_tags)) = connections Sample.two_tags ∧
  tags (fst (Api.api_request Api.sample_builtins Sample.write_by_query Sample.two_tags))
    = tags Sample.two_tags ∧
  (∀ l, is_Some (heap (fst (Api.api_request Api.sample_builtins Sample.write_by_query
                              Sample.two_tags)) !! l)
        ↔ is_Some (heap Sample.two_tags !! l)) ∧
  (∀ l k, is_Some (getattr (fst (Api.api_request Api.sample_builtins Sample.write_by_query
                                   Sample.two_tags)) l k)
          ↔ is_Some (getattr Sample.two_tags l k)) ∧
  (∀ l k, Api.effective_command Sample.write_by_query ≠ Some k →
     getattr (fst (Api.api_request Api.sample_builtins Sample.write_by_query
                     Sample.two_tags)) l k = getattr Sample.two_tags l k).
Proof.
  split.
  - vm_compute. reflexivity.
  - apply (api_request_touches_only_the_named_attribute Api.sample_builtins
             Sample.write_by_query Sample.two_tags).
    intros c Hc. vm_compute in Hc. injection Hc as <-. reflexivity.
Defined.

(** X2.  An attribute that holds a [bool], an [int], a [float] or a [str]
    holds a value of that type after [api_request], whatever was asked (in a
    command without a dot). *)
Theorem api_request_retains_types B rq g l k cur :
  (∀ c, Api.effective_command rq = Some c → Str.contains "." c = false) →
  getattr g l k = Some cur →
  Effect.primitive cur = true →
  ∃ x, getattr (fst (Api.api_request B rq g)) l k = Some x ∧
       Effect.same_kind cur x = true.
Proof.
  intros _ Hcur Hprim.
  destruct (EffectFacts.api_request_retains B rq g) as (_ & _ & _ & _ & _ & _ & _ & Hk).
  by apply Hk.
Qed.

Lemma api_request_retains_types_witness :
  getattr Sample.two_tags 0%nat "error" = Some (VInt 0) ∧
  ∃ x, getattr (fst (Api.api_request Api.sample_builtins Sample.write_by_query
                       Sample.two_tags)) 0%nat "error" = Some x ∧
       Effect.same_kind (VInt 0) x = true.
Proof.
  split.
  - vm_compute. reflexivity.
  - apply (api_request_retains_types Api.sample_builtins Sample.write_by_query
             Sample.two_tags 0%nat "error" (VInt 0)).
    + intros c Hc. vm_compute in Hc. injection Hc as <-. reflexivity.
    + vm_compute. reflexivity.
    + reflexivity.
Defined.

(** X3.  A request that names an attribute and is carried out writes it: for
    an object that one of the three globals holds under a public name, that
    both patterns match, and that has the attribute with a value of a
    primitive type to which the value text converts, the attribute holds the
    converted value afterwards, and [api_request] gets as far as its
    response. (The [since] option, if there is one, is read by [float] and
    turned into a date by [time.ctime] without an exception; no object of
    the store has [_events], and the command has no dot in it.) *)
Theorem api_request_writes_the_matching_attribute
    B rq queries g grp mch l c cur new :
  is_Some (Api.deduce_encoding B (Api.r_environ rq) (Api.r_accept rq)) →
  Api.r_queries rq = Some queries →
  is_Some (Api.read_since B queries) →
  Api.effective_command rq = Some c →
  Api.is_assignment (Some c) = true →
  Str.contains "." c = false →
  Effect.no_events g →
  Api.group_obj grp g !! mch = Some (VRef l) →
  Str.startswith "_" mch = false →
  Api.fnmatch B (Api.group_name grp)
    (Api.or_star (Api.overridden "group" queries (Api.r_group rq))) = true →
  Api.fnmatch B mch
    (Api.or_star (Api.overridden "match" queries (Api.r_match rq))) = true →
  getattr g l c = Some cur →
  Effect.primitive cur = true →
  Api.coerce B cur (Api.overridden "value" queries (Api.r_value rq)) = Some new →
  getattr (fst (Api.api_request B rq g)) l c = Some new ∧
  is_Some (snd (Api.api_request B rq g)).
Proof.
  intros Hd Hq Hsince Hc Hcmd _. by apply AssignFacts.api_assigns.
Qed.

Lemma api_request_writes_the_matching_attribute_witness :
  getattr (fst (Api.api_request Api.sample_builtins Cases.write_since
                  Sample.two_tags)) 0%nat "error" = Some (VInt 30) ∧
  is_Some (snd (Api.api_request Api.sample_builtins Cases.write_since
                  Sample.two_tags)).
Proof.
  apply (api_request_writes_the_matching_attribute Api.sample_builtins
           Cases.write_since
           (<["command" := "error"]> (<["value" := "30"]> (<["since" := "1.5"]> ∅)))
           Sample.two_tags Api.Tags "SCADA" 0%nat "error" (VInt 0) (VInt 30)).
  - vm_compute. eauto.
  - reflexivity.
  - vm_compute. eauto.
  - vm_compute. reflexivity.
  - vm_compute. reflexivity.
  - reflexivity.
  - apply (bool_decide_unpack _). vm_compute. reflexivity.
  - vm_compute. reflexivity.
  - vm_compute. reflexivity.
  - vm_compute. reflexivity.
  - vm_compute. reflexivity.
  - vm_compute. reflexivity.
  - reflexivity.
  - vm_compute. reflexivity.
Defined.



(** X5.  A delay written through the web API is the delay of the next reply:
    after a request that writes a float literal to [options.delay.value], a
    handler that was given [options.delay] as its [delay] and answers a
    request sleeps the written number of seconds before it sends when
    [time.sleep] accepts that number, and logs the delay as invalid and
    does not sleep at all when [time.sleep] raises (for a negative
    number, NaN, an infinity, a number beyond the platform's limit). (The
    [since] option, if there is one, is read by [float] and turned into a
    date by [time.ctime] without an exception.) *)
Theorem delay_written_through_the_api_is_slept
    {data pstate procstate : Type} (E : Session.collaborators data pstate procstate)
    process addr d d' p rpy (s : Session.state procstate)
    B rq queries l q0 text q :
  is_Some (Api.deduce_encoding B (Api.r_environ rq) (Api.r_accept rq)) →
  Api.r_queries rq = Some queries →
  is_Some (Api.read_since B queries) →
  Api.effective_command rq = Some "value" →
  Api.overridden "value" queries (Api.r_value rq) = Some text →
  Delay.py_float (Api.float_text B) text = Some q →
  Effect.no_events (Session.glob s) →
  options (Session.glob s) !! "delay" = Some (VRef l) →
  Api.fnmatch B "options"
    (Api.or_star (Api.overridden "group" queries (Api.r_group rq))) = true →
  Api.fnmatch B "delay"
    (Api.or_star (Api.overridden "match" queries (Api.r_match rq))) = true →
  getattr (Session.glob s) l "value" = Some (VFloat q0) →
  process (Session.proc s) addr d true = Session.Proceed d' p →
  Session.has_response E d' = true →
  Session.has_enip_input E d' = true →
  Session.enip_encode E d' = Some rpy →
  ∃ ok,
    Session.trace (Session.final (Session.respond E process addr (Some (VRef l)) d
      (Session.with_glob (fst (Api.api_request B rq (Session.glob s))) s)))
    = (Session.trace s ++
        Session.EvProcess (Session.has_request E d) (Some true)
        :: match Session.time_sleep E q with
           | Some seconds => Session.EvSleep seconds
           | None => Session.EvDelayInvalid
           end
        :: [Session.EvSend rpy ok])%list.
Proof.
  intros Hd Hq Hsince Hc Hv Htext Hno Hdelay Hfg Hfm Hval Hproc Hresp Hin Henc.
  destruct (AssignFacts.api_assigns B rq queries (Session.glob s) Api.Options "delay"
              l "value" (VFloat q0) (VFloat q)) as [Hset _]; try done.
  { rewrite Hv. unfold Api.coerce, Api.typ_call. by rewrite Htext. }
  set (g' := fst (Api.api_request B rq (Session.glob s))) in *.
  unfold Session.respond. cbn [Session.proc Session.with_glob].
  rewrite Hproc, Hresp, Hin, Henc. cbn [negb Session.final].
  match goal with
  | |- context [Session.conn_send rpy ?s0] =>
      destruct (SessionFacts.conn_send_spec rpy s0) as (ok & Ht & _)
  end.
  exists ok. rewrite Ht, SessionFacts.trace_emit_all. cbn [Session.trace Session.emit
    Session.with_proc Session.with_glob Session.glob].
  rewrite <- !app_assoc. f_equal. cbn [app]. f_equal.
  unfold Session.delay_events.
  rewrite (AssignFacts.truthy_has_attr _ _ _ _ Hset).
  unfold Session.delay_seconds. rewrite Hset. cbn [Delay.to_float mbind option_bind].
  by destruct (Session.time_sleep E q).
Qed.

Lemma delay_written_through_the_api_is_slept_witness :
  ∃ ok,
    Session.trace (Session.final (Session.respond Sample.simulator Sample.session_process
      Sample.peer (Some (VRef 0%nat)) Sample.register_request
      (Session.with_glob (fst (Api.api_request Api.sample_builtins Cases.slow_down
                                 (Session.glob (Session.initial (Sample.delayed 0) [] [] 0%N))))
         (Session.initial (Sample.delayed 0) [] [] 0%N))))
    = (Session.trace (Session.initial (Sample.delayed 0) [] [] 0%N) ++
        Session.EvProcess (Session.has_request Sample.simulator Sample.register_request)
          (Some true)
        :: Session.EvSleep (25 # 10)
        :: [Session.EvSend (Sample.registered 1) ok])%list.
Proof.
  destruct (delay_written_through_the_api_is_slept Sample.simulator
              Sample.session_process Sample.peer Sample.register_request
              Sample.register_response 1%N (Sample.registered 1)
              (Session.initial (Sample.delayed 0) [] [] 0%N)
              Api.sample_builtins Cases.slow_down (<["since" := "0"]> ∅)
              0%nat (Finite 0) "2.5" (Finite (25 # 10))) as [ok Hok].
  - vm_compute. eauto.
  - reflexivity.
  - vm_compute. eauto.
  - vm_compute. reflexivity.
  - vm_compute. reflexivity.
  - vm_compute. reflexivity.
  - apply (bool_decide_unpack _). vm_compute. reflexivity.
  - vm_compute. reflexivity.
  - vm_compute. reflexivity.
  - vm_compute. reflexivity.
  - vm_compute. reflexivity.
  - vm_compute. reflexivity.
  - vm_compute. reflexivity.
  - vm_compute. reflexivity.
  - vm_compute. reflexivity.
  - exists ok. exact Hok.
Defined.

(** X6.  A range written through the web API is the range of the mutator's
    next turn: after a request that writes a text to [options.delay.range],
    a turn of the mutator draws the delay from the two floats (NaN and the
    infinities among them) that the new text gives. (The [since] option, if
    there is one, is read by [float] and turned into a date by [time.ctime]
    without an exception.) *)
Theorem range_written_through_the_api_is_drawn_from
    fl kwds r B rq queries g l old text lo hi :
  is_Some (Api.deduce_encoding B (Api.r_environ rq) (Api.r_accept rq)) →
  Api.r_queries rq = Some queries →
  is_Some (Api.read_since B queries) →
  Api.effective_command rq = Some "range" →
  Api.overridden "value" queries (Api.r_value rq) = Some text →
  Effect.no_events g →
  options g !! "delay" = Some (VRef l) →
  kwds !! "delay" = Some (VRef l) →
  Api.fnmatch B "options"
    (Api.or_star (Api.overridden "group" queries (Api.r_group rq))) = true →
  Api.fnmatch B "delay"
    (Api.or_star (Api.overridden "match" queries (Api.r_match rq))) = true →
  getattr g l "range" = Some (VStr old) →
  Delay.parse_range fl text = Some (lo, hi) →
  Delay.delay_range_step fl kwds r (fst (Api.api_request B rq g))
  = (setattr l "value" (VFloat (Delay.uniform lo hi r)) (fst (Api.api_request B rq g)),
     [Delay.Slept 1%Q; Delay.Mutated (Delay.uniform lo hi r)]).
Proof.
  intros Hd Hq Hsince Hc Hv Hno Hopt Hkwds Hfg Hfm Hold Hparse.
  destruct (AssignFacts.api_assigns B rq queries g Api.Options "delay"
              l "range" (VStr old) (VStr text)) as [Hset _]; try done.
  { by rewrite Hv. }
  by eapply DelayFacts.step_mutates.
Qed.

Lemma range_written_through_the_api_is_drawn_from_witness :
  Delay.delay_range_step Delay.decimal (options Sample.ranged_delay) (1 # 2)%Q
    (fst (Api.api_request Api.sample_builtins Cases.new_range Sample.ranged_delay))
  = (setattr 0%nat "value"
       (VFloat (Delay.uniform (Finite (2 # 1)) (Finite (4 # 1)) (1 # 2)))
       (fst (Api.api_request Api.sample_builtins Cases.new_range Sample.ranged_delay)),
     [Delay.Slept 1%Q;
      Delay.Mutated (Delay.uniform (Finite (2 # 1)) (Finite (4 # 1)) (1 # 2))]).
Proof.
  apply (range_written_through_the_api_is_drawn_from Delay.decimal
           (options Sample.ranged_delay) (1 # 2)%Q Api.sample_builtins Cases.new_range
           (<["since" := "0"]> ∅)
           Sample.ranged_delay 0%nat ".1-.9" "2-4" (Finite (2 # 1)) (Finite (4 # 1))).
  - vm_compute. eauto.
  - reflexivity.
  - vm_compute. eauto.
  - vm_compute. reflexivity.
  - vm_compute. reflexivity.
  - apply (bool_decide_unpack _). vm_compute. reflexivity.
  - vm_compute. reflexivity.
  - vm_compute. reflexivity.
  - vm_compute. reflexivity.
  - vm_compute. reflexivity.
  - vm_compute. reflexivity.
  - vm_compute. reflexivity.
Defined.

(** ** The web API: the encoding of the response *)

Module EncodingFacts.
Import Api.

Lemma string_in_In s l : string_in s l = true → In s l.
Proof.
  unfold string_in. intros H. apply existsb_exists in H as (x & Hin & Hx).
  apply String.eqb_eq in Hx. by subst.
Qed.

Lemma best_available_chooses avs encoding q : ∀ acc,
  fst (best_available avs encoding q acc) = fst acc ∨
  ∃ a, fst (best_available avs encoding q acc) = Some a ∧ In a avs.
Proof.
  induction avs as [|avail avs IH]; intros acc; [by left|].
  cbn [best_available].
  destruct (IH (if zip_match (Str.split "/" avail) (Str.split "/" encoding)
                then if fgt q (snd acc) then (Some avail, q) else acc
                else acc)) as [Hsame | (a & Ha & Hin)].
  - rewrite Hsame.
    destruct (zip_match _ _); [|by left].
    destruct (fgt q (snd acc)); [|by left].
    right. exists avail. split; [done | by left].
  - right. exists a. split; [done | by right].
Qed.

Lemma deduce_stanzas_available B stanzas : ∀ acc r,
  (∀ a, fst acc = Some a → In a available) →
  deduce_stanzas B stanzas acc = Some (Some r) → In r available.
Proof.
  induction stanzas as [|stanza stanzas IH]; intros acc r Hacc.
  - cbn. intros [= H]. by apply Hacc.
  - cbn [deduce_stanzas].
    destruct (stanza_quality B (rev (Str.split ";" stanza)) (Finite 1)) as [q|]; [|done].
    apply IH. intros a Ha.
    destruct (best_available_chooses available
                (hd EmptyString (Str.split ";" stanza)) q acc) as [Hsame | (a' & Ha' & Hin)].
    + apply Hacc. congruence.
    + congruence.
Qed.

Lemma deduce_encoding_available B environ accept r :
  deduce_encoding B environ accept = Some (Some r) → In r available.
Proof.
  unfold deduce_encoding.
  assert (∀ t, deduce_stanzas B t (None, Finite 0) = Some (Some r) → In r available) as Hded.
  { intros t. by apply deduce_stanzas_available. }
  destruct accept as [a|]; [|apply Hded].
  destruct (Str.is_empty a); [apply Hded|].
  destruct (string_in (Str.lower a) available) eqn:Hin; [|done].
  intros [= <-]. by apply string_in_In.
Qed.

End EncodingFacts.

(** X7.  Whatever the request says, the encoding that [deduce_encoding]
    settles on is one of the four that [api_request] offers. *)
Theorem deduced_encoding_is_available B environ accept r :
  Api.deduce_encoding B environ accept = Some (Some r) →
  In r Api.available.
Proof. apply EncodingFacts.deduce_encoding_available. Qed.

Lemma deduced_encoding_is_available_witness :
  Api.deduce_encoding Api.sample_builtins
    (Some (<["HTTP_ACCEPT" := "text/html,application/xml;q=0.9,*/*;q=0.8"]> ∅)) None
    = Some (Some "text/html") ∧
  In "text/html" Api.available.
Proof.
  split.
  - vm_compute. reflexivity.
  - apply (deduced_encoding_is_available Api.sample_builtins
             (Some (<["HTTP_ACCEPT" := "text/html,application/xml;q=0.9,*/*;q=0.8"]> ∅))
             None "text/html").
    vm_compute. reflexivity.
Defined.

(** X8.  Without a forced encoding and without an [Accept:] header in the
    environment (no environment, an empty one, or one that lacks
    [HTTP_ACCEPT]), the first of the available encodings is chosen. *)
Theorem encoding_defaults_to_json B environ accept :
  (∀ a, accept = Some a → a = EmptyString) →
  (∀ e, environ = Some e → e !! "HTTP_ACCEPT" = None) →
  Api.deduce_encoding B environ accept = Some (head Api.available).
Proof.
  intros Hacc Henv.
  assert (Api.deduce_stanzas B (Str.split "," (Str.lower
            (match environ with
             | Some e => if bool_decide (e = ∅) then "*/*"
                         else default "*/*" (e !! "HTTP_ACCEPT")
             | None => "*/*"
             end))) (None, Finite 0) = Some (head Api.available)) as Hded.
  { destruct environ as [e|]; [|reflexivity].
    rewrite (Henv e eq_refl). by destruct (bool_decide (e = ∅)). }
  unfold Api.deduce_encoding. destruct accept as [a|]; [|exact Hded].
  rewrite (Hacc a eq_refl). exact Hded.
Qed.

Lemma encoding_defaults_to_json_witness :
  Api.deduce_encoding Api.sample_builtins
    (Some (<["HTTP_HOST" := "localhost"]> ∅)) (Some EmptyString)
  = Some (Some "application/json").
Proof.
  apply (encoding_defaults_to_json Api.sample_builtins
           (Some (<["HTTP_HOST" := "localhost"]> ∅)) (Some EmptyString)).
  - intros a [= <-]. reflexivity.
  - intros e [= <-]. vm_compute. reflexivity.
Defined.

Module WebFacts.
Import Api Web.

Lemma api_request_reads B rq g :
  is_assignment (effective_command rq) = false → fst (api_request B rq g) = g.
Proof.
  intros Hcmd. unfold api_request, effective_command in *.
  destruct (deduce_encoding B (r_environ rq) (r_accept rq)); [|done].
  destruct (r_queries rq) as [queries|]; [|done].
  destruct (read_since B queries); [|done].
  by apply ApiFacts.visit_groups_reads.
Qed.

Lemma consume_keeps k queries key v :
  queries !! key = Some v → Str.is_empty v = true ∨ key ≠ k →
  consume k queries !! key = Some v.
Proof.
  intros Hkey Hwhy. unfold consume.
  destruct (queries !! k) as [w|] eqn:Hk; [|done].
  destruct (Str.is_empty w) eqn:Hw; [done|].
  destruct (decide (key = k)) as [-> | Hne].
  - destruct Hwhy as [Hv | ?]; [|done]. congruence.
  - by rewrite lookup_delete_ne.
Qed.

End WebFacts.

(** X9.  [api_request] never raises [406 Not Acceptable]. When no available
    encoding is acceptable (an unknown forced encoding, or an [Accept:]
    header that matches none), the test [accept in ("text/html")] raises a
    [TypeError] after the commands have been executed; otherwise the
    response is returned under the encoding deduced, or wrapped as HTML. *)
Theorem api_request_never_answers_not_acceptable B environ accept a :
  Api.deduce_encoding B environ accept = Some a →
  Web.ending_for a ≠ Web.NotAcceptable ∧
  (Web.ending_for a = Web.RaisesTypeError ↔ a = None) ∧
  (Web.ending_for a = Web.HtmlPage ↔ a = Some "text/html") ∧
  (∀ t, Web.ending_for a = Web.Returns t → a = Some t).
Proof.
  intros Hded. destruct a as [r|].
  - apply EncodingFacts.deduce_encoding_available in Hded.
    unfold Api.available in Hded. cbn [In] in Hded.
    repeat (destruct Hded as [<- | Hded];
            [split_and!; [done | by split | by split |
               intros t Ht; first [discriminate Ht | by injection Ht as <-]] |]).
    done.
  - split_and!; [done | done | by split | done].
Qed.

Lemma api_request_never_answers_not_acceptable_witness :
  Api.deduce_encoding Api.sample_builtins (Some (<["HTTP_ACCEPT" := "image/png"]> ∅)) None
    = Some None ∧
  Web.ending_for None ≠ Web.NotAcceptable ∧
  (Web.ending_for None = Web.RaisesTypeError ↔ @None string = None) ∧
  (Web.ending_for None = Web.HtmlPage ↔ None = Some "text/html") ∧
  (∀ t, Web.ending_for None = Web.Returns t → None = Some t).
Proof.
  split.
  - vm_compute. reflexivity.
  - apply (api_request_never_answers_not_acceptable Api.sample_builtins
             (Some (<["HTTP_ACCEPT" := "image/png"]> ∅)) None None).
    vm_compute. reflexivity.
Defined.

(** X10.  A path segment that ends in [.json] (any of the four, not the last
    only) makes the response JSON whatever the [Accept:] header says. *)
Theorem json_suffix_forces_json B a1 a2 a3 a4 queries environ rq :
  Web.GET_request [a1; a2; a3; a4] queries environ = Some rq →
  snd (Web.clean a1) || snd (Web.clean a2) || snd (Web.clean a3) || snd (Web.clean a4)
    = true →
  Api.deduce_encoding B (Api.r_environ rq) (Api.r_accept rq)
    = Some (Some "application/json") ∧
  Web.ending_for (Some "application/json") = Web.Returns "application/json".
Proof.
  unfold Web.GET_request.
  destruct (Web.clean a1) as [group j1], (Web.clean a2) as [mtch j2],
           (Web.clean a3) as [cmd j3], (Web.clean a4) as [value j4].
  cbn [snd]. intros [= <-] ->. done.
Qed.

Lemma json_suffix_forces_json_witness :
  Web.GET_request [Some "/tags.json"; Some "/SCADA"; None; None] ∅
    (<["HTTP_ACCEPT" := "text/html"]> ∅) = Some Cases.tags_as_json ∧
  Api.deduce_encoding Api.sample_builtins (Api.r_environ Cases.tags_as_json)
    (Api.r_accept Cases.tags_as_json) = Some (Some "application/json") ∧
  Web.ending_for (Some "application/json") = Web.Returns "application/json".
Proof.
  split.
  - vm_compute. reflexivity.
  - apply (json_suffix_forces_json Api.sample_builtins (Some "/tags.json") (Some "/SCADA")
             None None ∅ (<["HTTP_ACCEPT" := "text/html"]> ∅) Cases.tags_as_json).
    + vm_compute. reflexivity.
    + vm_compute. reflexivity.
Defined.

(** X11.  A [GET] whose path has no command (none, an empty one, or [get] in
    any letter case, with or without [.json]) and whose query options have
    none either leaves the store as it found it. *)
Theorem get_without_a_command_is_a_read B a1 a2 a3 a4 queries environ g :
  (∀ v, queries !! "command" = Some v → v = EmptyString) →
  (∀ c, fst (Web.clean a3) = Some c → c = EmptyString ∨ Str.lower c = "get") →
  fst (Web.GET B [a1; a2; a3; a4] queries environ g) = g.
Proof.
  intros Hquery Hpath. unfold Web.GET, Web.GET_request.
  destruct (Web.clean a1) as [group j1], (Web.clean a2) as [mtch j2],
           (Web.clean a3) as [cmd j3], (Web.clean a4) as [value j4].
  cbn [fst] in Hpath. apply WebFacts.api_request_reads.
  unfold Api.effective_command, Api.overridden. cbn [Api.r_queries Api.r_command].
  assert (Api.is_assignment
            (match cmd with
             | Some c => if Str.is_empty c then Some "get" else Some c
             | None => Some "get"
             end) = false) as Hget.
  { destruct cmd as [c|]; [|done].
    destruct (Hpath c eq_refl) as [-> | Hc]; [done|].
    destruct (Str.is_empty c) eqn:He; [done|].
    unfold Api.is_assignment. rewrite He, Hc. done. }
  destruct (queries !! "command") as [v|] eqn:Hv; [|exact Hget].
  by rewrite (Hquery v eq_refl).
Qed.

Lemma get_without_a_command_is_a_read_witness :
  fst (Web.GET Api.sample_builtins [Some "/tags"; Some "/SCADA"; Some "/GET.json"; None]
         (<["since" := "0"]> ∅) ∅ Sample.two_tags) = Sample.two_tags.
Proof.
  apply (get_without_a_command_is_a_read Api.sample_builtins (Some "/tags") (Some "/SCADA")
           (Some "/GET.json") None (<["since" := "0"]> ∅) ∅ Sample.two_tags).
  - intros v Hv. vm_compute in Hv. discriminate Hv.
  - intros c Hc. vm_compute in Hc. injection Hc as <-. right. vm_compute. reflexivity.
Defined.

(** X25.  The HTML form of the response fails on most query options. An
    option that is left when the loops begin (one that is empty, or is none
    of [group], [match], [command], [value] and [since]) and whose name is
    not two characters long makes it raise a [ValueError]; so does [since=],
    for one. *)
Theorem html_page_fails_on_leftover_options queries command key v :
  queries !! key = Some v →
  Str.is_empty v = true ∨ ¬ In key ["group"; "match"; "command"; "value"; "since"] →
  String.length key ≠ 2%nat →
  Web.html_page queries command = Web.RaisesValueError.
Proof.
  intros Hkey Hwhy Hlen.
  assert (Web.leftover queries !! key = Some v) as Hleft.
  { unfold Web.leftover.
    repeat (apply WebFacts.consume_keeps;
            [|destruct Hwhy as [? | Hnot]; [by left | right; intros ->; apply Hnot; cbn; tauto]]).
    done. }
  unfold Web.html_page.
  destruct (forallb _ _) eqn:Hall; [|done].
  rewrite forallb_forall in Hall.
  specialize (Hall key). rewrite Nat.eqb_eq in Hall. destruct Hlen. apply Hall.
  apply list_elem_of_In, list_elem_of_fmap. exists (key, v). split; [done|].
  by apply elem_of_map_to_list.
Qed.

Lemma html_page_fails_on_leftover_options_witness :
  Web.html_page (<["since" := EmptyString]> ∅) (Some "get") = Web.RaisesValueError.
Proof.
  apply (html_page_fails_on_leftover_options (<["since" := EmptyString]> ∅) (Some "get")
           "since" EmptyString).
  - vm_compute. reflexivity.
  - left. reflexivity.
  - intros H. discriminate H.
Defined.

(** ** [main]: the delay set-up and the mutator *)

Module MutatorFacts.
Import Delay StoreFacts.

(** The store after [main] has set up a delay that is not a number. *)
Lemma configure_delay_range fl arg g :
  py_float fl arg = None → Str.contains "-" arg = true →
  ∃ g', configure_delay fl arg g = Some (g', true) ∧
        options g' !! "delay" = Some (VRef (next_loc g)) ∧
        getattr g' (next_loc g) "range" = Some (VStr arg) ∧
        getattr g' (next_loc g) "value" = Some (VFloat 0%Q).
Proof.
  intros Hfl Hdash. unfold configure_delay, alloc. rewrite Hfl, Hdash.
  eexists. split; [done|]. split_and!.
  - cbn. by rewrite lookup_insert_eq.
  - rewrite getattr_setattr_ne by (by right).
    apply getattr_setattr_eq. cbn. rewrite lookup_insert_eq. eauto.
  - apply getattr_setattr_eq. unfold setattr, set_heap. cbn.
    rewrite lookup_alter_eq, lookup_insert_eq. cbn. eauto.
Qed.

Lemma configure_delay_started fl arg g g' :
  configure_delay fl arg g = Some (g', true) →
  py_float fl arg = None ∧ Str.contains "-" arg = true.
Proof.
  unfold configure_delay, alloc. destruct (py_float fl arg); [done|].
  by destruct (Str.contains "-" arg).
Qed.

Lemma run_keeps fl kwds rs : ∀ g,
  current_range kwds g ≫= parse_range fl = None →
  delay_range_run fl kwds rs g = (g, flat_map (λ _, [Slept 1%Q; NoRange]) rs).
Proof.
  induction rs as [|r rs IH]; intros g Hnone; [done|].
  cbn [delay_range_run flat_map].
  rewrite (DelayFacts.step_keeps fl kwds r g Hnone), (IH g Hnone). done.
Qed.

Lemma step_frame fl kwds r g :
  options (fst (delay_range_step fl kwds r g)) = options g ∧
  connections (fst (delay_range_step fl kwds r g)) = connections g ∧
  tags (fst (delay_range_step fl kwds r g)) = tags g ∧
  ∀ l k, (kwds !! "delay" = Some (VRef l) → k ≠ "value") →
    getattr (fst (delay_range_step fl kwds r g)) l k = getattr g l k.
Proof.
  unfold delay_range_step.
  destruct (kwds !! "delay") as [[| | | | |l0| |]|]; try done.
  destruct (current_range _ g ≫= parse_range fl) as [[lo hi]|]; [|done].
  cbn [fst]. split_and!; try done.
  intros l k Hk. destruct (decide (l0 = l)) as [<- | Hne].
  - apply getattr_setattr_ne. right. intros <-. by apply Hk.
  - apply getattr_setattr_ne. by left.
Qed.

End MutatorFacts.

(** X12.  The mutator that [main] starts passes its opening [assert], and
    the delay is [0.0] until its first turn. *)
Theorem mutator_started_by_main_passes_its_assert fl arg g g' :
  Delay.configure_delay fl arg g = Some (g', true) →
  Delay.delay_range_assert (options g') g' = true ∧
  Delay.delay_value g' = Some 0%Q.
Proof.
  intros Hconf.
  destruct (MutatorFacts.configure_delay_started _ _ _ _ Hconf) as [Hfl Hdash].
  destruct (MutatorFacts.configure_delay_range fl arg g Hfl Hdash)
    as (g1 & Hconf1 & Hopt & Hrange & Hvalue).
  rewrite Hconf in Hconf1. injection Hconf1 as <-.
  unfold Delay.delay_range_assert, Delay.delay_value.
  by rewrite Hopt, Hrange, Hvalue.
Qed.

Lemma mutator_started_by_main_passes_its_assert_witness :
  Delay.delay_range_assert (options Sample.ranged_delay) Sample.ranged_delay = true ∧
  Delay.delay_value Sample.ranged_delay = Some 0%Q.
Proof.
  apply (mutator_started_by_main_passes_its_assert Delay.decimal ".1-.9" empty_globals).
  vm_compute. reflexivity.
Defined.

(** X13.  [main] accepts as a range any [--delay] that is not a number and
    has a [-] in it. When the text does not split at [-] into two float
    literals, the mutator is started all the same, reports the fault every
    second, and the delay stays at [0.0]. *)
Theorem unreadable_range_is_accepted_and_never_applied fl arg g rs :
  Delay.py_float fl arg = None →
  Str.contains "-" arg = true →
  Delay.parse_range fl arg = None →
  ∃ g', Delay.configure_delay fl arg g = Some (g', true) ∧
        Delay.delay_value g' = Some 0%Q ∧
        Delay.delay_range fl (options g') rs g'
        = Some (g', flat_map (λ _, [Delay.Slept 1%Q; Delay.NoRange]) rs).
Proof.
  intros Hfl Hdash Hparse.
  destruct (MutatorFacts.configure_delay_range fl arg g Hfl Hdash)
    as (g' & Hconf & Hopt & Hrange & Hvalue).
  exists g'. split; [done|].
  unfold Delay.delay_value, Delay.delay_range, Delay.delay_range_assert.
  rewrite Hopt, Hrange, Hvalue, Hdash. split; [done|]. f_equal.
  apply MutatorFacts.run_keeps. unfold Delay.current_range.
  by rewrite Hopt, Hrange.
Qed.

Lemma unreadable_range_is_accepted_and_never_applied_witness :
  Delay.parse_range Delay.decimal "-5-7" = None ∧
  ∃ g', Delay.configure_delay Delay.decimal "-5-7" empty_globals = Some (g', true) ∧
        Delay.delay_value g' = Some 0%Q ∧
        Delay.delay_range Delay.decimal (options g') [(1 # 2)%Q; (1 # 3)%Q] g'
        = Some (g', flat_map (λ _, [Delay.Slept 1%Q; Delay.NoRange])
                      [(1 # 2)%Q; (1 # 3)%Q]).
Proof.
  split.
  - vm_compute. reflexivity.
  - apply (unreadable_range_is_accepted_and_never_applied Delay.decimal "-5-7"
             empty_globals [(1 # 2)%Q; (1 # 3)%Q]).
    + vm_compute. reflexivity.
    + vm_compute. reflexivity.
    + vm_compute. reflexivity.
Defined.

(** X14.  The mutator writes [value] of the delay object and nothing else:
    whatever the draws, the three globals refer to the objects they did and
    every other attribute of every object is as it was ([range] among them,
    which only the web API changes). *)
Theorem mutator_writes_only_the_delay_value fl kwds rs g :
  options (fst (Delay.delay_range_run fl kwds rs g)) = options g ∧
  connections (fst (Delay.delay_range_run fl kwds rs g)) = connections g ∧
  tags (fst (Delay.delay_range_run fl kwds rs g)) = tags g ∧
  ∀ l k, (kwds !! "delay" = Some (VRef l) → k ≠ "value") →
    getattr (fst (Delay.delay_range_run fl kwds rs g)) l k = getattr g l k.
Proof.
  revert g. induction rs as [|r rs IH]; intros g; [done|].
  cbn [Delay.delay_range_run].
  destruct (MutatorFacts.step_frame fl kwds r g) as (Ho & Hc & Ht & Hf).
  destruct (Delay.delay_range_step fl kwds r g) as [g1 ev1]. cbn [fst] in *.
  destruct (IH g1) as (Ho' & Hc' & Ht' & Hf').
  destruct (Delay.delay_range_run fl kwds rs g1) as [g2 ev2]. cbn [fst] in *.
  split_and!; try congruence.
  intros l k Hk. by rewrite Hf', Hf.
Qed.

(** ** [main]: tag names that are given again *)

Module RepeatFacts.
Import TagSpec CreateFacts.

Lemma tag_loop_app ts1 : ∀ ts2 g g',
  tag_loop (ts1 ++ ts2) g = inr g' →
  ∃ g1, tag_loop ts1 g = inr g1 ∧ tag_loop ts2 g1 = inr g'.
Proof.
  induction ts1 as [|t ts1 IH]; intros ts2 g g'; cbn.
  - intros H. by exists g.
  - destruct (parse_tag t) as [e | [[name T] n]]; [done|]. apply IH.
Qed.

Lemma tag_loop_next ts : ∀ g g',
  tag_loop ts g = inr g' → (next_loc g ≤ next_loc g')%nat.
Proof. intros g g' H. by destruct (tag_loop_created ts g g' H) as [? _]. Qed.

(** The objects of the tags that a run of the loop names are created by
    that run. *)
Lemma tag_loop_fresh ts : ∀ g g' name,
  tag_loop ts g = inr g' →
  existsb (names name) ts = true →
  ∃ l, tags g' !! name = Some (VRef l) ∧ (next_loc g ≤ l < next_loc g')%nat.
Proof.
  induction ts as [|t ts IH]; intros g g' name; [done|]. cbn [tag_loop existsb].
  destruct (parse_tag t) as [e | [[name0 T0] n0]] eqn:Hp; [done|].
  intros Hloop Hex.
  pose proof (tag_loop_next _ _ _ Hloop) as Hnext. rewrite create_tag_next in Hnext.
  destruct (existsb (names name) ts) eqn:Hrest.
  - destruct (IH _ _ name Hloop Hrest) as (l & Hl & Hrange).
    rewrite create_tag_next in Hrange. exists l. split; [done | lia].
  - rewrite orb_false_r in Hex. unfold names in Hex. rewrite Hp in Hex.
    apply String.eqb_eq in Hex as ->.
    destruct (tag_loop_created ts _ _ Hloop) as (_ & _ & Hother & _).
    exists (next_loc g). split; [|lia].
    by rewrite (Hother name Hrest), create_tag_tags, lookup_insert_eq.
Qed.

Lemma tag_loop_apart ts : ∀ g g' name1 name2 l,
  tag_loop ts g = inr g' →
  existsb (names name1) ts = true →
  existsb (names name2) ts = true →
  tags g' !! name1 = Some (VRef l) →
  tags g' !! name2 = Some (VRef l) →
  name1 = name2.
Proof.
  induction ts as [|t ts IH]; intros g g' name1 name2 l; [done|]. cbn [tag_loop existsb].
  destruct (parse_tag t) as [e | [[name0 T0] n0]] eqn:Hp; [done|].
  intros Hloop Hex1 Hex2 Hl1 Hl2.
  destruct (tag_loop_created ts _ _ Hloop) as (_ & _ & Hother & _).
  assert (∀ name, existsb (names name) ts = false →
            names name t || false = true →
            name = name0 ∧ tags g' !! name = Some (VRef (next_loc g))) as Hfirst.
  { intros name Hrest Hex. rewrite orb_false_r in Hex. unfold names in Hex.
    rewrite Hp in Hex. apply String.eqb_eq in Hex as ->. split; [done|].
    by rewrite (Hother _ Hrest), create_tag_tags, lookup_insert_eq. }
  assert (∀ name, existsb (names name) ts = true →
            ∃ l', tags g' !! name = Some (VRef l') ∧ (next_loc g < l')%nat) as Hlater.
  { intros name Hrest. destruct (tag_loop_fresh ts _ _ name Hloop Hrest) as (l' & Hl' & Hr).
    rewrite create_tag_next in Hr. exists l'. split; [done | lia]. }
  destruct (existsb (names name1) ts) eqn:Hr1, (existsb (names name2) ts) eqn:Hr2.
  - by eapply IH.
  - destruct (Hlater name1 Hr1) as (l1 & Hl1' & Hlt).
    destruct (Hfirst name2 Hr2 Hex2) as [_ Hl2'].
    rewrite Hl1 in Hl1'. rewrite Hl2 in Hl2'. simplify_eq. lia.
  - destruct (Hlater name2 Hr2) as (l2 & Hl2' & Hlt).
    destruct (Hfirst name1 Hr1 Hex1) as [_ Hl1'].
    rewrite Hl1 in Hl1'. rewrite Hl2 in Hl2'. simplify_eq. lia.
  - destruct (Hfirst name1 Hr1 Hex1) as [-> _].
    by destruct (Hfirst name2 Hr2 Hex2) as [-> _].
Qed.

End RepeatFacts.

(** X15.  A tag name that is given more than once is no error: the tag is
    the one that the last specification of the name describes. (A dot in a
    tag name would make it a path into nested objects; the specifications
    are taken to have none.) *)
Theorem last_specification_of_a_tag_wins ts1 t ts2 g g' name T n :
  Forall (λ t', Str.contains "." t' = false) (ts1 ++ t :: ts2) →
  TagSpec.main_tags (ts1 ++ t :: ts2) g = inr g' →
  TagSpec.parse_tag t = inr (name, T, n) →
  existsb (TagSpec.names name) ts2 = false →
  ∃ l, tags g' !! name = Some (VRef l) ∧
       heap g' !! l = Some (TagSpec.tag_entry name T n).
Proof.
  intros _ Hmain Hp Hlast.
  assert (TagSpec.tag_loop (ts1 ++ t :: ts2) g = inr g') as Hloop.
  { unfold TagSpec.main_tags in Hmain. by destruct (ts1 ++ t :: ts2)%list. }
  destruct (RepeatFacts.tag_loop_app _ _ _ _ Hloop) as (g1 & _ & Hrest).
  cbn [TagSpec.tag_loop] in Hrest. rewrite Hp in Hrest.
  destruct (CreateFacts.tag_loop_created ts2 _ _ Hrest) as (_ & Hheap & Hother & _).
  exists (next_loc g1). split.
  - by rewrite (Hother name Hlast), CreateFacts.create_tag_tags, lookup_insert_eq.
  - rewrite Hheap by (rewrite CreateFacts.create_tag_next; lia).
    by rewrite CreateFacts.create_tag_heap, lookup_insert_eq.
Qed.

Lemma last_specification_of_a_tag_wins_witness :
  TagSpec.main_tags (["A=SINT"] ++ "A=DINT[4]" :: ["B"]) empty_globals
    = inr Cases.redefined ∧
  ∃ l, tags Cases.redefined !! "A" = Some (VRef l) ∧
       heap Cases.redefined !! l = Some (TagSpec.tag_entry "A" DINT 4).
Proof.
  split.
  - vm_compute. reflexivity.
  - apply (last_specification_of_a_tag_wins ["A=SINT"] "A=DINT[4]" ["B"]
             empty_globals Cases.redefined "A" DINT 4).
    + by repeat constructor.
    + vm_compute. reflexivity.
    + vm_compute. reflexivity.
    + vm_compute. reflexivity.
Defined.

(** X16.  Two tags of different names never share an object: what is written
    to one tag's entry is not seen in another's. (The specifications are
    taken to have no dot.) *)
Theorem tags_have_objects_of_their_own ts g g' name1 name2 l1 l2 :
  Forall (λ t, Str.contains "." t = false) ts →
  TagSpec.main_tags ts g = inr g' →
  existsb (TagSpec.names name1) ts = true →
  existsb (TagSpec.names name2) ts = true →
  name1 ≠ name2 →
  tags g' !! name1 = Some (VRef l1) →
  tags g' !! name2 = Some (VRef l2) →
  l1 ≠ l2.
Proof.
  intros _ Hmain Hex1 Hex2 Hne Hl1 Hl2 ->.
  assert (TagSpec.tag_loop ts g = inr g') as Hloop by (by destruct ts).
  by destruct Hne; eapply RepeatFacts.tag_loop_apart.
Qed.

Lemma tags_have_objects_of_their_own_witness :
  tags Sample.two_tags !! "SCADA" = Some (VRef 0%nat) ∧
  tags Sample.two_tags !! "B" = Some (VRef 1%nat) ∧
  0%nat ≠ 1%nat.
Proof.
  split; [vm_compute; reflexivity|]. split; [vm_compute; reflexivity|].
  apply (tags_have_objects_of_their_own ["SCADA=INT[3]"; "B"] empty_globals
           Sample.two_tags "SCADA" "B" 0%nat 1%nat).
  - by repeat constructor.
  - vm_compute. reflexivity.
  - vm_compute. reflexivity.
  - vm_compute. reflexivity.
  - intros H. discriminate H.
  - vm_compute. reflexivity.
  - vm_compute. reflexivity.
Defined.

(** ** The connection handler: what it counts *)

Module AccountFacts.
Import Session Account StoreFacts.

Lemma count_app p a b : count p (a ++ b)%list = (count p a + count p b)%nat.
Proof. unfold count. by rewrite List.filter_app, length_app. Qed.

Lemma silent_nil : silent [].
Proof. done. Qed.

Lemma silent_app a b : silent a → silent b → silent (a ++ b)%list.
Proof.
  intros (H1 & H2 & H3) (H4 & H5 & H6). unfold silent.
  rewrite !count_app. lia.
Qed.

Lemma silent_one_answer a b : silent a → one_answer b → one_answer (a ++ b)%list.
Proof.
  intros (H1 & H2 & H3) (H4 & H5 & H6). unfold one_answer.
  rewrite !count_app. lia.
Qed.

Lemma silent_is_one_answer a : silent a → one_answer a.
Proof. intros (H1 & H2 & H3). unfold one_answer. lia. Qed.

Lemma paced_nil : paced [].
Proof. unfold paced, count. cbn. lia. Qed.

Lemma paced_app a b : paced a → paced b → paced (a ++ b)%list.
Proof.
  intros (H1 & H2) (H3 & H4). unfold paced. rewrite !count_app. lia.
Qed.

Lemma run_one_answer_paced b : one_answer b → paced (EvRun :: b).
Proof.
  intros (H1 & H2 & H3). unfold paced, count in *. cbn. lia.
Qed.

Lemma setattr_keeps l k v g l' k' :
  is_Some (getattr g l' k') → is_Some (getattr (setattr l k v g) l' k').
Proof.
  intros Hsome. destruct (decide (l = l' ∧ k = k')) as [[<- <-] | Hne].
  - rewrite getattr_setattr_eq; [eauto|]. destruct Hsome as [x Hx].
    by eapply getattr_is_Some.
  - rewrite getattr_setattr_ne; [done|].
    destruct (decide (l = l')); [right | left]; naive_solver.
Qed.

Section Facts.
Context {data pstate procstate : Type}.
Variable E : collaborators data pstate procstate.
Abbreviation st := (state procstate).
Implicit Types s : st.

Lemma accounted_refl stats (P : list event → Prop) s : P [] → accounted stats P s s.
Proof.
  intros HP. unfold accounted. split_and!; [done | | done |].
  - exists []. split; [done|]. intros z Hz. rewrite Hz. do 2 f_equal. cbn. lia.
  - exists []. by rewrite app_nil_r.
Qed.

Lemma delivered_app a b : delivered (a ++ b)%list = delivered a + delivered b.
Proof. induction a as [|x a IH]; cbn; [done|]. rewrite IH. lia. Qed.

Lemma accounted_trans stats (P Q R : list event → Prop) s1 s2 s3 :
  (∀ a b, P a → Q b → R (a ++ b)%list) →
  accounted stats P s1 s2 → accounted stats Q s2 s3 → accounted stats R s1 s3.
Proof.
  intros HPQ (Hk1 & (u1 & Hi1 & Hr1) & Hc1 & e1 & Ht1 & HP)
             (Hk2 & (u2 & Hi2 & Hr2) & Hc2 & e2 & Ht2 & HQ).
  unfold accounted. split_and!.
  - intros l k H. by apply Hk2, Hk1.
  - exists (u1 ++ u2)%list. split.
    + by rewrite Hi1, Hi2, app_assoc.
    + intros z Hz. rewrite (Hr2 _ (Hr1 _ Hz)), delivered_app. do 2 f_equal. lia.
  - congruence.
  - exists (e1 ++ e2)%list. split; [by rewrite Ht2, Ht1, app_assoc | by apply HPQ].
Qed.

Lemma accounted_weaken stats (P Q : list event → Prop) s s' :
  (∀ a, P a → Q a) → accounted stats P s s' → accounted stats Q s s'.
Proof.
  intros HPQ (Hk & Hr & Hc & e & Ht & HP). unfold accounted.
  split_and!; try done. exists e. split; [done | by apply HPQ].
Qed.

(** A state that differs in the store only, by an assignment to an
    attribute other than [stats.received]. *)
Lemma accounted_setattr stats (P : list event → Prop) l k v s :
  P [] → (l ≠ stats ∨ k ≠ "received") →
  accounted stats P s (with_glob (setattr l k v (glob s)) s).
Proof.
  intros HP Hne. unfold accounted. cbn [glob inbox closed trace with_glob]. split_and!.
  - intros l' k'. apply setattr_keeps.
  - exists []. split; [done|]. intros z Hz.
    rewrite getattr_setattr_ne by done. rewrite Hz. do 2 f_equal. cbn. lia.
  - done.
  - exists []. by rewrite app_nil_r.
Qed.

Lemma accounted_emit stats (P : list event → Prop) e s :
  P [e] → accounted stats P s (emit e s).
Proof.
  intros HP. unfold accounted. cbn [glob inbox closed trace emit]. split_and!; try done.
  - exists []. split; [done|]. intros z Hz. rewrite Hz. do 2 f_equal. cbn. lia.
  - by exists [e].
Qed.

(** A state that differs in neither store, inbox, socket nor trace. *)
Lemma accounted_same stats (P : list event → Prop) s s' :
  P [] → glob s' = glob s → inbox s' = inbox s → closed s' = closed s →
  trace s' = trace s → accounted stats P s s'.
Proof.
  intros HP Hg Hi Hc Ht. unfold accounted. rewrite Hg, Hi, Hc, Ht. split_and!; try done.
  - exists []. split; [done|]. intros z Hz. rewrite Hz. do 2 f_equal. cbn. lia.
  - exists []. by rewrite app_nil_r.
Qed.

Lemma add_attr_accounted stats (P : list event → Prop) k n s s' :
  P [] → k ≠ "received" → add_attr stats k n s = Some s' → accounted stats P s s'.
Proof.
  intros HP Hk. unfold add_attr.
  destruct (getattr (glob s) stats k) as [[]|]; try done;
    intros [= <-]; apply accounted_setattr; auto.
Qed.

Lemma refill_accounted stats fuel : ∀ s r,
  refill stats fuel s = Some r → accounted stats silent s (final r).
Proof.
  induction fuel as [|fuel IH]; intros s r; [done|]. cbn [refill].
  destruct (stats_eof stats s) as [[]|];
    [intros [= <-]; by apply accounted_refl | | intros [= <-]; by apply accounted_refl].
  unfold network_recv. destruct (inbox s) as [|a rest] eqn:Hin.
  - destruct (peek (src (emit _ s))).
    + intros [= <-]. by apply accounted_emit.
    + intros Hr. apply IH in Hr.
      eapply accounted_trans; [apply silent_app | | exact Hr].
      by apply accounted_emit.
  - set (g1 := if ctl_eof a then setattr stats "eof" (VBool true) (glob s) else glob s).
    set (s1 := emit _ _).
    assert (∀ l k, is_Some (getattr (glob s) l k) → is_Some (getattr g1 l k)) as Hkeep.
    { intros l k. subst g1. destruct (ctl_eof a); [apply setattr_keeps | done]. }
    assert (getattr g1 stats "received" = getattr (glob s) stats "received") as Hrecv.
    { subst g1. destruct (ctl_eof a); [|done]. apply getattr_setattr_ne. by right. }
    assert (∀ s2, glob s2 = g1 → inbox s2 = rest → closed s2 = closed s →
              trace s2 = trace s1 →
              match recv_result a with Bytes msg => msg = [] | _ => True end →
              accounted stats silent s s2) as Hplain.
    { intros s2 Hg Hi Hc Ht Hres. unfold accounted. rewrite Hg, Hi, Hc, Ht, Hin.
      split_and!; [done | | done |].
      - exists [a]. split; [done|]. intros z Hz. rewrite Hrecv, Hz. do 2 f_equal.
        cbn. destruct (recv_result a) as [|msg|]; [lia | subst msg; cbn; lia | lia].
      - eexists. split; [reflexivity | done]. }
    destruct (recv_result a) as [|msg|] eqn:Hres.
    + destruct (peek (src s1)).
      * intros [= <-]. by apply Hplain.
      * intros Hr. apply IH in Hr.
        eapply accounted_trans; [apply silent_app | | exact Hr]. by apply Hplain.
    + assert (∀ s3 v,
                (∀ l k, is_Some (getattr g1 l k) → is_Some (getattr (glob s3) l k)) →
                (is_Some (heap g1 !! stats) → getattr (glob s3) stats "received" = Some v) →
                inbox s3 = rest → closed s3 = closed s → trace s3 = trace s1 →
                (∀ z, getattr (glob s) stats "received" = Some (VInt z) →
                      v = VInt (z + Z.of_nat (length msg))) →
                accounted stats silent s s3) as Hfin.
      { intros s3 v Hk Hv Hi Hc Ht Hz. unfold accounted. rewrite Hi, Hc, Ht, Hin.
        split_and!; [| | done |].
        - intros l k Hs. by apply Hk, Hkeep.
        - exists [a]. split; [done|]. intros z Hz'.
          rewrite Hv.
          + rewrite (Hz z Hz'). do 2 f_equal. cbn. rewrite Hres. lia.
          + rewrite <- Hrecv in Hz'. by eapply getattr_is_Some.
        - eexists. split; [reflexivity | done]. }
      assert (∀ v (r3 : outcome unit),
                (∀ z, getattr (glob s) stats "received" = Some (VInt z) →
                      v = VInt (z + Z.of_nat (length msg))) →
                match getattr (setattr stats "received" v g1) stats "eof" with
                | Some e =>
                    Some (Ok tt
                      (with_src (chain msg (src s1))
                         (with_glob
                            (setattr stats "eof"
                               (if truthy (setattr stats "received" v g1) e then e
                                else VBool (Nat.eqb (length msg) 0))
                               (setattr stats "received" v g1)) s1)))
                | None => Some (Exc (with_glob (setattr stats "received" v g1) s1))
                end = Some r3 → accounted stats silent s (final r3)) as Hend.
      { intros v r3 Hv.
        destruct (getattr (setattr stats "received" v g1) stats "eof") as [e|].
        - intros [= <-]. cbn [final]. apply (Hfin _ v); try done.
          + intros l k Hs. cbn [glob with_src with_glob]. by do 2 apply setattr_keeps.
          + intros Hh. cbn [glob with_src with_glob].
            rewrite getattr_setattr_ne by (by right). by apply getattr_setattr_eq.
        - intros [= <-]. cbn [final]. apply (Hfin _ v); try done.
          + intros l k Hs. cbn [glob with_glob]. by apply setattr_keeps.
          + intros Hh. cbn [glob with_glob]. by apply getattr_setattr_eq. }
      unfold add_attr. change (glob s1) with g1. rewrite Hrecv.
      destruct (getattr (glob s) stats "received") as [[| b | z | q | | | |]|] eqn:Hz.
      3:{ apply Hend. intros z' [= <-]. done. }
      2:{ apply Hend. intros z' Hz'. congruence. }
      2:{ apply Hend. intros z' Hz'. congruence. }
      all: intros [= <-]; cbn [final]; unfold accounted; subst s1;
           cbn [glob inbox closed trace emit]; rewrite Hin;
           (split_and!; [done | | done | by eexists]);
           exists [a]; (split; [done|]); intros z' Hz'; congruence.
    + intros [= <-]. by apply Hplain.
Qed.

Lemma drive_accounted stats fuel : ∀ gen d s r,
  drive E stats fuel gen d s = Some r → accounted stats silent s (final r).
Proof.
  induction fuel as [|fuel IH]; intros gen d s r; [done|]. cbn [drive].
  destruct (run_next E gen (src s) d) as [waiting gen' x d' | x d' | x].
  - assert (accounted stats silent s (with_src x s)) as Hx by (by apply accounted_same).
    destruct waiting.
    + destruct (refill stats fuel (with_src x s)) as [[[] s1 | s1]|] eqn:Hre; [| |done].
      * apply refill_accounted in Hre. intros Hd. apply IH in Hd.
        eapply accounted_trans; [apply silent_app | exact Hx |].
        eapply accounted_trans; [apply silent_app | exact Hre | exact Hd].
      * apply refill_accounted in Hre. intros [= <-].
        eapply accounted_trans; [apply silent_app | exact Hx | exact Hre].
    + intros Hd. apply IH in Hd.
      eapply accounted_trans; [apply silent_app | exact Hx | exact Hd].
  - intros [= <-]. by apply accounted_same.
  - intros [= <-]. by apply accounted_same.
Qed.

Lemma delay_events_silent g delay : silent (delay_events E g delay).
Proof.
  unfold delay_events. destruct delay as [v|]; [|done].
  destruct (truthy g v); [|done].
  by destruct (delay_seconds E g v ≫= time_sleep E).
Qed.

Lemma closed_emit_all es : ∀ s, closed (emit_all es s) = closed s.
Proof.
  induction es as [|e es IH]; intros s; cbn; [done|]. unfold emit_all in IH. by rewrite IH.
Qed.

(** A state that differs in the trace only. *)
Lemma accounted_events stats (P : list event → Prop) evs s s' :
  P evs → glob s' = glob s → inbox s' = inbox s → closed s' = closed s →
  trace s' = (trace s ++ evs)%list → accounted stats P s s'.
Proof.
  intros HP Hg Hi Hc Ht. unfold accounted. rewrite Hg, Hi, Hc, Ht. split_and!; try done.
  - exists []. split; [done|]. intros z Hz. rewrite Hz. do 2 f_equal. cbn. lia.
  - by exists evs.
Qed.

Lemma terminate_closed process addr s :
  closed (terminate E process addr s) = closed s.
Proof. unfold terminate. by destruct (process (proc s) addr (new_data E) false). Qed.

Lemma conn_send_closed rpy s : closed (conn_send rpy s) = closed s.
Proof. unfold conn_send. by destruct (send_errors s) as [|[] rest]. Qed.

Lemma respond_accounted process stats addr delay d s :
  accounted stats one_answer s (final (respond E process addr delay d s)).
Proof.
  unfold respond.
  destruct (process (proc s) addr d true) as [d' p | d' p | p].
  - set (s1 := emit (EvProcess (has_request E d) (Some true)) (with_proc p s)).
    assert (accounted stats one_answer s (terminate E process addr s1)) as Hterm.
    { destruct (SessionFacts.terminate_spec E process addr s1) as (r & Ht & Hg & Hi).
      apply (accounted_events stats one_answer
               [EvProcess (has_request E d) (Some true); EvProcess false r]).
      - unfold one_answer, count. cbn. destruct r as [[]|]; cbn; lia.
      - by rewrite Hg.
      - by rewrite Hi.
      - by rewrite terminate_closed.
      - rewrite Ht. subst s1. cbn. by rewrite <- app_assoc. }
    destruct (has_response E d'); cbn [negb]; [|exact Hterm].
    destruct (has_enip_input E d'); cbn [negb]; [|exact Hterm].
    destruct (enip_encode E d') as [rpy|]; [|exact Hterm].
    cbn [final].
    destruct (SessionFacts.conn_send_spec rpy (emit_all (delay_events E (glob s1) delay) s1))
      as (ok & Ht & Hg & Hi).
    apply (accounted_events stats one_answer
             ([EvProcess (has_request E d) (Some true)]
                ++ delay_events E (glob s1) delay ++ [EvSend rpy ok])%list).
    + destruct (delay_events_silent (glob s1) delay) as (H1 & H2 & H3).
      unfold one_answer. rewrite !count_app, H1, H2, H3. unfold count. cbn. lia.
    + by rewrite Hg, SessionFacts.glob_emit_all.
    + by rewrite Hi, SessionFacts.inbox_emit_all.
    + by rewrite conn_send_closed, closed_emit_all.
    + rewrite Ht, SessionFacts.trace_emit_all. subst s1. cbn. by rewrite <- !app_assoc.
  - cbn [final].
    apply (accounted_events stats one_answer [EvProcess (has_request E d) (Some false)]);
      try done.
    unfold one_answer, count. cbn. lia.
  - destruct (SessionFacts.terminate_spec E process addr
                (emit (EvProcess (has_request E d) None) (with_proc p s)))
      as (r & Ht & Hg & Hi).
    cbn [final].
    apply (accounted_events stats one_answer
             [EvProcess (has_request E d) None; EvProcess false r]).
    + unfold one_answer, count. cbn. destruct r as [[]|]; cbn; lia.
    + by rewrite Hg.
    + by rewrite Hi.
    + by rewrite terminate_closed.
    + rewrite Ht. cbn. by rewrite <- app_assoc.
Qed.

Lemma answer_accounted process stats addr delay d s :
  accounted stats one_answer s (final (answer E process stats addr delay d s)).
Proof.
  unfold answer. destruct (has_request E d); [|apply respond_accounted].
  destruct (add_attr stats "requests" 1 s) as [s1|] eqn:Hadd.
  - eapply accounted_trans; [apply silent_one_answer | | apply respond_accounted].
    by apply (add_attr_accounted stats silent "requests" 1 s s1).
  - cbn [final]. apply accounted_refl. by apply silent_is_one_answer.
Qed.

Lemma iteration_accounted process stats addr delay fuel gen d s r :
  iteration E process stats addr delay fuel gen d s = Some r →
  accounted stats one_answer s (final r).
Proof.
  unfold iteration.
  destruct (drive E stats fuel gen d s) as [[d' s1 | s1]|] eqn:Hd; [| |done].
  - apply drive_accounted in Hd. intros [= <-].
    eapply accounted_trans; [apply silent_one_answer | exact Hd | apply answer_accounted].
  - apply drive_accounted in Hd. intros [= <-].
    eapply accounted_weaken; [apply silent_is_one_answer | exact Hd].
Qed.

Lemma turn_paced a b : paced [EvRun] ∧ (one_answer a → paced b → paced ((EvRun :: a) ++ b)%list).
Proof.
  split; [unfold paced, count; cbn; lia|].
  intros Ha Hb. apply paced_app; [by apply run_one_answer_paced | done].
Qed.

Lemma serve_accounted process stats addr delay fuel : ∀ s r,
  serve E process stats addr delay fuel s = Some r → accounted stats paced s (final r).
Proof.
  induction fuel as [|fuel IH]; intros s r; [done|]. cbn [serve].
  destruct (stats_eof stats s) as [[]|];
    [intros [= <-]; apply accounted_refl, paced_nil | |
     intros [= <-]; apply accounted_refl, paced_nil].
  set (s0 := emit EvRun (with_src (forget (src s)) s)).
  assert (accounted stats (λ evs, evs = [EvRun]) s s0) as H0.
  { by apply (accounted_events stats _ [EvRun]). }
  destruct (iteration E process stats addr delay fuel (run_start E) (new_data E) s0)
    as [[[] s1 | s1]|] eqn:Hit; [| |done].
  - apply iteration_accounted in Hit. intros Hs. apply IH in Hs.
    eapply accounted_trans; [| | exact Hs].
    2:{ eapply (accounted_trans stats _ _ (λ evs, paced evs)); [| exact H0 | exact Hit].
        intros a b -> Hb. by apply run_one_answer_paced. }
    intros a b Ha Hb. by apply paced_app.
  - apply iteration_accounted in Hit. intros [= <-].
    eapply accounted_trans; [| exact H0 | exact Hit].
    intros a b -> Hb. by apply run_one_answer_paced.
Qed.

End Facts.
End AccountFacts.

Module RunFacts.
Import Session Account StoreFacts AccountFacts.

Section Facts.
Context {data pstate procstate : Type}.
Variable E : collaborators data pstate procstate.

Lemma set_up_stats stats addr g :
  is_Some (heap g !! stats) →
  is_Some (getattr (set_up stats addr g) stats "requests") ∧
  getattr (set_up stats addr g) stats "received" = Some (VInt 0).
Proof.
  intros Hh. unfold set_up. split.
  - do 4 apply setattr_keeps. rewrite getattr_setattr_eq by done. eauto.
  - rewrite !getattr_setattr_ne by (by right). apply getattr_setattr_eq.
    destruct Hh as [d Hd]. unfold setattr, set_heap. cbn [heap].
    rewrite lookup_alter_eq, Hd. cbn. eauto.
Qed.

(** The state in which [finally] finds a handler that had a processor:
    [s1] is where the loop was left. *)
Lemma finally_closes stats key (s0 s1 s2 : state procstate) :
  is_Some (getattr (glob s0) stats "requests") →
  getattr (glob s0) stats "received" = Some (VInt 0) →
  accounted stats paced s0 s1 →
  glob s2 = setattr stats "processed" (VInt (Z.of_nat (sent (src s1)))) (glob s1) →
  inbox s2 = inbox s1 → closed s2 = closed s1 → trace s2 = trace s1 →
  fst (finally stats key s2) = true ∧
  closed (snd (finally stats key s2)) = true ∧
  (∃ evs, trace (snd (finally stats key s2)) = (trace s0 ++ evs ++ [EvClose])%list ∧
          paced evs) ∧
  ∃ used, inbox s0 = (used ++ inbox (snd (finally stats key s2)))%list ∧
          getattr (glob (snd (finally stats key s2))) stats "received"
          = Some (VInt (delivered used)).
Proof.
  intros Hreq Hrecv (Hkeep & (used & Hin & Hcount) & Hclosed & evs & Htrace & Hpaced)
         Hg Hi Hc Ht.
  specialize (Hcount 0 Hrecv). rewrite Z.add_0_l in Hcount.
  assert (is_Some (heap (glob s1) !! stats)) as Hh.
  { destruct (Hkeep _ _ Hreq) as [x Hx]. by eapply getattr_is_Some. }
  assert (is_Some (getattr (glob s2) stats "requests")) as [x1 H1].
  { rewrite Hg. by apply setattr_keeps, Hkeep. }
  assert (getattr (glob s2) stats "processed"
          = Some (VInt (Z.of_nat (sent (src s1))))) as H2.
  { rewrite Hg. by apply getattr_setattr_eq. }
  assert (getattr (glob s2) stats "received" = Some (VInt (delivered used))) as H3.
  { rewrite Hg, getattr_setattr_ne by (by right). done. }
  unfold finally. cbn [glob with_glob].
  change (getattr (set_connections (delete key (connections (glob s2))) (glob s2)))
    with (getattr (glob s2)).
  rewrite H1, H2, H3. cbn [fst snd closed trace inbox glob emit with_glob].
  split_and!; [done | done | |].
  - exists evs. rewrite Ht, Htrace. by rewrite app_assoc.
  - exists used. split; [by rewrite Hi|].
    change (getattr (set_connections (delete key (connections (glob s2))) (glob s2)))
      with (getattr (glob s2)). done.
Qed.

Lemma enip_srv_with_processor process addr delay fuel g arrivals errors p x s :
  enip_process E = Some process →
  enip_srv E addr delay fuel g arrivals errors p = Some (x, s) →
  closed s = true ∧
  (∃ evs, trace s = (evs ++ [EvClose])%list ∧ paced evs) ∧
  ∃ used, arrivals = (used ++ inbox s)%list ∧
          getattr (glob s) (next_loc g) "received" = Some (VInt (delivered used)).
Proof.
  intros Hproc. unfold enip_srv, register, alloc, session. rewrite Hproc.
  set (stats := next_loc g).
  set (g1 := set_connections _ _).
  set (s0 := with_glob (set_up stats addr (glob (initial g1 arrivals errors p)))
               (initial g1 arrivals errors p)).
  assert (is_Some (heap g1 !! stats)) as Hh.
  { subst g1. cbn. rewrite lookup_insert_eq. eauto. }
  destruct (set_up_stats stats addr g1 Hh) as [Hreq Hrecv].
  destruct (serve E process stats addr delay fuel s0) as [[[] s1 | s1]|] eqn:Hs; [| |done].
  - apply (serve_accounted E) in Hs. cbn [final] in Hs.
    match goal with
    | |- context [finally stats ?key ?s2] =>
        destruct (finally_closes stats key s0 s1 s2 Hreq Hrecv Hs)
          as (Hfine & Hclosed & (evs & Htrace & Hpaced) & used & Hin & Hcount);
          try done;
          destruct (finally stats key s2) as [fine s3]
    end.
    cbn [fst snd] in *. intros [= <- <-]. split_and!; [done | by exists evs | by exists used].
  - apply (serve_accounted E) in Hs. cbn [final] in Hs.
    match goal with
    | |- context [finally stats ?key ?s2] =>
        destruct (finally_closes stats key s0 s1 s2 Hreq Hrecv Hs)
          as (Hfine & Hclosed & (evs & Htrace & Hpaced) & used & Hin & Hcount);
          try done;
          destruct (finally stats key s2) as [fine s3]
    end.
    cbn [fst snd] in *. intros [= <- <-]. split_and!; [done | by exists evs | by exists used].
Qed.

Lemma enip_srv_without_processor addr delay fuel g arrivals errors p :
  enip_process E = None →
  ∃ s, enip_srv E addr delay fuel g arrivals errors p = Some (Raised, s) ∧
       closed s = false ∧ trace s = [] ∧ inbox s = arrivals.
Proof.
  intros Hproc. unfold enip_srv, register, alloc, session. rewrite Hproc.
  unfold finally, on_exception.
  cbn [glob with_glob with_src initial src].
  match goal with
  | |- context [getattr ?g0 ?l "requests"] =>
      assert (getattr g0 l "requests" = None) as ->
  end.
  { unfold getattr, setattr, set_heap, set_connections. cbn [heap].
    rewrite lookup_alter_eq, lookup_insert_eq. cbn.
    rewrite lookup_insert_ne by done. apply lookup_empty. }
  eexists. split; [reflexivity|]. done.
Qed.

End Facts.
End RunFacts.

(** X17.  However a handler that was given a processor leaves, its last act
    is to close the socket. One that was given none raises without a read or
    a call, and leaves the socket open: its [finally] clause raises on
    [stats.requests], which was never set, before [conn.close()]. *)
Theorem socket_is_closed_when_a_processor_is_given
    {data pstate procstate : Type} (E : Session.collaborators data pstate procstate)
    addr delay fuel g arrivals errors p x (s : Session.state procstate) :
  Session.enip_srv E addr delay fuel g arrivals errors p = Some (x, s) →
  (is_Some (Session.enip_process E) →
     Session.closed s = true ∧ last (Session.trace s) = Some Session.EvClose) ∧
  (Session.enip_process E = None →
     x = Session.Raised ∧ Session.closed s = false ∧ Session.trace s = [] ∧
     Session.inbox s = arrivals).
Proof.
  intros Hrun. split.
  - intros [process Hproc].
    destruct (RunFacts.enip_srv_with_processor E process addr delay fuel g arrivals
                errors p x s Hproc Hrun) as (Hclosed & (evs & Htrace & _) & _).
    split; [done|]. rewrite Htrace. apply last_snoc.
  - intros Hproc.
    destruct (RunFacts.enip_srv_without_processor E addr delay fuel g arrivals errors p
                Hproc) as (s' & Hrun' & Hclosed & Htrace & Hin).
    rewrite Hrun in Hrun'. by injection Hrun' as -> ->.
Qed.

Lemma socket_is_closed_when_a_processor_is_given_witness :
  Sample.short_run = Some (Session.Returned, Sample.end_of Sample.short_run) ∧
  (is_Some (Session.enip_process Sample.simulator) →
     Session.closed (Sample.end_of Sample.short_run) = true ∧
     last (Session.trace (Sample.end_of Sample.short_run)) = Some Session.EvClose) ∧
  (Session.enip_process Sample.simulator = None →
     Session.Returned = Session.Raised ∧
     Session.closed (Sample.end_of Sample.short_run) = false ∧
     Session.trace (Sample.end_of Sample.short_run) = [] ∧
     Session.inbox (Sample.end_of Sample.short_run)
     = [Sample.arrives Sample.register_session; Sample.arrives []]).
Proof.
  split.
  - vm_compute. reflexivity.
  - apply (socket_is_closed_when_a_processor_is_given Sample.simulator Sample.peer None
             400 empty_globals [Sample.arrives Sample.register_session; Sample.arrives []]
             [] 0%N Session.Returned (Sample.end_of Sample.short_run)).
    vm_compute. reflexivity.
Defined.

(** X18.  [stats.received] is the number of bytes that the socket delivered
    to the handler: when it leaves, the counter holds the total length of
    the messages it took, whatever else happened. (The control plane of this
    model writes [eof] only.) *)
Theorem received_counts_the_bytes_delivered
    {data pstate procstate : Type} (E : Session.collaborators data pstate procstate)
    addr delay fuel g arrivals errors p x (s : Session.state procstate) :
  is_Some (Session.enip_process E) →
  Session.enip_srv E addr delay fuel g arrivals errors p = Some (x, s) →
  ∃ used, arrivals = (used ++ Session.inbox s)%list ∧
          getattr (Session.glob s) (next_loc g) "received"
          = Some (VInt (Account.delivered used)).
Proof.
  intros [process Hproc] Hrun.
  by destruct (RunFacts.enip_srv_with_processor E process addr delay fuel g arrivals
                 errors p x s Hproc Hrun) as (_ & _ & Hcount).
Qed.

Lemma received_counts_the_bytes_delivered_witness :
  ∃ used, [Sample.arrives Sample.register_session; Sample.arrives []]
          = (used ++ Session.inbox (Sample.end_of Sample.short_run))%list ∧
          getattr (Session.glob (Sample.end_of Sample.short_run))
            (next_loc empty_globals) "received"
          = Some (VInt (Account.delivered used)).
Proof.
  apply (received_counts_the_bytes_delivered Sample.simulator Sample.peer None
           400 empty_globals [Sample.arrives Sample.register_session; Sample.arrives []]
           [] 0%N Session.Returned (Sample.end_of Sample.short_run)).
  - vm_compute. eauto.
  - vm_compute. reflexivity.
Defined.

(** X19.  The handler sends at most one reply for each parse that it starts,
    and at most one for each call of the processor that returned a true
    value. *)
Theorem replies_are_paced_by_parses
    {data pstate procstate : Type} (E : Session.collaborators data pstate procstate)
    addr delay fuel g arrivals errors p x (s : Session.state procstate) :
  Session.enip_srv E addr delay fuel g arrivals errors p = Some (x, s) →
  (Account.count Account.is_send (Session.trace s)
     ≤ Account.count Account.is_run (Session.trace s))%nat ∧
  (Account.count Account.is_send (Session.trace s)
     ≤ Account.count Account.is_go (Session.trace s))%nat.
Proof.
  intros Hrun. destruct (Session.enip_process E) as [process|] eqn:Hproc.
  - destruct (RunFacts.enip_srv_with_processor E process addr delay fuel g arrivals
                errors p x s Hproc Hrun) as (_ & (evs & Htrace & [H1 H2]) & _).
    rewrite Htrace, !AccountFacts.count_app. unfold Account.count at 2 4 6. cbn. lia.
  - destruct (RunFacts.enip_srv_without_processor E addr delay fuel g arrivals errors p
                Hproc) as (s' & Hrun' & _ & Htrace & _).
    rewrite Hrun in Hrun'. injection Hrun' as -> ->. rewrite Htrace. done.
Qed.

Lemma replies_are_paced_by_parses_witness :
  Sample.exit_of Sample.unregister_run = Some Session.Returned ∧
  (Account.count Account.is_send (Session.trace (Sample.end_of Sample.unregister_run))
     ≤ Account.count Account.is_run
         (Session.trace (Sample.end_of Sample.unregister_run)))%nat ∧
  (Account.count Account.is_send (Session.trace (Sample.end_of Sample.unregister_run))
     ≤ Account.count Account.is_go
         (Session.trace (Sample.end_of Sample.unregister_run)))%nat.
Proof.
  split; [vm_compute; reflexivity|].
  apply (replies_are_paced_by_parses Sample.simulator Sample.peer None 400 empty_globals
           [Sample.arrives Sample.register_session;
            Sample.arrives (Sample.unregister_session 1);
            Sample.arrives Sample.register_session; Sample.arrives []] [] 0%N
           Session.Returned (Sample.end_of Sample.unregister_run)).
  vm_compute. reflexivity.
Defined.

Module TallyFacts.
Import Session Account StoreFacts AccountFacts.

Section Facts.
Context {data pstate procstate : Type}.
Variable E : collaborators data pstate procstate.
Abbreviation st := (state procstate).
Implicit Types s : st.

Lemma tallied_refl stats s : tallied stats s s.
Proof.
  exists []. rewrite app_nil_r. split; [done|]. intros z ->. do 2 f_equal. cbn. lia.
Qed.

Lemma tallied_trans stats s1 s2 s3 :
  tallied stats s1 s2 → tallied stats s2 s3 → tallied stats s1 s3.
Proof.
  intros (e1 & Ht1 & Hr1) (e2 & Ht2 & Hr2). exists (e1 ++ e2)%list. split.
  - by rewrite Ht2, Ht1, app_assoc.
  - intros z Hz. rewrite (Hr2 _ (Hr1 _ Hz)), count_app. do 2 f_equal. lia.
Qed.

(** Events that are no calls with a request, and a store in which the
    counter is what it was. *)
Lemma tallied_quiet stats evs s s' :
  getattr (glob s') stats "requests" = getattr (glob s) stats "requests" →
  trace s' = (trace s ++ evs)%list →
  count is_request evs = 0%nat →
  tallied stats s s'.
Proof.
  intros Hg Ht Hc. exists evs. split; [done|]. intros z Hz.
  rewrite Hg, Hz, Hc. do 2 f_equal. lia.
Qed.

Lemma tallied_same stats s s' :
  glob s' = glob s → trace s' = trace s → tallied stats s s'.
Proof.
  intros Hg Ht. apply (tallied_quiet stats []); [by rewrite Hg | | done].
  by rewrite Ht, app_nil_r.
Qed.

Lemma refill_tallied stats fuel : ∀ s r,
  refill stats fuel s = Some r → tallied stats s (final r).
Proof.
  induction fuel as [|fuel IH]; intros s r; [done|]. cbn [refill].
  destruct (stats_eof stats s) as [[]|];
    [intros [= <-]; apply tallied_refl | | intros [= <-]; apply tallied_refl].
  unfold network_recv. destruct (inbox s) as [|a rest] eqn:Hin.
  - set (s1 := emit _ s).
    assert (tallied stats s s1) as H1.
    { by apply (tallied_quiet stats [EvRecv (recv_timeout (src s)) (peek (src s)) Nothing]). }
    destruct (peek (src s1)).
    + by intros [= <-].
    + intros Hr. apply IH in Hr. by eapply tallied_trans.
  - set (g1 := if ctl_eof a then setattr stats "eof" (VBool true) (glob s) else glob s).
    set (s1 := emit _ _).
    assert (getattr g1 stats "requests" = getattr (glob s) stats "requests") as Hg1.
    { subst g1. destruct (ctl_eof a); [|done]. apply getattr_setattr_ne. by right. }
    assert (∀ s2, getattr (glob s2) stats "requests" = getattr g1 stats "requests" →
              trace s2 = trace s1 → tallied stats s s2) as Hquiet.
    { intros s2 Hg Ht.
      apply (tallied_quiet stats
               [EvRecv (recv_timeout (src s)) (peek (src s)) (recv_result a)]);
        [by rewrite Hg | by rewrite Ht | done]. }
    destruct (recv_result a) as [|msg|] eqn:Hres.
    + destruct (peek (src s1)).
      * intros [= <-]. by apply Hquiet.
      * intros Hr. apply IH in Hr. eapply tallied_trans; [|exact Hr]. by apply Hquiet.
    + unfold add_attr. change (glob s1) with g1.
      destruct (getattr g1 stats "received") as [[]|];
        try (intros [= <-]; by apply Hquiet);
        cbn [glob with_glob];
        match goal with
        | |- context [getattr ?g2 stats "eof"] =>
            destruct (getattr g2 stats "eof")
        end;
        intros [= <-]; apply Hquiet; cbn [final glob with_glob with_src trace];
        rewrite ?getattr_setattr_ne by (by right); done.
    + intros [= <-]. by apply Hquiet.
Qed.

Lemma drive_tallied stats fuel : ∀ gen d s r,
  drive E stats fuel gen d s = Some r → tallied stats s (final r).
Proof.
  induction fuel as [|fuel IH]; intros gen d s r; [done|]. cbn [drive].
  destruct (run_next E gen (src s) d) as [waiting gen' x d' | x d' | x].
  - assert (tallied stats s (with_src x s)) as Hx by (by apply tallied_same).
    destruct waiting.
    + destruct (refill stats fuel (with_src x s)) as [[[] s1 | s1]|] eqn:Hre; [| |done].
      * apply refill_tallied in Hre. intros Hd. apply IH in Hd.
        exact (tallied_trans _ _ _ _ Hx (tallied_trans _ _ _ _ Hre Hd)).
      * apply refill_tallied in Hre. intros [= <-]. exact (tallied_trans _ _ _ _ Hx Hre).
    + intros Hd. apply IH in Hd. exact (tallied_trans _ _ _ _ Hx Hd).
  - intros [= <-]. by apply tallied_same.
  - intros [= <-]. by apply tallied_same.
Qed.

(** The events of an answer: the call of the processor with the data
    parsed, and after it none with a request. *)
Lemma respond_events process addr delay d s :
  glob (final (respond E process addr delay d s)) = glob s ∧
  ∃ r evs, trace (final (respond E process addr delay d s))
           = (trace s ++ EvProcess (has_request E d) r :: evs)%list ∧
           count is_request evs = 0%nat.
Proof.
  unfold respond.
  destruct (process (proc s) addr d true) as [d' p | d' p | p].
  - set (s1 := emit (EvProcess (has_request E d) (Some true)) (with_proc p s)).
    assert (glob (terminate E process addr s1) = glob s ∧
            ∃ r evs, trace (terminate E process addr s1)
                     = (trace s ++ EvProcess (has_request E d) r :: evs)%list ∧
                     count is_request evs = 0%nat) as Hterm.
    { destruct (SessionFacts.terminate_spec E process addr s1) as (r & Ht & Hg & _).
      split; [by rewrite Hg|]. exists (Some true), [EvProcess false r].
      split; [|done]. rewrite Ht. subst s1. cbn. by rewrite <- app_assoc. }
    destruct (has_response E d'); cbn [negb]; [|exact Hterm].
    destruct (has_enip_input E d'); cbn [negb]; [|exact Hterm].
    destruct (enip_encode E d') as [rpy|]; [|exact Hterm].
    cbn [final].
    destruct (SessionFacts.conn_send_spec rpy (emit_all (delay_events E (glob s1) delay) s1))
      as (ok & Ht & Hg & _).
    split; [by rewrite Hg, SessionFacts.glob_emit_all|].
    exists (Some true), (delay_events E (glob s1) delay ++ [EvSend rpy ok])%list. split.
    + rewrite Ht, SessionFacts.trace_emit_all. subst s1. cbn. by rewrite <- !app_assoc.
    + rewrite count_app. unfold delay_events.
      destruct delay as [v|]; [|done]. destruct (truthy (glob s1) v); [|done].
      by destruct (delay_seconds E (glob s1) v ≫= time_sleep E).
  - cbn [final]. split; [done|]. by exists (Some false), [].
  - destruct (SessionFacts.terminate_spec E process addr
                (emit (EvProcess (has_request E d) None) (with_proc p s)))
      as (r & Ht & Hg & _).
    cbn [final]. split; [by rewrite Hg|]. exists None, [EvProcess false r].
    split; [|done]. rewrite Ht. cbn. by rewrite <- app_assoc.
Qed.

Lemma answer_tallied process stats addr delay d s :
  tallied stats s (final (answer E process stats addr delay d s)).
Proof.
  unfold answer. destruct (has_request E d) eqn:Hreq.
  - unfold add_attr.
    destruct (getattr (glob s) stats "requests") as [[| b | z | q | | | |]|] eqn:Hz;
      try (cbn [final]; exists []; rewrite app_nil_r; split; [done|];
           intros z' Hz'; congruence).
    all: match goal with
         | |- context [respond _ ?pr ?ad ?de ?da ?s1] =>
             destruct (respond_events pr ad de da s1) as (Hg & r & evs & Ht & Hc)
         end;
         rewrite Hreq in Ht; cbn [trace glob with_glob] in Ht, Hg;
         exists (EvProcess true r :: evs); (split; [done|]);
         intros z' Hz'; try congruence.
    rewrite Hz in Hz'. injection Hz' as <-. rewrite Hg.
    rewrite getattr_setattr_eq by (by eapply getattr_is_Some).
    do 2 f_equal. change (EvProcess true r :: evs) with ([EvProcess true r] ++ evs)%list.
    rewrite count_app, Hc. unfold count. cbn. lia.
  - destruct (respond_events process addr delay d s) as (Hg & r & evs & Ht & Hc).
    rewrite Hreq in Ht. exists (EvProcess false r :: evs). split; [done|].
    intros z Hz. rewrite Hg, Hz. do 2 f_equal.
    change (EvProcess false r :: evs) with ([EvProcess false r] ++ evs)%list.
    rewrite count_app, Hc. unfold count. cbn. lia.
Qed.

Lemma iteration_tallied process stats addr delay fuel gen d s r :
  iteration E process stats addr delay fuel gen d s = Some r →
  tallied stats s (final r).
Proof.
  unfold iteration.
  destruct (drive E stats fuel gen d s) as [[d' s1 | s1]|] eqn:Hd; [| |done].
  - apply drive_tallied in Hd. intros [= <-].
    eapply tallied_trans; [exact Hd | apply answer_tallied].
  - apply drive_tallied in Hd. by intros [= <-].
Qed.

Lemma serve_tallied process stats addr delay fuel : ∀ s r,
  serve E process stats addr delay fuel s = Some r → tallied stats s (final r).
Proof.
  induction fuel as [|fuel IH]; intros s r; [done|]. cbn [serve].
  destruct (stats_eof stats s) as [[]|];
    [intros [= <-]; apply tallied_refl | | intros [= <-]; apply tallied_refl].
  set (s0 := emit EvRun (with_src (forget (src s)) s)).
  assert (tallied stats s s0) as H0 by (by apply (tallied_quiet stats [EvRun])).
  destruct (iteration E process stats addr delay fuel (run_start E) (new_data E) s0)
    as [[[] s1 | s1]|] eqn:Hit; [| |done].
  - apply iteration_tallied in Hit. intros Hs. apply IH in Hs.
    eapply tallied_trans; [exact H0|]. by eapply tallied_trans.
  - apply iteration_tallied in Hit. intros [= <-]. by eapply tallied_trans.
Qed.

Lemma enip_srv_tallied process addr delay fuel g arrivals errors p x s :
  enip_process E = Some process →
  enip_srv E addr delay fuel g arrivals errors p = Some (x, s) →
  getattr (glob s) (next_loc g) "requests"
  = Some (VInt (Z.of_nat (count is_request (trace s)))).
Proof.
  intros Hproc. unfold enip_srv, register, alloc, session. rewrite Hproc.
  set (stats := next_loc g).
  set (g1 := set_connections _ _).
  set (s0 := with_glob (set_up stats addr (glob (initial g1 arrivals errors p)))
               (initial g1 arrivals errors p)).
  assert (getattr (glob s0) stats "requests" = Some (VInt 0)) as Hreq.
  { subst s0. cbn [glob with_glob initial]. unfold set_up.
    rewrite !getattr_setattr_ne by (by right). apply getattr_setattr_eq.
    subst g1. cbn. rewrite lookup_insert_eq. eauto. }
  assert (∀ s1 s2 fine s3,
            tallied stats s0 s1 →
            getattr (glob s2) stats "requests" = getattr (glob s1) stats "requests" →
            trace s2 = trace s1 →
            finally stats (connkey addr) s2 = (fine, s3) →
            getattr (glob s3) stats "requests"
            = Some (VInt (Z.of_nat (count is_request (trace s3))))) as Hfin.
  { intros s1 s2 fine s3 (evs & Ht & Hc) Hg Ht2. specialize (Hc 0 Hreq).
    rewrite Z.add_0_l in Hc. unfold finally. cbn [glob with_glob].
    change (getattr (set_connections (delete (connkey addr) (connections (glob s2)))
                       (glob s2))) with (getattr (glob s2)).
    rewrite Hg, Hc.
    destruct (getattr (glob s2) stats "processed"), (getattr (glob s2) stats "received");
      intros [= <- <-]; cbn [glob trace emit with_glob];
      change (getattr (set_connections (delete (connkey addr) (connections (glob s2)))
                        (glob s2))) with (getattr (glob s2));
      rewrite Hg, Hc, Ht2, Ht; subst s0; cbn [trace with_glob initial app];
      rewrite ?count_app; do 3 f_equal; unfold count; cbn; lia. }
  destruct (serve E process stats addr delay fuel s0) as [[[] s1 | s1]|] eqn:Hs; [| |done].
  - apply serve_tallied in Hs. cbn [final] in Hs.
    match goal with
    | |- context [finally stats (connkey addr) ?s2] =>
        destruct (finally stats (connkey addr) s2) as [fine s3] eqn:Hf;
          intros [= <- <-]; apply (Hfin s1 s2 fine s3 Hs); [| done | done]
    end.
    cbn [glob with_glob]. apply getattr_setattr_ne. by right.
  - apply serve_tallied in Hs. cbn [final] in Hs.
    match goal with
    | |- context [finally stats (connkey addr) ?s2] =>
        destruct (finally stats (connkey addr) s2) as [fine s3] eqn:Hf;
          intros [= <- <-]; apply (Hfin s1 s2 fine s3 Hs); [| done | done]
    end.
    unfold on_exception. cbn [glob with_glob with_src]. apply getattr_setattr_ne. by right.
Qed.

End Facts.
End TallyFacts.

(** X20.  [stats.requests] is the number of times the processor was called
    with a request that had been parsed: when the handler leaves, the
    counter holds the number of those calls. (The control plane of this
    model writes [eof] only.) *)
Theorem requests_counts_the_requests_processed
    {data pstate procstate : Type} (E : Session.collaborators data pstate procstate)
    addr delay fuel g arrivals errors p x (s : Session.state procstate) :
  is_Some (Session.enip_process E) →
  Session.enip_srv E addr delay fuel g arrivals errors p = Some (x, s) →
  getattr (Session.glob s) (next_loc g) "requests"
  = Some (VInt (Z.of_nat (Account.count Account.is_request (Session.trace s)))).
Proof.
  intros [process Hproc] Hrun. by eapply TallyFacts.enip_srv_tallied.
Qed.

Lemma requests_counts_the_requests_processed_witness :
  getattr (Session.glob (Sample.end_of Sample.unregister_run)) (next_loc empty_globals)
    "requests"
  = Some (VInt (Z.of_nat (Account.count Account.is_request
                            (Session.trace (Sample.end_of Sample.unregister_run))))).
Proof.
  apply (requests_counts_the_requests_processed Sample.simulator Sample.peer None 400
           empty_globals
           [Sample.arrives Sample.register_session;
            Sample.arrives (Sample.unregister_session 1);
            Sample.arrives Sample.register_session; Sample.arrives []] [] 0%N
           Session.Returned (Sample.end_of Sample.unregister_run)).
  - vm_compute. eauto.
  - vm_compute. reflexivity.
Defined.

(** ** The connection handler: the end of file of the peer *)

Module EofFacts.
Import Session StoreFacts.

Section Facts.
Context {data pstate procstate : Type}.
Variable E : collaborators data pstate procstate.

(** A turn that goes on with [stats.eof] set reads nothing more and
    leaves it set. *)
Lemma iteration_eof process stats addr delay fuel gen d (s : state procstate) r :
  stats_eof stats s = Some true →
  iteration E process stats addr delay fuel gen d s = Some r →
  inbox (final r) = inbox s ∧
  stats_eof stats (final r) = Some true ∧
  ∃ evs, trace (final r) = (trace s ++ evs)%list ∧ Forall quiet evs.
Proof.
  intros Heof. unfold iteration.
  destruct (drive E stats fuel gen d s) as [[d' s1 | s1]|] eqn:Hd; [| |done].
  - apply (SessionFacts.drive_eof E) in Hd; [|done]. cbn [final] in Hd.
    intros [= <-].
    assert (stats_eof stats s1 = Some true) as H1 by (by rewrite Hd).
    destruct (SessionFacts.answer_eof E process stats addr delay d' s1 H1)
      as (He & Hi & evs & Ht & Hq).
    split_and!; [by rewrite Hi, Hd | done |].
    exists evs. rewrite Ht. split; [by rewrite Hd | done].
  - apply (SessionFacts.drive_eof E) in Hd; [|done]. cbn [final] in Hd.
    intros [= <-]. cbn [final]. split_and!; [by rewrite Hd | by rewrite Hd |].
    exists []. rewrite app_nil_r. split; [by rewrite Hd | done].
Qed.

(** The refill in which the peer's end of file arrives. *)
Lemma refill_end_of_file stats fuel (s : state procstate) c rest z :
  stats_eof stats s = Some false →
  getattr (glob s) stats "received" = Some (VInt z) →
  inbox s = {| ctl_eof := c; recv_result := Bytes [] |} :: rest →
  ∃ s1, refill stats (S fuel) s = Some (Ok tt s1) ∧
        stats_eof stats s1 = Some true ∧ inbox s1 = rest ∧
        pending (src s1) = pending (src s) ∧
        trace s1 = (trace s ++ [EvRecv (recv_timeout (src s)) (peek (src s)) (Bytes [])])%list.
Proof.
  intros Heof Hrecv Hin. cbn [refill]. rewrite Heof.
  unfold network_recv. rewrite Hin. cbn [ctl_eof recv_result].
  set (g1 := if c then setattr stats "eof" (VBool true) (glob s) else glob s).
  assert (getattr g1 stats "received" = Some (VInt z)) as Hrecv1.
  { subst g1. destruct c; [|done]. by rewrite getattr_setattr_ne by (by right). }
  unfold add_attr. cbn [glob emit]. rewrite Hrecv1. cbn [glob with_glob length].
  assert (is_Some (getattr g1 stats "eof")) as [e0 He0].
  { unfold stats_eof in Heof. destruct (getattr (glob s) stats "eof") as [e|] eqn:He; [|done].
    subst g1. destruct c; [|eauto]. apply AccountFacts.setattr_keeps. eauto. }
  rewrite getattr_setattr_ne by (by right). rewrite He0.
  eexists. split; [reflexivity|].
  cbn [inbox with_src with_glob emit src trace chain pending].
  split_and!; [| done | by rewrite app_nil_r | done].
  unfold stats_eof. cbn [glob with_src with_glob].
  rewrite getattr_setattr_eq.
  2:{ apply (getattr_is_Some _ _ "received" (VInt (z + Z.of_nat 0))).
      apply getattr_setattr_eq. by eapply getattr_is_Some. }
  cbn [fmap option_fmap option_map]. f_equal.
  destruct (truthy (setattr stats "received" (VInt (z + Z.of_nat 0)) g1) e0) eqn:Ht.
  - rewrite (SessionFacts.truthy_setattr stats "eof" e0 "received"); [done|].
    rewrite getattr_setattr_eq by (by eapply getattr_is_Some). eauto.
  - done.
Qed.

End Facts.
End EofFacts.



(** X21.  The peer's end of file ends the loop after the turn it arrives in.
    When the empty message is read at a refill, [stats.eof] becomes true;
    the rest of the turn reads the socket no more and starts no parse, the
    parser sees no new input, and the loop is left at its next test. *)
Theorem end_of_file_from_the_peer_ends_the_loop
    {data pstate procstate : Type} (E : Session.collaborators data pstate procstate)
    process stats addr delay fuel gen d (s : Session.state procstate) c rest z r :
  Session.stats_eof stats s = Some false →
  getattr (Session.glob s) stats "received" = Some (VInt z) →
  Session.inbox s = {| Session.ctl_eof := c; Session.recv_result := Session.Bytes [] |}
                      :: rest →
  Session.from_refill E process stats addr delay fuel gen d s = Some r →
  Session.inbox (Session.final r) = rest ∧
  Session.stats_eof stats (Session.final r) = Some true ∧
  (∃ evs, Session.trace (Session.final r)
          = (Session.trace s
               ++ Session.EvRecv (Session.recv_timeout (Session.src s))
                    (Session.peek (Session.src s)) (Session.Bytes []) :: evs)%list ∧
          Forall Session.quiet evs) ∧
  (∀ n, Session.serve E process stats addr delay (S n) (Session.final r)
        = Some (Session.Ok tt (Session.final r))).
Proof.
  intros Heof Hrecv Hin Hrun. unfold Session.from_refill in Hrun.
  destruct fuel as [|fuel]; [done|].
  destruct (EofFacts.refill_end_of_file stats fuel s c rest z Heof Hrecv Hin)
    as (s1 & Hre & Heof1 & Hin1 & _ & Ht1).
  rewrite Hre in Hrun.
  destruct (EofFacts.iteration_eof E process stats addr delay (S fuel) gen d s1 r
              Heof1 Hrun) as (Hi & He & evs & Ht & Hq).
  split_and!.
  - by rewrite Hi.
  - done.
  - exists evs. rewrite Ht, Ht1, <- app_assoc. done.
  - intros n. by apply SessionFacts.serve_eof.
Qed.

Lemma end_of_file_from_the_peer_ends_the_loop_witness :
  ∃ r, Session.from_refill Sample.simulator Sample.session_process 0%nat Sample.peer None
         50 Sample.waiting_parser (Session.new_data Sample.simulator) Cases.hung_up
       = Some r ∧
  Session.inbox (Session.final r) = [] ∧
  Session.stats_eof 0%nat (Session.final r) = Some true ∧
  (∃ evs, Session.trace (Session.final r)
          = (Session.trace Cases.hung_up
               ++ Session.EvRecv (Session.recv_timeout (Session.src Cases.hung_up))
                    (Session.peek (Session.src Cases.hung_up)) (Session.Bytes []) :: evs)%list ∧
          Forall Session.quiet evs) ∧
  (∀ n, Session.serve Sample.simulator Sample.session_process 0%nat Sample.peer None (S n)
          (Session.final r)
        = Some (Session.Ok tt (Session.final r))).
Proof.
  destruct (Session.from_refill Sample.simulator Sample.session_process 0%nat Sample.peer
              None 50 Sample.waiting_parser (Session.new_data Sample.simulator)
              Cases.hung_up) as [r|] eqn:Hrun.
  - exists r. split; [reflexivity|].
    apply (end_of_file_from_the_peer_ends_the_loop Sample.simulator Sample.session_process
             0%nat Sample.peer None 50 Sample.waiting_parser
             (Session.new_data Sample.simulator) Cases.hung_up false [] 0 r).
    + vm_compute. reflexivity.
    + vm_compute. reflexivity.
    + vm_compute. reflexivity.
    + exact Hrun.
  - vm_compute in Hrun. discriminate Hrun.
Defined.

(** ** Addresses and keys *)

Module PrettyFacts.

Lemma pretty_N_char_digit m :
  (m < 10)%N →
  Str.is_digit (pretty_N_char m) = true ∧
  Z.of_nat (nat_of_ascii (pretty_N_char m)) - 48 = Z.of_N m.
Proof.
  intros Hm.
  assert (m = 0 ∨ m = 1 ∨ m = 2 ∨ m = 3 ∨ m = 4 ∨ m = 5 ∨ m = 6 ∨ m = 7
          ∨ m = 8 ∨ m = 9)%N as Hcases by lia.
  repeat (destruct Hcases as [-> | Hcases]; [by vm_compute|]). by subst.
Qed.

(** The characters that [pretty_N_go x s] puts before [s] are digits. *)
Lemma pretty_N_go_chars x : ∀ s c,
  Str.contains c (pretty_N_go x s) = true →
  Str.is_digit c = true ∨ Str.contains c s = true.
Proof.
  induction (N.lt_wf_0 x) as [x _ IH]; intros s c.
  assert (x = 0 ∨ 0 < x)%N as [-> | Hx] by lia.
  - rewrite pretty_N_go_0. by right.
  - rewrite pretty_N_go_step by done. intros Hc.
    apply IH in Hc; [|by apply N.div_lt]. destruct Hc as [? | Hc]; [by left|].
    cbn [Str.contains] in Hc. apply orb_true_iff in Hc as [Hc | Hc]; [|by right].
    apply Ascii.eqb_eq in Hc as <-. left.
    apply pretty_N_char_digit. by apply N.mod_lt.
Qed.

(** ... and they read as [x]. *)
Lemma pretty_N_go_digits x : ∀ s,
  Str.digits 0 (pretty_N_go x s) = Str.digits (Z.of_N x) s.
Proof.
  induction (N.lt_wf_0 x) as [x _ IH]; intros s.
  assert (x = 0 ∨ 0 < x)%N as [-> | Hx] by lia.
  - by rewrite pretty_N_go_0.
  - rewrite pretty_N_go_step by done. rewrite IH by (by apply N.div_lt).
    cbn [Str.digits].
    destruct (pretty_N_char_digit (x `mod` 10)%N) as [-> ->]; [by apply N.mod_lt|].
    f_equal. rewrite (N.div_mod x 10) at 3 by done. lia.
Qed.

Lemma pretty_pos_chars (p : positive) c :
  Str.contains c (pretty (N.pos p)) = true → Str.is_digit c = true.
Proof.
  unfold pretty, pretty_N. destruct (decide (N.pos p = 0%N)); [done|].
  intros Hc. by apply pretty_N_go_chars in Hc as [? | ?].
Qed.

Lemma pretty_pos_digits (p : positive) : Str.digits 0 (pretty (N.pos p)) = Some (Z.pos p).
Proof.
  unfold pretty, pretty_N. destruct (decide (N.pos p = 0%N)); [done|].
  by rewrite pretty_N_go_digits.
Qed.

(** The characters of a printed integer: digits, and [-]. *)
Lemma pretty_Z_chars (z : Z) c :
  Str.contains c (pretty z) = true → Str.is_digit c = true ∨ c = "-"%char.
Proof.
  unfold pretty, pretty_Z. destruct z as [|p|p].
  - cbn [Str.contains]. rewrite orb_false_r. intros Hc%Ascii.eqb_eq. subst. by left.
  - intros Hc. left. by eapply pretty_pos_chars.
  - change ("-" +:+ pretty p) with (String "-" (pretty p)).
    cbn [Str.contains]. intros [Hc | Hc]%orb_true_iff.
    + apply Ascii.eqb_eq in Hc. by right.
    + left. by eapply pretty_pos_chars.
Qed.

Lemma pretty_Z_free (z : Z) c :
  Str.is_digit c = false → c ≠ "-"%char → Str.contains c (pretty z) = false.
Proof.
  intros Hd Hc. destruct (Str.contains c (pretty z)) eqn:Hin; [|done].
  apply pretty_Z_chars in Hin as [? | ?]; congruence.
Qed.

Lemma lstrip_id s :
  (∀ c, Str.contains c s = true → Str.is_space c = false) → Str.lstrip s = s.
Proof.
  destruct s as [|c s]; [done|]. intros H. cbn.
  rewrite (H c); [done|]. cbn. by rewrite Ascii.eqb_refl.
Qed.

Lemma rstrip_id s :
  (∀ c, Str.contains c s = true → Str.is_space c = false) → Str.rstrip s = s.
Proof.
  induction s as [|c s IH]; [done|]. intros H. cbn [Str.rstrip].
  rewrite IH.
  - destruct s; [|done]. rewrite (H c); [done|]. cbn. by rewrite Ascii.eqb_refl.
  - intros c' Hc'. apply H. cbn. by rewrite Hc', orb_true_r.
Qed.

Lemma strip_pretty (z : Z) : Str.strip (pretty z) = pretty z.
Proof.
  assert (∀ c, Str.contains c (pretty z) = true → Str.is_space c = false) as H.
  { intros c Hc. apply pretty_Z_chars in Hc as [Hd | ->]; [|done].
    unfold Str.is_digit, Str.is_space in *.
    apply andb_true_iff in Hd as [H1%Nat.leb_le H2%Nat.leb_le].
    destruct (Nat.eqb_spec (nat_of_ascii c) 32); [lia|].
    cbn [orb]. apply andb_false_iff. right. apply Nat.leb_gt. lia. }
  unfold Str.strip. by rewrite lstrip_id, rstrip_id.
Qed.

Lemma py_int_digit c s :
  Str.is_digit c = true →
  match String c s with
  | String "-" s' => Z.opp <$> Str.unsigned s'
  | String "+" s' => Str.unsigned s'
  | s' => Str.unsigned s'
  end = Str.unsigned (String c s).
Proof.
  destruct c as [[] [] [] [] [] [] [] []]; try done.
Qed.

(** [int] reads back what [%d] prints. *)
Lemma py_int_pretty (z : Z) : Str.py_int (pretty z) = Some z.
Proof.
  unfold Str.py_int. rewrite strip_pretty.
  unfold pretty, pretty_Z. destruct z as [|p|p]; [done| |].
  - pose proof (pretty_pos_digits p) as Hd.
    pose proof (pretty_pos_chars p) as Hc.
    change (pretty p) with (pretty (N.pos p)).
    destruct (pretty (N.pos p)) as [|c s]; [done|].
    rewrite py_int_digit.
    + apply StrFacts.digits_grouped; [exact Hd | by right].
    + apply Hc. cbn. by rewrite Ascii.eqb_refl.
  - change ("-" +:+ pretty p) with (String "-" (pretty (N.pos p))).
    cbv beta iota.
    pose proof (pretty_pos_digits p) as Hd.
    destruct (pretty (N.pos p)) as [|c s]; [done|].
    unfold Str.unsigned.
    by rewrite (StrFacts.digits_grouped _ _ false _ Hd) by (by right).
Qed.

Lemma pretty_nonempty (z : Z) : Str.is_empty (pretty z) = false.
Proof.
  pose proof (py_int_pretty z) as H. by destruct (pretty z).
Qed.

End PrettyFacts.

Module SplitFacts.

Lemma split_nonempty c s : Str.split c s ≠ [].
Proof.
  destruct s as [|a s]; [done|]. cbn [String.append Str.split Str.contains length]. destruct (Ascii.eqb a c); [done|].
  by destruct (Str.split c s).
Qed.

Lemma split_whole c s : Str.contains c s = false → Str.split c s = [s].
Proof.
  induction s as [|a s IH]; [done|]. cbn [String.append Str.split Str.contains length]. intros [Ha Hs]%orb_false_iff.
  by rewrite Ha, (IH Hs).
Qed.

Lemma split_append c a b :
  Str.contains c a = false → Str.split c (a +:+ String c b) = a :: Str.split c b.
Proof.
  induction a as [|x a IH].
  - intros _. change ("" +:+ String c b) with (String c b).
    cbn [Str.split]. by rewrite Ascii.eqb_refl.
  - change (String x a +:+ String c b) with (String x (a +:+ String c b)).
    cbn [Str.split Str.contains]. intros [Hx Ha]%orb_false_iff. by rewrite Hx, (IH Ha).
Qed.

Lemma split_length c a b :
  length (Str.split c (a +:+ String c b))
  = (length (Str.split c a) + length (Str.split c b))%nat.
Proof.
  induction a as [|x a IH].
  - change ("" +:+ String c b) with (String c b).
    cbn [Str.split length]. by rewrite Ascii.eqb_refl.
  - change (String x a +:+ String c b) with (String x (a +:+ String c b)).
    cbn [Str.split]. destruct (Ascii.eqb x c); cbn [length]; [by rewrite IH|].
    pose proof (split_nonempty c (a +:+ String c b)) as H1.
    pose proof (split_nonempty c a) as H2.
    destruct (Str.split c (a +:+ String c b)), (Str.split c a); try done.
Qed.

Lemma split_positive c s : (1 ≤ length (Str.split c s))%nat.
Proof.
  pose proof (split_nonempty c s). destruct (Str.split c s); [done | cbn; lia].
Qed.

End SplitFacts.

(** X22.  The default of [--address] is read back as [address], and so is
    every [interface:port] that is printed the same way: the text of a
    non-empty interface without a colon, a colon and the port as [%d] prints
    it give that interface and that port. *)
Theorem formatted_address_is_read_back default iface port :
  Str.contains ":" iface = false →
  Str.is_empty iface = false →
  Main.parse_address default (Main.format_address (iface, port)) = inr (iface, port).
Proof.
  intros Hcolon Hiface. unfold Main.parse_address, Main.format_address. cbn [fst snd].
  change (iface +:+ ":" +:+ pretty port) with (iface +:+ String ":" (pretty port)).
  rewrite SplitFacts.split_append by done.
  rewrite SplitFacts.split_whole by (by apply PrettyFacts.pretty_Z_free).
  by rewrite PrettyFacts.pretty_nonempty, PrettyFacts.py_int_pretty, Hiface.
Qed.

Lemma formatted_address_is_read_back_witness :
  Main.bind (Main.format_address Main.address) = inr Main.address.
Proof.
  apply (formatted_address_is_read_back Main.address "0.0.0.0" 44818).
  - reflexivity.
  - reflexivity.
Defined.

(** X23.  An address with more than one colon is refused, whatever stands
    around the colons: an IPv6 literal cannot be bound to. *)
Theorem address_with_two_colons_is_refused default a b c :
  Main.parse_address default (a +:+ ":" +:+ b +:+ ":" +:+ c) = inl Main.InvalidAddress.
Proof.
  unfold Main.parse_address.
  pose proof (SplitFacts.split_length ":" a (b +:+ ":" +:+ c)) as Hlen.
  change (b +:+ ":" +:+ c) with (b +:+ String ":" c) in Hlen at 2.
  rewrite (SplitFacts.split_length ":" b c) in Hlen.
  pose proof (SplitFacts.split_positive ":" a).
  pose proof (SplitFacts.split_positive ":" b).
  pose proof (SplitFacts.split_positive ":" c).
  change (a +:+ ":" +:+ b +:+ ":" +:+ c) with (a +:+ String ":" (b +:+ ":" +:+ c)).
  destruct (Str.split ":" (a +:+ String ":" (b +:+ ":" +:+ c))) as [|x [|y [|z l]]];
    cbn in Hlen; try lia. done.
Qed.

Module KeyFacts.

Lemma replace_append a b s t :
  Str.replace a b (s +:+ t) = Str.replace a b s +:+ Str.replace a b t.
Proof.
  induction s as [|c s IH]; [done|].
  change (String c s +:+ t) with (String c (s +:+ t)). cbn [Str.replace].
  by rewrite IH.
Qed.

Lemma replace_absent a b s : Str.contains a s = false → Str.replace a b s = s.
Proof.
  induction s as [|c s IH]; [done|]. cbn [Str.contains Str.replace].
  intros [Hc Hs]%orb_false_iff. by rewrite Hc, (IH Hs).
Qed.

(** [replace] is one to one on the texts that do not have the new
    character. *)
Lemma replace_inj a b s : ∀ t,
  Str.contains b s = false → Str.contains b t = false →
  Str.replace a b s = Str.replace a b t → s = t.
Proof.
  induction s as [|c s IH]; intros [|d t]; try done.
  cbn [Str.contains Str.replace].
  intros [Hc Hs]%orb_false_iff [Hd Ht]%orb_false_iff [= Hhead Htail].
  rewrite (IH t Hs Ht Htail). f_equal.
  apply Ascii.eqb_neq in Hc, Hd.
  destruct (Ascii.eqb_spec c a) as [-> | Hca], (Ascii.eqb_spec d a) as [-> | Hda];
    congruence.
Qed.

(** A text is cut in one way only at its last [c]. *)
Lemma last_separator c u1 : ∀ u2 v1 v2,
  Str.contains c v1 = false → Str.contains c v2 = false →
  u1 +:+ String c v1 = u2 +:+ String c v2 → u1 = u2 ∧ v1 = v2.
Proof.
  induction u1 as [|x u1 IH]; intros [|y u2] v1 v2 H1 H2.
  - change ("" +:+ String c v1) with (String c v1).
    change ("" +:+ String c v2) with (String c v2). by intros [= ->].
  - change ("" +:+ String c v1) with (String c v1).
    change (String y u2 +:+ String c v2) with (String y (u2 +:+ String c v2)).
    intros [= <- ->]. exfalso. clear -H1.
    induction u2 as [|z u2 IH].
    + change ("" +:+ String c v2) with (String c v2) in H1.
      cbn [Str.contains] in H1. by rewrite Ascii.eqb_refl in H1.
    + change (String z u2 +:+ String c v2) with (String z (u2 +:+ String c v2)) in H1.
      cbn [Str.contains] in H1. apply orb_false_iff in H1 as [_ H1]. by apply IH.
  - change ("" +:+ String c v2) with (String c v2).
    change (String x u1 +:+ String c v1) with (String x (u1 +:+ String c v1)).
    intros [= -> <-]. exfalso. clear -H2.
    induction u1 as [|z u1 IH].
    + change ("" +:+ String c v1) with (String c v1) in H2.
      cbn [Str.contains] in H2. by rewrite Ascii.eqb_refl in H2.
    + change (String z u1 +:+ String c v1) with (String z (u1 +:+ String c v1)) in H2.
      cbn [Str.contains] in H2. apply orb_false_iff in H2 as [_ H2]. by apply IH.
  - change (String x u1 +:+ String c v1) with (String x (u1 +:+ String c v1)).
    change (String y u2 +:+ String c v2) with (String y (u2 +:+ String c v2)).
    intros [= -> Htail]. destruct (IH u2 v1 v2 H1 H2 Htail) as [-> ->]. done.
Qed.

(** The key of a peer: the address with its dots replaced, [_], and the
    port as [%d] prints it. *)
Lemma connkey_shape a p :
  Session.connkey (a, p) = Str.replace "." "_" a +:+ String "_" (pretty p).
Proof.
  unfold Session.connkey. cbn [fst snd].
  rewrite replace_append.
  change ("_" +:+ pretty p) with (String "_" (pretty p)). cbn [Str.replace].
  change (Ascii.eqb "_" ".") with false. cbv iota.
  by rewrite (replace_absent "." "_" (pretty p))
    by (by apply PrettyFacts.pretty_Z_free).
Qed.

End KeyFacts.

(** X24.  Two peers get the same key in [connections] only when they are the
    same peer, as long as the addresses are written without [_] (as IPv4
    addresses are); so the handler of one connection neither takes over
    nor removes the entry of another: the entry of the other peer is, at
    every event of the handler's run and after it, what it was before. *)
Theorem distinct_peers_have_distinct_keys {data pstate procstate : Type}
    (E : Session.collaborators data pstate procstate)
    a1 p1 a2 p2 delay fuel g arrivals errors (p : procstate) x s :
  Str.contains "_" a1 = false →
  Str.contains "_" a2 = false →
  (a1, p1) ≠ (a2, p2) →
  Session.enip_srv E (a2, p2) delay fuel g arrivals errors p = Some (x, s) →
  String.eqb (Session.connkey (a1, p1)) (Session.connkey (a2, p2)) = false ∧
  Forall (λ g', connections g' !! Session.connkey (a1, p1)
                = connections g !! Session.connkey (a1, p1)) (Session.observed s) ∧
  connections (Session.glob s) !! Session.connkey (a1, p1)
    = connections g !! Session.connkey (a1, p1).
Proof.
  intros H1 H2 Hne Hrun.
  assert (Session.connkey (a1, p1) ≠ Session.connkey (a2, p2)) as Hkey.
  { rewrite !KeyFacts.connkey_shape. intros Hkey.
    apply KeyFacts.last_separator in Hkey as [Ha Hp];
      try (by apply PrettyFacts.pretty_Z_free).
    apply Hne. f_equal.
    - by eapply KeyFacts.replace_inj.
    - by apply (inj pretty). }
  destruct (LifetimeFacts.enip_srv_observed E _ _ _ _ _ _ _ _ _ Hrun) as [Hend Hall].
  split_and!.
  - by apply String.eqb_neq.
  - eapply LifetimeFacts.Forall2_right; [|exact Hall]. intros e g' ->.
    destruct (Session.closes e); [by rewrite lookup_delete_ne | by rewrite lookup_insert_ne].
  - by rewrite Hend, lookup_delete_ne.
Qed.

Lemma distinct_peers_have_distinct_keys_witness :
  String.eqb (Session.connkey Sample.peer) (Session.connkey Cases.neighbour) = false ∧
  Forall (λ g', connections g' !! Session.connkey Sample.peer = Some (VRef 0%nat))
    (Session.observed (Sample.end_of Cases.neighbour_run)) ∧
  connections (Session.glob (Sample.end_of Cases.neighbour_run))
    !! Session.connkey Sample.peer = Some (VRef 0%nat).
Proof.
  apply (distinct_peers_have_distinct_keys Sample.simulator "10.0.0.7" 51234
           "10.0.0.7" 51235 None 400 (snd (Session.register Sample.peer empty_globals))
           [Sample.arrives Sample.register_session; Sample.arrives []] [] 0%N
           Session.Returned (Sample.end_of Cases.neighbour_run)).
  - reflexivity.
  - reflexivity.
  - intros [=].
  - vm_compute. reflexivity.
Defined.
